(** * Structured-tree transforms of the MLX Python bindings

    A shallow embedding of [python/src/transforms.cpp]: the drivers behind
    [grad] / [value_and_grad], [vmap], [compile] and [custom_function], and
    the properties of them that the specification states.

    Python objects are modelled as trees over tensor leaves, C++ exceptions
    as an error monad, and everything a driver mutates (argument containers,
    the process-wide structure cache, the trace cache of the primitive
    layer) is threaded as explicit state. *)

From Stdlib Require Import ZArith Lia.
From stdpp Require Import base option list sorting gmap strings.

Local Open Scope Z_scope.

(* ===================================================================== *)
(** * Part I: definitions *)
(* ===================================================================== *)

(** ** Exceptions

    Every failure of [transforms.cpp] is a [std::invalid_argument] that
    differs only in its message; one constructor stands for each throw
    site.  The remaining constructors are the exceptions of the libraries
    the file calls into. *)

Inductive exn : Type :=
  (* py_value_and_grad, at wrap time *)
| no_argument_requested
| negative_argument_index (i : Z)
| duplicate_argument_index (i : Z)
  (* py_value_and_grad, at call time *)
| argument_index_out_of_range (i : Z) (nargs : nat)
| missing_keyword_argument (key : string)
  (* py_value_and_grad, return value of the traced callable *)
| return_not_scalar_array
| return_not_array_or_tuple
| return_empty_tuple
| return_first_not_array
  (* py_vmap *)
| invalid_vectorization_axis (output_axes : bool) (axis : Z)
| axis_must_be_int_or_none
| arguments_only_arrays
  (* PyCompiledFun *)
| compile_unsupported_argument
  (* custom_function overrides *)
| custom_only_positional
| custom_vmap_not_pair
  (* trees.cpp *)
| tree_leaf_not_array
| tree_too_few_values
| tree_structure_mismatch
  (* std::unordered_map::at, nb::cast, and an exception of the callable *)
| out_of_range
| cast_error
| python_error (code : Z)
  (* reading a std::vector past its end *)
| undefined_behaviour.

(** The error taxonomy of the specification (section 7). *)
Inductive error_class : Type :=
| InvalidArgumentError
| TreeLeafError
| StructureMismatchError
| ReturnContractError
| AxisError
| ArityError
| UnsupportedArgumentError
| ForeignError.

Definition class_of (e : exn) : error_class :=
  match e with
  | no_argument_requested | negative_argument_index _
  | duplicate_argument_index _ | argument_index_out_of_range _ _
  | missing_keyword_argument _ => InvalidArgumentError
  | return_not_scalar_array | return_not_array_or_tuple
  | return_empty_tuple | return_first_not_array => ReturnContractError
  | invalid_vectorization_axis _ _ | axis_must_be_int_or_none
  | arguments_only_arrays => AxisError
  | compile_unsupported_argument => InvalidArgumentError
  | custom_only_positional => UnsupportedArgumentError
  | custom_vmap_not_pair => ArityError
  | tree_leaf_not_array => TreeLeafError
  | tree_too_few_values => ArityError
  | tree_structure_mismatch => StructureMismatchError
  | out_of_range | cast_error | python_error _
  | undefined_behaviour => ForeignError
  end.

Inductive result (A : Type) : Type :=
| Ok (a : A)
| Raise (e : exn).
Arguments Ok {A} a.
Arguments Raise {A} e.

#[global] Instance result_ret : MRet result := fun A a => Ok a.
#[global] Instance result_bind : MBind result := fun A B f m =>
  match m with
  | Ok a => f a
  | Raise e => Raise e
  end.
#[global] Instance result_fmap : FMap result := fun A B f m =>
  match m with
  | Ok a => Ok (f a)
  | Raise e => Raise e
  end.

Definition is_ok {A} (m : result A) : bool :=
  match m with Ok _ => true | Raise _ => false end.

Definition raises {A} (m : result A) (c : error_class) : Prop :=
  exists e, m = Raise e /\ class_of e = c.

(** A computation that does not fail with an [InvalidArgumentError]. *)
Definition quiet {A} (m : result A) : Prop :=
  forall e, m = Raise e -> class_of e <> InvalidArgumentError.

(** ** Python objects *)

(** [mx::array]: an immutable handle.  The drivers look only at its
    identity ([id()]) and, in [vmap], at its rank ([ndim()]). *)
Record array : Type := mk_array { arr_id : Z; arr_shape : list Z }.

Definition ndim (x : array) : nat := length (arr_shape x).

#[global] Instance array_eq_dec : EqDecision array.
Proof. solve_decision. Defined.

(** Leaves that are not arrays.  A [float] is kept as the 64-bit pattern of
    its [double], which is all that [transforms.cpp] reads of it. *)
Inductive constant : Type :=
| CInt (z : Z)
| CFloat (bits : Z)
| CStr (s : string)
| CNone.

#[global] Instance constant_eq_dec : EqDecision constant.
Proof. solve_decision. Defined.

(** A tree of Python containers over leaves of type [A]: [tree array] is a
    Python value, [tree unit] a structure descriptor (every array replaced
    by the placeholder).  A [dict] keeps its items in iteration order. *)
Unset Elimination Schemes.
Inductive tree (A : Type) : Type :=
| TArr (a : A)
| TConst (c : constant)
| TList (l : list (tree A))
| TTuple (l : list (tree A))
| TDict (d : list (string * tree A)).
Set Elimination Schemes.
Arguments TArr {A} a.
Arguments TConst {A} c.
Arguments TList {A} l.
Arguments TTuple {A} l.
Arguments TDict {A} d.

Abbreviation pyobj := (tree array).
Abbreviation structure := (tree unit).
Abbreviation py_none := (TConst CNone).

Definition is_array {A} (t : tree A) : bool :=
  match t with TArr _ => true | _ => false end.

Definition is_none {A} (t : tree A) : bool :=
  match t with TConst CNone => true | _ => false end.

(** ** Tree helpers ([python/src/trees.cpp]) *)

Module Trees.

(** Threading a state through the elements of a container, left to right. *)
Definition list_traverse {X Y S : Type} (g : X -> S -> result (Y * S)) :
    list X -> S -> result (list Y * S) :=
  fix go (l : list X) (s : S) : result (list Y * S) :=
    match l with
    | [] => Ok ([], s)
    | x :: r =>
        '(y, s1) ← g x s;
        '(r', s2) ← go r s1;
        Ok (y :: r', s2)
    end.

Definition list_collect {X Y : Type} (g : X -> result (list Y)) :
    list X -> result (list Y) :=
  fix go (l : list X) : result (list Y) :=
    match l with
    | [] => Ok []
    | x :: r => ys ← g x; rs ← go r; Ok (ys ++ rs)
    end.

(** Modelled from the spec: [tree_flatten] of trees.cpp, section 4.1
    "flatten(tree, strict)": a depth-first traversal in which sequences and
    mappings recurse, tensor leaves append to the output, and a non-tensor
    leaf is dropped unless [strict] is set, in which case it fails. *)
Fixpoint tree_flatten {A} (t : tree A) (strict : bool) : result (list A) :=
  match t with
  | TArr a => Ok [a]
  | TConst _ => if strict then Raise tree_leaf_not_array else Ok []
  | TList l => list_collect (fun x => tree_flatten x strict) l
  | TTuple l => list_collect (fun x => tree_flatten x strict) l
  | TDict d => list_collect (fun kv => tree_flatten kv.2 strict) d
  end.

(** The structure descriptor of a tree: the same shape, every tensor leaf
    replaced by the placeholder. *)
Fixpoint tree_structure {A} (t : tree A) : structure :=
  match t with
  | TArr _ => TArr tt
  | TConst c => TConst c
  | TList l => TList (map tree_structure l)
  | TTuple l => TTuple (map tree_structure l)
  | TDict d => TDict (map (fun kv => (kv.1, tree_structure kv.2)) d)
  end.


(** The number of tensor leaves of a tree. *)
Fixpoint num_arrays {A} (t : tree A) : nat :=
  match t with
  | TArr _ => 1
  | TConst _ => 0
  | TList l => sum_list (map num_arrays l)
  | TTuple l => sum_list (map num_arrays l)
  | TDict d => sum_list (map (fun kv => num_arrays kv.2) d)
  end.

(** Modelled from the spec: [tree_flatten_with_structure] of trees.cpp,
    section 4.1 "flatten_with_structure(tree)": as [tree_flatten], but it
    also returns the reusable descriptor. *)
Definition tree_flatten_with_structure {A} (t : tree A) (strict : bool) :
    result (list A * structure) :=
  vals ← tree_flatten t strict; Ok (vals, tree_structure t).

(** A stateful visit of the tensor leaves in flattening order: each tensor
    leaf is replaced by what [f] returns for it; containers and non-tensor
    leaves are kept. *)
Fixpoint tree_traverse {A B S : Type} (f : A -> S -> result (B * S))
    (t : tree A) (s : S) : result (tree B * S) :=
  match t with
  | TArr a => '(b, s') ← f a s; Ok (TArr b, s')
  | TConst c => Ok (TConst c, s)
  | TList l =>
      '(l', s') ← list_traverse (tree_traverse f) l s; Ok (TList l', s')
  | TTuple l =>
      '(l', s') ← list_traverse (tree_traverse f) l s; Ok (TTuple l', s')
  | TDict d =>
      '(d', s') ← list_traverse
          (fun kv s0 => '(v, s1) ← tree_traverse f kv.2 s0; Ok ((kv.1, v), s1))
          d s;
      Ok (TDict d', s')
  end.

(** Pulling the next tensor from [values]. *)
Definition next_value {A B} (values : list B) (_ : A) (index : nat) :
    result (B * nat) :=
  match values !! index with
  | Some v => Ok (v, S index)
  | None => Raise tree_too_few_values
  end.

(** Modelled from the spec: [tree_unflatten] and
    [tree_unflatten_from_structure] of trees.cpp, section 4.1
    "unflatten(structure_descriptor_or_template, tensor list, offset=0)":
    rebuilds a tree by walking the template or descriptor and pulling
    tensors from the list in order, starting at the offset; fails if the
    list is shorter than required. *)
Definition tree_unflatten_from {A} (template : tree A) (values : list array)
    (index : nat) : result (pyobj * nat) :=
  tree_traverse (next_value values) template index.

Definition tree_unflatten (template : pyobj) (values : list array)
    (index : nat) : result pyobj :=
  fst <$> tree_unflatten_from template values index.

Definition tree_unflatten_from_structure (s : structure)
    (values : list array) (index : nat) : result pyobj :=
  fst <$> tree_unflatten_from s values index.

(** Modelled from the spec: [tree_fill] of trees.cpp, the in-place form of
    unflatten (section 4.1 "visit_update"): every tensor leaf of [t] is
    overwritten with the next tensor of [values]; the result is the new
    content of the container. *)
Definition tree_fill (t : pyobj) (values : list array) : result pyobj :=
  tree_unflatten t values 0.

(** Modelled from the spec: [tree_visit_update] of trees.cpp, section 4.1
    "visit_update(tree, fn)": replaces each tensor leaf in place with the
    result of [fn]; [fn] may carry state (a captured counter). *)
Definition tree_visit_update {S} (t : pyobj)
    (visitor : array -> S -> result (array * S)) (s : S) :
    result (pyobj * S) :=
  tree_traverse visitor t s.

(** [t'] has the shape of [t]: the same containers, keys and constants,
    and a tensor wherever [t] has one. *)
Definition shaped_like {A B} (t : tree A) (t' : tree B) : Prop :=
  tree_structure t' = tree_structure t.

(** A tree read off the middle of a list of values: the descriptor of [t],
    walked from position [length pre] over [pre ++ vals ++ post], gives
    back [t] and stops right after [vals]. *)
Definition reads_back (strict : bool) (t : pyobj) : Prop :=
  forall vals, tree_flatten t strict = Ok vals ->
  forall pre post,
    tree_unflatten_from (tree_structure t) (pre ++ vals ++ post) (length pre)
    = Ok (t, (length pre + length vals)%nat).

(** Modelled from the spec: [tree_map] of trees.cpp with a function of the
    leaves, section 4.1 "map(tree, fn)": a structure-preserving transform
    of every leaf, tensor or not.  [fn] may carry state (the counters its
    lambda captures). *)
Fixpoint tree_map_leaves {S : Type} (fn : pyobj -> S -> result (pyobj * S))
    (t : pyobj) (s : S) : result (pyobj * S) :=
  match t with
  | TArr _ | TConst _ => fn t s
  | TList l =>
      '(l', s') ← list_traverse (tree_map_leaves fn) l s; Ok (TList l', s')
  | TTuple l =>
      '(l', s') ← list_traverse (tree_map_leaves fn) l s; Ok (TTuple l', s')
  | TDict d =>
      '(d', s') ← list_traverse
          (fun kv s0 => '(v, s1) ← tree_map_leaves fn kv.2 s0; Ok ((kv.1, v), s1))
          d s;
      Ok (TDict d', s')
  end.

(** Unflattening a template from position [i] of [values] takes the next
    [num_arrays] values: the result, flattened, is that slice. *)
Definition fills {A} (t : tree A) : Prop :=
  forall (values : list array) (i : nat),
  (i + num_arrays t <= length values)%nat ->
  exists t',
    tree_unflatten_from t values i = Ok (t', (i + num_arrays t)%nat) /\
    tree_flatten t' false = Ok (take (num_arrays t) (drop i values)).

(** What was unflattened from position [i] of [values] holds, in order,
    the values from [i] on, one for each tensor of the template. *)
Definition reads_slice {A} (t : tree A) : Prop :=
  forall (values : list array) (i : nat) (t' : pyobj) (i' : nat),
  tree_unflatten_from t values i = Ok (t', i') ->
  tree_flatten t' false = Ok (take (num_arrays t) (drop i values)).

(** The leaves of a tree, tensors and constants alike, in traversal
    order. *)
Fixpoint tree_leaves {A} (t : tree A) : list (tree A) :=
  match t with
  | TArr _ | TConst _ => [t]
  | TList l => concat (map tree_leaves l)
  | TTuple l => concat (map tree_leaves l)
  | TDict d => concat (map (fun kv => tree_leaves kv.2) d)
  end.

End Trees.

(** ** C++ integers *)

(** An [int] has 32 bits; a value converted to it wraps around. *)
Definition int_min : Z := - 2 ^ 31.
Definition int_max : Z := 2 ^ 31 - 1.
Definition in_int (z : Z) : Prop := int_min <= z <= int_max.
Definition wrap_int (z : Z) : Z := (z + 2 ^ 31) mod 2 ^ 32 - 2 ^ 31.

(** An [int] converted to [size_t] for a comparison. *)
Definition to_size_t (z : Z) : Z := z mod 2 ^ 64.

(** ** Callables and dictionaries *)

(** A Python callable, invoked with positional arguments [args] and
    keyword arguments [kwargs].  Besides its return value it yields the
    argument containers as the call left them: a callee can write into the
    lists and dicts it was passed, and the caller sees those writes. *)
Definition callable : Type :=
  list pyobj -> list (string * pyobj) ->
  result (list pyobj * list (string * pyobj) * pyobj).

(** [d.contains(key)] and [d[key] = v] on a dict in iteration order. *)
Definition dict_contains {V} (d : list (string * V)) (key : string) : bool :=
  bool_decide (key ∈ d.*1).

Fixpoint dict_set {V} (d : list (string * V)) (key : string) (v : V) :
    list (string * V) :=
  match d with
  | [] => [(key, v)]
  | (k, w) :: r =>
      if decide (k = key) then (k, v) :: r else (k, w) :: dict_set r key v
  end.

(** ** The gradient driver ([py_value_and_grad]) *)

Module Grad.
Import Trees.

Inductive IntOrVec : Type := an_int (i : Z) | a_vec (v : list Z).
Inductive StrOrSet : Type := a_str (s : string) | a_set (s : gset string).

Definition validate_argnums_argnames (argnums : option IntOrVec)
    (argnames : StrOrSet) : list Z * gset string :=
  let setnames : gset string :=
    match argnames with a_str pv => {[ pv ]} | a_set s => s end in
  match argnums with
  | None =>
      (* argnums was not provided and argnames was empty *)
      if bool_decide (setnames = ∅) then ([0], setnames) else ([], setnames)
  | Some (an_int pv) => ([pv], setnames)
  | Some (a_vec v) => (v, setnames)
  end.

(** [for (int i = 1; i < argnums.size(); ++i) if (argnums[i] == argnums[i-1])] *)
Fixpoint adjacent_equal (l : list Z) : bool :=
  match l with
  | x :: r =>
      match r with
      | y :: _ => (x =? y) || adjacent_equal r
      | [] => false
      end
  | [] => false
  end.

(** One round of the sanitizing loop: sort, then look at [argnums[0]] and
    at neighbours. *)
Definition sanitize_round (argnums : list Z) : result (list Z) :=
  let argnums := merge_sort Z.le argnums in
  match argnums with
  | [] => Ok argnums
  | a0 :: _ =>
      if a0 <? 0 then Raise (negative_argument_index a0)
      else if adjacent_equal argnums then Raise (duplicate_argument_index a0)
      else Ok argnums
  end.

(** What the returned closure captures. *)
Record grad_fun : Type := mk_grad_fun {
  fun_ : callable;
  argnums : list Z;
  argnames : gset string;
  error_msg_tag : string;
  scalar_func_only : bool
}.

(** The part of [py_value_and_grad] that runs when the wrapper is built.
    The loop [for (auto arg : argnums)] repeats its body once per element;
    the body works on the whole vector. *)
Definition py_value_and_grad (f : callable) (argnums : list Z)
    (argnames : gset string) (error_msg_tag : string)
    (scalar_func_only : bool) : result grad_fun :=
  if bool_decide (length argnums = 0%nat) && bool_decide (size argnames = 0%nat)
  then Raise no_argument_requested
  else
    argnums ← foldl (fun acc _ => acc ≫= sanitize_round) (Ok argnums) argnums;
    Ok (mk_grad_fun f argnums argnames error_msg_tag scalar_func_only).

(** "Sanitize the input" at the start of a call. *)
Definition sanitize_call (w : grad_fun) (args : list pyobj)
    (kwargs : list (string * pyobj)) : result unit :=
  match last (argnums w) with
  | Some back =>
      (* [argnums.back() >= args.size()] compares as [size_t] *)
      if bool_decide (Z.of_nat (length args) <= to_size_t back)
      then Raise (argument_index_out_of_range back (length args))
      else Ok ()
  | None => Ok ()
  end ;;
  match filter (fun key => dict_contains kwargs key = false)
               (elements (argnames w)) with
  | key :: _ => Raise (missing_keyword_argument key)
  | [] => Ok ()
  end.

(** The rejected selections, in the words of the specification (section
    4.3): an empty selection, a negative index, a duplicate index; and at
    call time an index not below the number of positional arguments
    supplied, or a selected name missing from the keyword arguments. *)
Definition empty_selection (nums : list Z) (names : gset string) : Prop :=
  nums = [] /\ names = ∅.
Definition negative_index (nums : list Z) : Prop :=
  exists i, i ∈ nums /\ i < 0.
Definition duplicate_index (nums : list Z) : Prop := ~ NoDup nums.
Definition index_out_of_range (nums : list Z) (args : list pyobj) : Prop :=
  exists i, i ∈ nums /\ Z.of_nat (length args) <= i.
Definition missing_name (names : gset string)
    (kwargs : list (string * pyobj)) : Prop :=
  exists key, key ∈ names /\ key ∉ kwargs.*1.

(** "Collect the arrays": the flat inputs, the number of tensors of each
    selected argument (behind a leading 0), and the flat positions that are
    differentiated. *)
Record collected : Type := mk_collected {
  arrays : list array;
  counts : list nat;
  gradient_indices : list nat
}.

Definition collect_one (needs_grad : bool) (arg : pyobj) (c : collected) :
    result collected :=
  argsi ← tree_flatten arg needs_grad;
  Ok (if needs_grad
      then mk_collected (arrays c ++ argsi)
             (counts c ++ [length argsi])
             (gradient_indices c ++ seq (length (arrays c)) (length argsi))
      else mk_collected (arrays c ++ argsi) (counts c) (gradient_indices c)).

Fixpoint collect_args (argnums : list Z) (args : list pyobj) (i j : nat)
    (c : collected) : result collected :=
  match args with
  | [] => Ok c
  | arg :: rest =>
      let needs_grad := bool_decide (argnums !! j = Some (Z.of_nat i)) in
      c' ← collect_one needs_grad arg c;
      collect_args argnums rest (S i) (if needs_grad then S j else j) c'
  end.

Fixpoint collect_kwargs (argnames : gset string)
    (kwargs : list (string * pyobj)) (c : collected) : result collected :=
  match kwargs with
  | [] => Ok c
  | (key, value) :: rest =>
      c' ← collect_one (bool_decide (key ∈ argnames)) value c;
      collect_kwargs argnames rest c'
  end.

(** [std::partial_sum(counts.cbegin(), counts.cend(), counts.begin())] *)
Fixpoint partial_sum_from (acc : nat) (l : list nat) : list nat :=
  match l with
  | [] => []
  | x :: r => (acc + x)%nat :: partial_sum_from (acc + x) r
  end.
Definition partial_sum (l : list nat) : list nat := partial_sum_from 0 l.

Definition collect (w : grad_fun) (args : list pyobj)
    (kwargs : list (string * pyobj)) : result collected :=
  c ← collect_args (argnums w) args 0 0 (mk_collected [] [0%nat] []);
  c ← collect_kwargs (argnames w) kwargs c;
  Ok (mk_collected (arrays c) (partial_sum (counts c)) (gradient_indices c)).

(** "Replace the tracers with the originals. Don't overwrite locations which
    were written to during the call to fun": the visitor handed to
    [tree_visit_update], with its captured [index].  Reading [a[index]]
    past the end of the vector has no defined behaviour. *)
Definition restore_visitor (a arrays : list array) (node : array)
    (index : nat) : result (array * nat) :=
  match a !! index with
  | Some tracer =>
      if arr_id node =? arr_id tracer then
        match arrays !! index with
        | Some original => Ok (original, S index)
        | None => Raise undefined_behaviour
        end
      else Ok (node, index)
  | None => Raise undefined_behaviour
  end.

(** "Validate the return value of the python function". *)
Definition validate_return (scalar_func_only : bool) (py_value_out : pyobj) :
    result unit :=
  if is_array py_value_out then Ok ()
  else if scalar_func_only then Raise return_not_scalar_array
  else
    match py_value_out with
    | TTuple ret =>
        match ret with
        | [] => Raise return_empty_tuple
        | ret0 :: _ =>
            if is_array ret0 then Ok () else Raise return_first_not_array
        end
    | _ => Raise return_not_array_or_tuple
    end.


(** The argument containers of a call, [tree = [args, kwargs]]. *)
Definition call_tree (args : list pyobj) (kwargs : list (string * pyobj)) :
    pyobj :=
  TList [TTuple args; TDict kwargs].

Definition split_call_tree (t : pyobj) :
    result (list pyobj * list (string * pyobj)) :=
  match t with
  | TList [TTuple args; TDict kwargs] => Ok (args, kwargs)
  | _ => Raise cast_error
  end.

(** The restore step on its own: what the closure does to the argument
    containers after [fun] has returned. *)
Definition restore (tree : pyobj) (a arrays : list array) : result pyobj :=
  fst <$> tree_visit_update tree (restore_visitor a arrays) 0%nat.

(** The closure handed to [mx::value_and_grad].  It yields the argument
    containers as it leaves them, [py_value_out], and the flat outputs. *)
Definition traced_fun (w : grad_fun) (args : list pyobj)
    (kwargs : list (string * pyobj)) (arrays a : list array) :
    result (pyobj * pyobj * list array) :=
  tree ← tree_fill (call_tree args kwargs) a;
  (* Call the python function *)
  '(targs, tkwargs) ← split_call_tree tree;
  '(targs, tkwargs, py_value_out) ← fun_ w targs tkwargs;
  tree ← restore (call_tree targs tkwargs) a arrays;
  validate_return (scalar_func_only w) py_value_out ;;
  outs ← tree_flatten py_value_out false;
  Ok (tree, py_value_out, outs).

(** The primitive transform layer, as far as this driver uses it. *)
Section Driver.

(** Modelled from the spec: the primitive [value_and_grad(fn, grad_indices)]
    of section 6, which is outside python/src.  It runs [fn] once on
    tracers standing for the inputs, and returns the outputs of [fn]
    together with one gradient per differentiated input.  Which tracers and
    which gradients is left to the primitive layer. *)
Variable make_tracers : list array -> list array.
Variable make_gradients : list array -> list array -> list nat -> list array.

Definition mx_value_and_grad {S : Type}
    (fn : list array -> result (S * list array))
    (gradient_indices : list nat) (arrays : list array) :
    result (S * (list array * list array)) :=
  '(s, outputs) ← fn (make_tracers arrays);
  Ok (s, (outputs, make_gradients arrays outputs gradient_indices)).

(** [args[i]] on [nb::args]. *)
Definition arg_lookup (args : list pyobj) (i : Z) : option pyobj :=
  if 0 <=? i then args !! Z.to_nat i else None.
Definition args_at (args : list pyobj) (i : Z) : result pyobj :=
  match arg_lookup args i with
  | Some arg => Ok arg
  | None => Raise (python_error 0)
  end.

Definition count_at (counts : list nat) (i : nat) : result nat :=
  match counts !! i with
  | Some c => Ok c
  | None => Raise undefined_behaviour
  end.

(** "Collect the gradients for the positional arguments". *)
Fixpoint positional_trees (args : list pyobj) (gradients : list array)
    (counts : list nat) (argnums : list Z) (i : nat) : result (list pyobj) :=
  match argnums with
  | [] => Ok []
  | n :: rest =>
      arg ← args_at args n;
      c ← count_at counts i;
      g ← tree_unflatten arg gradients c;
      gs ← positional_trees args gradients counts rest (S i);
      Ok (g :: gs)
  end.

Definition positional_grads (w : grad_fun) (args : list pyobj)
    (gradients : list array) (counts : list nat) : result pyobj :=
  match argnums w with
  | [n] =>
      arg ← args_at args n;
      c ← count_at counts 0;
      tree_unflatten arg gradients c
  | _ :: _ :: _ =>
      TTuple <$> positional_trees args gradients counts (argnums w) 0
  | [] => Ok py_none
  end.

(** The loop over [kwargs] that fills the dict of keyword gradients. *)
Fixpoint keyword_trees (argnames : gset string)
    (kwargs : list (string * pyobj)) (gradients : list array)
    (counts : list nat) (nargnums : nat) (i : nat)
    (grads_ : list (string * pyobj)) : result (list (string * pyobj)) :=
  match kwargs with
  | [] => Ok grads_
  | (k, value) :: rest =>
      if bool_decide (k ∈ argnames) then
        c ← count_at counts (i + nargnums);
        g ← tree_unflatten value gradients c;
        keyword_trees argnames rest gradients counts nargnums (S i)
          (dict_set grads_ k g)
      else keyword_trees argnames rest gradients counts nargnums i grads_
  end.

(** "Put the gradients back in their container". *)
Definition py_grads (w : grad_fun) (args : list pyobj)
    (kwargs : list (string * pyobj)) (gradients : list array)
    (counts : list nat) : result pyobj :=
  positional ← positional_grads w args gradients counts;
  if bool_decide (size (argnames w) = 0%nat) then Ok positional
  else
    grads_ ← keyword_trees (argnames w) kwargs gradients counts
               (length (argnums w)) 0 [];
    Ok (TTuple [positional; TDict grads_]).

(** The selected arguments of a call, in the order of the wrapper's
    selection: the positional arguments at the selected indices, then the
    selected keyword arguments in the order of [kwargs]. *)
Definition selected_positional (argnums : list Z) (args : list pyobj) :
    list pyobj :=
  omap (arg_lookup args) argnums.
Definition selected_keyword (argnames : gset string)
    (kwargs : list (string * pyobj)) : list (string * pyobj) :=
  filter (fun kv => kv.1 ∈ argnames) kwargs.

(** Redistribution of the gradients, in the words of the specification
    (section 4.4, step 4): the flat gradients are put into the tree shapes
    of the selected arguments one argument after the other, each argument
    taking as many gradients as it has tensors. *)
Definition gradient_trees (templates : list pyobj) (gradients : list array) :
    result (list pyobj) :=
  fst <$> list_traverse (fun t i => tree_unflatten_from t gradients i)
            templates 0%nat.

(** Gradient packaging, in the words of the specification (section 4.4):
    one positional gradient tree is returned as it is, more than one as an
    ordered sequence, none as [None]. *)
Definition positional_part (trees : list pyobj) : pyobj :=
  match trees with
  | [] => py_none
  | [t] => t
  | _ => TTuple trees
  end.

(** With keyword names selected, the result is the 2-tuple of the
    positional part and the mapping from name to gradient tree; [trees]
    holds the positional trees first ([npos] of them). *)
Definition packaged (npos : nat) (keywords : bool) (names : list string)
    (trees : list pyobj) : pyobj :=
  let positional := positional_part (take npos trees) in
  if keywords
  then TTuple [positional; TDict (zip names (drop npos trees))]
  else positional.

(** What a call leaves behind and returns. *)
Record call_result : Type := mk_call_result {
  args_after : list pyobj;
  kwargs_after : list (string * pyobj);
  return_value : pyobj;
  grads : pyobj
}.

(** The closure returned by [py_value_and_grad], applied to a call. *)
Definition call (w : grad_fun) (args : list pyobj)
    (kwargs : list (string * pyobj)) : result call_result :=
  sanitize_call w args kwargs ;;
  c ← collect w args kwargs;
  '(tree, py_value_out, (value, gradients)) ←
    mx_value_and_grad (traced_fun w args kwargs (arrays c))
      (gradient_indices c) (arrays c);
  '(args, kwargs) ← split_call_tree tree;
  py_grads ← py_grads w args kwargs gradients (counts c);
  return_value ← tree_unflatten py_value_out value 0;
  Ok (mk_call_result args kwargs return_value py_grads).

(** The module functions [value_and_grad] and [grad]. *)
Definition value_and_grad (f : callable) (argnums : option IntOrVec)
    (argnames : StrOrSet) : result grad_fun :=
  let '(argnums_vec, argnames_set) :=
    validate_argnums_argnames argnums argnames in
  py_value_and_grad f argnums_vec argnames_set "[value_and_grad]" false.

Definition grad (f : callable) (argnums : option IntOrVec)
    (argnames : StrOrSet) : result grad_fun :=
  let '(argnums_vec, argnames_set) :=
    validate_argnums_argnames argnums argnames in
  py_value_and_grad f argnums_vec argnames_set "[grad]" true.

End Driver.

(** What a wrapper keeps as its selection: the distinct non-negative
    indices in ascending order. *)
Definition canonical (nums s : list Z) : Prop :=
  s = merge_sort Z.le nums /\ StronglySorted Z.lt s /\ Forall (Z.le 0) s.

Abbreviation pull gradients :=
  (fun (t : pyobj) (i : nat) => tree_unflatten_from t gradients i).

(** Filling a tree with tracers and restoring it right away: the leaves of
    [t] sit in [arrays] from position [i] on, and [a] has a tracer for each
    of them. *)
Definition restores (t : pyobj) : Prop :=
  forall leaves, tree_flatten t false = Ok leaves ->
  forall (a arrays : list array) (i : nat),
  (forall k x, leaves !! k = Some x -> arrays !! (i + k)%nat = Some x) ->
  (i + length leaves <= length a)%nat ->
  exists t',
    tree_traverse (next_value a) t i = Ok (t', (i + length leaves)%nat) /\
    tree_traverse (restore_visitor a arrays) t' i
    = Ok (t, (i + length leaves)%nat).

(** A callable that leaves its arguments in place. *)
Definition leaves_arguments (f : callable) : Prop :=
  forall args kwargs args' kwargs' out,
    f args kwargs = Ok (args', kwargs', out) ->
    args' = args /\ kwargs' = kwargs.

(** A callable that does not itself fail with an [InvalidArgumentError]. *)
Definition quiet_callable (f : callable) : Prop :=
  forall args kwargs, quiet (f args kwargs).

(** The gradients of a call, as the primitive layer returns them: [c] is
    what "Collect the arrays" makes of the call, the closure handed to
    [mx::value_and_grad] ran on the tracers of the flat inputs and returned
    the flat outputs [outs], and [gradients] is what the primitive gives
    back for the differentiated positions. *)
Definition primitive_gradients
    (make_tracers : list array -> list array)
    (make_gradients : list array -> list array -> list nat -> list array)
    (w : grad_fun) (args : list pyobj) (kwargs : list (string * pyobj))
    (c : collected) (gradients : list array) : Prop :=
  collect w args kwargs = Ok c /\
  exists tree py_value_out outs,
    traced_fun w args kwargs (arrays c) (make_tracers (arrays c))
    = Ok (tree, py_value_out, outs) /\
    gradients = make_gradients (arrays c) outs (gradient_indices c).

(** [t] is the gradient tree of the argument [arg], taken from position
    [off] of [gradients]: it has the shape of [arg], and its tensors are, in
    order, the gradients from [off] on, one for each tensor of [arg]. *)
Definition gradient_tree (gradients : list array) (off : nat)
    (arg t : pyobj) : Prop :=
  shaped_like arg t /\
  tree_flatten t false = Ok (take (num_arrays arg) (drop off gradients)).

(** The bookkeeping that every step of "Collect the arrays" keeps, before
    the partial sums are taken: the gradient indices are ascending
    positions of [arrays], and [counts] adds up to their number. *)
Definition well_collected (c : collected) : Prop :=
  StronglySorted lt (gradient_indices c) /\
  Forall (fun i => (i < length (arrays c))%nat) (gradient_indices c) /\
  sum_list (counts c) = length (gradient_indices c).

End Grad.

(** ** The vectorization driver ([py_vmap]) *)

Module Vmap.
Import Trees.

(** Walking a tree and its axis specification together. *)
Definition list_visit2 {X S : Type} (g : X -> X -> S -> result S) :
    list X -> list X -> S -> result S :=
  fix go (l1 l2 : list X) (s : S) : result S :=
    match l1, l2 with
    | [], [] => Ok s
    | x1 :: r1, x2 :: r2 => s1 ← g x1 x2 s; go r1 r2 s1
    | _, _ => Raise tree_structure_mismatch
    end.

(** Modelled from the spec: [tree_visit] of trees.cpp on two trees, section
    4.1 "visit(trees, fn)": walks the trees in lockstep and invokes [fn] on
    the corresponding nodes at every leaf of the first tree; fails if the
    trees disagree in container kind, size or keys at a node. *)
Fixpoint tree_visit {S : Type} (visitor : list pyobj -> S -> result S)
    (t1 t2 : pyobj) (s : S) : result S :=
  match t1 with
  | TArr _ | TConst _ => visitor [t1; t2] s
  | TList l1 =>
      match t2 with
      | TList l2 => list_visit2 (tree_visit visitor) l1 l2 s
      | _ => Raise tree_structure_mismatch
      end
  | TTuple l1 =>
      match t2 with
      | TTuple l2 => list_visit2 (tree_visit visitor) l1 l2 s
      | _ => Raise tree_structure_mismatch
      end
  | TDict d1 =>
      match t2 with
      | TDict d2 =>
          list_visit2
            (fun kv1 kv2 s0 =>
               if decide (kv1.1 = kv2.1 :> string)
               then tree_visit visitor kv1.2 kv2.2 s0
               else Raise tree_structure_mismatch)
            d1 d2 s
      | _ => Raise tree_structure_mismatch
      end
  end.

(** [nb::cast<int>] of a Python [int]. *)
Definition cast_int (z : Z) : result Z :=
  if bool_decide (in_int z) then Ok z else Raise cast_error.

(** From [int axis] to the entry pushed on [flat_axes]:
    [if (axis < 0) axis += x.ndim() + output_axes;] followed by the range
    check.  The sum is computed in [size_t] and stored back into the [int];
    the comparison with [x.ndim() + output_axes] is reached only for a
    non-negative [axis]. *)
Definition resolve_axis (output_axes : bool) (x : array) (axis : Z) :
    result Z :=
  let bound := Z.of_nat (ndim x) + (if output_axes then 1 else 0) in
  let axis := if axis <? 0 then wrap_int (axis + bound) else axis in
  if (axis <? 0) || (bound <=? axis)
  then Raise (invalid_vectorization_axis output_axes axis)
  else Ok axis.

(** The state of one run of [axes_to_flat_tree]. *)
Record axes_state : Type := mk_axes_state {
  flat_axes : list Z;
  encountered_tuple : bool
}.

Definition push_axis (st : axes_state) (axis : Z) (tuple : bool) :
    axes_state :=
  mk_axes_state (flat_axes st ++ [axis]) (encountered_tuple st || tuple).

(** The visitor handed to [tree_visit]. *)
Definition axes_visitor (output_axes : bool) (inputs : list pyobj)
    (st : axes_state) : result axes_state :=
  match inputs with
  | [TArr x; TConst CNone] => Ok (push_axis st (-1) false)
  | [TArr x; TConst (CInt z)] =>
      axis ← cast_int z;
      axis ← resolve_axis output_axes x axis;
      Ok (push_axis st axis false)
  | [TArr x; TTuple l] =>
      match l with
      | [TConst (CInt z)] =>
          axis ← cast_int z;
          axis ← resolve_axis output_axes x axis;
          Ok (push_axis st axis true)
      | [TConst CNone] => Ok (push_axis st (-1) true)
      | _ => Raise axis_must_be_int_or_none
      end
  | [TArr x; _] => Raise axis_must_be_int_or_none
  | [_; _] => Raise arguments_only_arrays
  | _ => Raise undefined_behaviour
  end.

Definition axes_to_flat_tree (tree axes : pyobj) (output_axes : bool) :
    result (list Z) :=
  st ← tree_visit (axes_visitor output_axes) tree axes (mk_axes_state [] false);
  if encountered_tuple st && negb (is_array tree)
  then Raise axis_must_be_int_or_none
  else Ok (flat_axes st).

Section Driver.

(** Modelled from the spec: the primitives [trace_vmap] and [replace_vmap]
    of section 6, which are outside python/src.  [trace_vmap] runs the
    function once on tracers standing for the inputs; [replace_vmap]
    materializes the batched outputs. *)
Variable vmap_tracers : list array -> list Z -> list array.
Variable vmap_replace :
  list array -> list array -> list array -> list Z -> list Z -> list array.

Definition vmap_trace (fn : list array -> result (pyobj * list array))
    (inputs : list array) (in_axes : list Z) :
    result (pyobj * (list array * list array)) :=
  let trace_inputs := vmap_tracers inputs in_axes in
  '(py_outputs, trace_outputs) ← fn trace_inputs;
  Ok (py_outputs, (trace_inputs, trace_outputs)).

(** The closure returned by [py_vmap], applied to a call. *)
Definition py_vmap (f : callable) (in_axes out_axes : pyobj)
    (args : list pyobj) : result pyobj :=
  (* Inputs must be array or tree of arrays *)
  inputs ← tree_flatten (TTuple args) true;
  flat_in_axes ←
    axes_to_flat_tree (match args with [arg0] => arg0 | _ => TTuple args end)
      in_axes false;
  let vmap_fn (a : list array) : result (pyobj * list array) :=
    targs ← tree_unflatten (TTuple args) a 0;
    '(_, _, py_outputs) ←
      f (match targs with TTuple l => l | _ => [] end) [];
    outs ← tree_flatten py_outputs true;
    Ok (py_outputs, outs) in
  '(py_outputs, (trace_inputs, trace_outputs)) ←
    vmap_trace vmap_fn inputs flat_in_axes;
  flat_out_axes ← axes_to_flat_tree py_outputs out_axes true;
  (* Perform the vmap *)
  let outputs :=
    vmap_replace inputs trace_inputs trace_outputs flat_in_axes flat_out_axes in
  (* Put the outputs back in the container *)
  tree_unflatten py_outputs outputs 0.

End Driver.


(** The admissible axes: [[0, r)] for inputs and [[0, r + 1)] for outputs. *)
Definition in_range (output_axes : bool) (r : nat) (axis : Z) : Prop :=
  0 <= axis < Z.of_nat r + (if output_axes then 1 else 0).

(** An entry of [flat_axes] that fits the tensor [x]: the sentinel [-1]
    for "not vectorized", or an admissible axis of [x]. *)
Definition valid_axis (output_axes : bool) (x : array) (a : Z) : Prop :=
  a = -1 \/ in_range output_axes (ndim x) a.

(** A walk over [t] and its axes pushes one entry per tensor of [t], each
    fitting its tensor, and [t] has no other leaves. *)
Definition leafwise (output_axes : bool) (t : pyobj) : Prop :=
  forall ax st st',
    tree_visit (axes_visitor output_axes) t ax st = Ok st' ->
    exists xs axs,
      tree_flatten t true = Ok xs /\
      flat_axes st' = flat_axes st ++ axs /\
      Forall2 (valid_axis output_axes) xs axs.

End Vmap.

(** ** The compilation driver ([PyCompiledFun]) *)

Module Compile.
Import Trees.

(** A compiled callable.  [call_impl] hands it freshly rebuilt argument
    containers, so writes into them are lost; what it shares with the
    driver are the captured inputs and outputs. *)
Definition captures : Type := pyobj * pyobj.
Definition capturing_callable : Type :=
  captures -> list pyobj -> list (string * pyobj) ->
  result (captures * pyobj).

(** "Reserve some large primes to signify the presence of an array, a list
    or a dict in order to encode the structure of the pytree." *)
Definition array_identifier : Z := 18446744073709551557.
Definition list_identifier : Z := 18446744073709551533.
Definition dict_identifier : Z := 18446744073709551521.

(** [nb::cast<int64_t>], and the conversion to the [uint64_t] elements of
    [constants]. *)
Definition cast_int64 (z : Z) : result Z :=
  if bool_decide (- 2 ^ 63 <= z < 2 ^ 63) then Ok z else Raise cast_error.
Definition to_uint64 (z : Z) : Z := z mod 2 ^ 64.

(** What [recurse] appends to: the flat array inputs and the compilation
    constants. *)
Record flat_call : Type := mk_flat_call {
  inputs : list array;
  constants : list Z
}.

Definition push_constant (st : flat_call) (c : Z) : flat_call :=
  mk_flat_call (inputs st) (constants st ++ [c]).

Definition list_fold {X S : Type} (g : X -> S -> result S) :
    list X -> S -> result S :=
  fix go (l : list X) (s : S) : result S :=
    match l with
    | [] => Ok s
    | x :: r => s1 ← g x s; go r s1
    end.

Definition all2 {X : Type} (f : X -> X -> bool) : list X -> list X -> bool :=
  fix go (l1 l2 : list X) : bool :=
    match l1, l2 with
    | [], [] => true
    | x1 :: r1, x2 :: r2 => f x1 x2 && go r1 r2
    | _, _ => false
    end.

(** Two trees that [recurse] walks alike: the same containers with their
    items position by position, a dict in the order it iterates; the same
    non-tensor constants; tensors at the same positions.  The values of
    the tensors do not matter.  A [float] is its 64-bit pattern. *)
Fixpoint aligned (t1 t2 : pyobj) : bool :=
  match t1 with
  | TArr _ => match t2 with TArr _ => true | _ => false end
  | TConst c1 =>
      match t2 with TConst c2 => bool_decide (c1 = c2) | _ => false end
  | TList l1 | TTuple l1 =>
      match t2 with
      | TList l2 | TTuple l2 => all2 aligned l1 l2
      | _ => false
      end
  | TDict d1 =>
      match t2 with
      | TDict d2 =>
          all2 (fun kv1 kv2 =>
                  bool_decide (kv1.1 = kv2.1) && aligned kv1.2 kv2.2)
            d1 d2
      | _ => false
      end
  end.

(** The mapping of the specification (section 3) is the list of its items
    ordered by key: [sort_by_key] puts the items of a dict in that order,
    whatever order the dict iterates in, and [key_ordered] does so at every
    mapping of a tree. *)
Definition insert_by_key {V : Type} (kv : string * V) :
    list (string * V) -> list (string * V) :=
  fix go (l : list (string * V)) : list (string * V) :=
    match l with
    | [] => [kv]
    | kv' :: r => if String.leb kv.1 kv'.1 then kv :: l else kv' :: go r
    end.

Definition sort_by_key {V : Type} (d : list (string * V)) :
    list (string * V) :=
  foldr insert_by_key [] d.

Fixpoint key_ordered (t : pyobj) : pyobj :=
  match t with
  | TArr _ | TConst _ => t
  | TList l => TList (map key_ordered l)
  | TTuple l => TTuple (map key_ordered l)
  | TDict d => TDict (sort_by_key (map (fun kv => (kv.1, key_ordered kv.2)) d))
  end.

(** Shapeless-compile-compatibility of two trees, in the words of the
    specification (section 3): the same tree shape (container kinds, sizes
    and mapping keys), the same non-tensor constants, and tensors at the
    same positions.  The values of the tensors do not matter.  Lists and
    tuples are both the ordered sequence of the specification, and a
    mapping is its items ordered by key: two dicts with the same keys are
    compared key by key, in whatever order each of them iterates.  Two
    constants are the same when they are of the same kind and have the
    same value, two floats when they have the same 64-bit pattern. *)
Definition compatible (t1 t2 : pyobj) : bool :=
  aligned (key_ordered t1) (key_ordered t2).


(** Compatibility of two call bundles [(args, kwargs)]. *)
Definition compatible_calls (args1 : list pyobj)
    (kwargs1 : list (string * pyobj)) (args2 : list pyobj)
    (kwargs2 : list (string * pyobj)) : bool :=
  compatible (TTuple args1) (TTuple args2)
  && compatible (TDict kwargs1) (TDict kwargs2).



Section Signature.

(** [__hash__] of a Python [str]; it differs from process to process. *)
Variable py_hash : string -> Z.

(** "Flatten the tree with hashed constants and structure". *)
Fixpoint recurse (obj : pyobj) (st : flat_call) : result flat_call :=
  match obj with
  | TList l => list_fold recurse l (push_constant st list_identifier)
  | TTuple l => list_fold recurse l (push_constant st list_identifier)
  | TDict d =>
      list_fold
        (fun item s =>
           r ← cast_int64 (py_hash item.1);
           recurse item.2 (push_constant s (to_uint64 r)))
        d (push_constant st dict_identifier)
  | TArr a =>
      Ok (mk_flat_call (inputs st ++ [a]) (constants st ++ [array_identifier]))
  | TConst (CStr s) =>
      r ← cast_int64 (py_hash s); Ok (push_constant st (to_uint64 r))
  | TConst (CInt z) =>
      r ← cast_int64 z; Ok (push_constant st (to_uint64 r))
  | TConst (CFloat bits) => Ok (push_constant st (to_uint64 bits))
  | TConst CNone => Raise compile_unsupported_argument
  end.



(** The two passes of [call_impl]: positional arguments, then keyword
    arguments; [num_args] is the number of inputs after the first. *)
Definition flatten_call (args : list pyobj) (kwargs : list (string * pyobj)) :
    result (flat_call * nat) :=
  st ← recurse (TTuple args) (mk_flat_call [] []);
  let num_args := length (inputs st) in
  st ← recurse (TDict kwargs) st;
  Ok (st, num_args).

(** The compilation signature of a call. *)
Definition signature (args : list pyobj) (kwargs : list (string * pyobj)) :
    result (list Z) :=
  (fun r => constants r.1) <$> flatten_call args kwargs.

(** *** The two process-wide registries *)

(** A trace of the primitive layer: the placeholder inputs it was recorded
    with and the outputs the callback produced for them. *)
Record trace : Type := mk_trace {
  trace_inputs : list array;
  trace_outputs : list array
}.

(** The key of a cached trace: identity of the callable, the shapeless
    flag, the signature, and what the primitive layer reads off the inputs
    (their shapes, or only their ranks when shapeless). *)
Definition trace_key : Type := Z * bool * list Z * list (list Z).

Definition input_key (shapeless : bool) (x : array) : list Z :=
  if shapeless then [Z.of_nat (ndim x)] else arr_shape x.

Record registries : Type := mk_registries {
  tree_cache : gmap Z structure;
  compile_cache : gmap trace_key trace
}.

(** [std::unordered_map::insert]: a key that is present keeps its value. *)
Definition cache_insert (k : Z) (v : structure) (m : gmap Z structure) :
    gmap Z structure :=
  match m !! k with
  | Some _ => m
  | None => <[k := v]> m
  end.

(** [std::unordered_map::at]. *)
Definition cache_at (k : Z) (m : gmap Z structure) : result structure :=
  match m !! k with
  | Some v => Ok v
  | None => Raise out_of_range
  end.

Record PyCompiledFun : Type := mk_compiled {
  fun_ : capturing_callable;
  fun_id : Z;
  captured_inputs : pyobj;
  captured_outputs : pyobj;
  shapeless : bool;
  num_outputs : nat
}.

(** What running code can change: the registries and the mutable parts of
    the wrapper. *)
Record world : Type := mk_world {
  regs : registries;
  cap_inputs : pyobj;
  cap_outputs : pyobj;
  n_outputs : nat
}.

Definition world_of (w : PyCompiledFun) (r : registries) : world :=
  mk_world r (captured_inputs w) (captured_outputs w) (num_outputs w).

Definition update (w : PyCompiledFun) (s : world) : PyCompiledFun :=
  mk_compiled (fun_ w) (fun_id w) (cap_inputs s) (cap_outputs s)
    (shapeless w) (n_outputs s).

(** Modelled from the spec: [tree_replace] of trees.cpp, "Replace tracers
    with originals in captured inputs": a tensor leaf that is one of [src]
    is replaced by the tensor of [dst] at the same position. *)
Fixpoint replacement (src dst : list array) (x : array) : array :=
  match src, dst with
  | s :: src', d :: dst' =>
      if arr_id x =? arr_id s then d else replacement src' dst' x
  | _, _ => x
  end.
Definition tree_replace (t : pyobj) (src dst : list array) : result pyobj :=
  fst <$> tree_visit_update t (fun x (_ : unit) => Ok (replacement src dst x, tt)) tt.

(** [a.end() - n, a.end()] *)
Definition last_n {X} (n : nat) (a : list X) : list X :=
  drop (length a - n) a.

(** The callback [compile_fun] of [call_impl]. *)
Definition compile_fun (w : PyCompiledFun) (args : list pyobj)
    (kwargs : list (string * pyobj)) (num_args : nat) (a : list array)
    (s : world) : result (list array * world) :=
  (* Put tracers into captured inputs *)
  '(flat_in_captures, trace_captures, cin) ←
    (if is_none (cap_inputs s) then Ok ([], [], cap_inputs s)
     else
       flat_in_captures ← tree_flatten (cap_inputs s) false;
       let trace_captures := last_n (length flat_in_captures) a in
       cin ← tree_fill (cap_inputs s) trace_captures;
       Ok (flat_in_captures, trace_captures, cin));
  targs ← tree_unflatten (TTuple args) a 0;
  tkwargs ← tree_unflatten (TDict kwargs) a num_args;
  '((cin, cout), tree_outputs) ←
    fun_ w (cin, cap_outputs s)
      (match targs with TTuple l => l | _ => [] end)
      (match tkwargs with TDict d => d | _ => [] end);
  '(outputs, py_outputs) ← tree_flatten_with_structure tree_outputs false;
  let cache := cache_insert (fun_id w) py_outputs (tree_cache (regs s)) in
  let n := length outputs in
  outputs ←
    (if is_none cout then Ok outputs
     else
       flat_out_captures ← tree_flatten cout false;
       Ok (outputs ++ flat_out_captures));
  (* Replace tracers with originals in captured inputs *)
  cin ←
    (if is_none cin then Ok cin
     else tree_replace cin trace_captures flat_in_captures);
  Ok (outputs,
      mk_world (mk_registries cache (compile_cache (regs s))) cin cout n).

(** Modelled from the spec: the primitive [compile(fn, id, shapeless,
    constants)] of section 6, which is outside python/src.  A trace is
    produced once per key by running the callback on placeholders, stored,
    and reused thereafter without running the callback.  What the trace
    computes on the actual inputs is left to the primitive layer. *)
Variable placeholders : list array -> list array.
Variable run_trace : trace -> list array -> list array.

Definition mx_compile (fn : list array -> world -> result (list array * world))
    (fun_id : Z) (shapeless : bool) (constants : list Z)
    (inputs : list array) (s : world) : result (list array * world) :=
  let key : trace_key :=
    (fun_id, shapeless, constants, map (input_key shapeless) inputs) in
  match compile_cache (regs s) !! key with
  | Some tr => Ok (run_trace tr inputs, s)
  | None =>
      let a := placeholders inputs in
      '(outs, s') ← fn a s;
      let tr := mk_trace a outs in
      Ok (run_trace tr inputs,
          mk_world
            (mk_registries (tree_cache (regs s'))
               (<[key := tr]> (compile_cache (regs s'))))
            (cap_inputs s') (cap_outputs s') (n_outputs s'))
  end.

(** [PyCompiledFun::call_impl]. *)
Definition call_impl (w : PyCompiledFun) (args : list pyobj)
    (kwargs : list (string * pyobj)) (r : registries) :
    result (pyobj * PyCompiledFun * registries) :=
  '(st, num_args) ← flatten_call args kwargs;
  inputs ←
    (if is_none (captured_inputs w) then Ok (inputs st)
     else
       flat_in_captures ← tree_flatten (captured_inputs w) false;
       Ok (inputs st ++ flat_in_captures));
  (* Compile and call *)
  '(outputs, s) ←
    mx_compile (compile_fun w args kwargs num_args) (fun_id w) (shapeless w)
      (constants st) inputs (world_of w r);
  cout ←
    (if is_none (cap_outputs s) then Ok (cap_outputs s)
     else tree_fill (cap_outputs s) (drop (n_outputs s) outputs));
  (* Put the outputs back in the container *)
  py_outputs ← cache_at (fun_id w) (tree_cache (regs s));
  out ← tree_unflatten_from_structure py_outputs outputs 0;
  Ok (out,
      update w (mk_world (regs s) (cap_inputs s) cout (n_outputs s)),
      regs s).

(** The destructor: the wrapper evicts its entries from both registries. *)
Definition destroy (w : PyCompiledFun) (r : registries) : registries :=
  mk_registries (delete (fun_id w) (tree_cache r))
    (filter (fun kv => kv.1.1.1.1 ≠ fun_id w) (compile_cache r)).

End Signature.


(** The leaves [recurse] takes: "Function arguments must be trees of arrays
    or constants (floats, ints, or strings)"; an [int] has to fit
    [int64_t]. *)
Definition supported_leaf (t : pyobj) : Prop :=
  match t with
  | TArr _ | TConst (CFloat _) | TConst (CStr _) => True
  | TConst (CInt z) => - 2 ^ 63 <= z < 2 ^ 63
  | _ => False
  end.

(** Two trees that differ in one numeric constant: an [int] with another
    value, or a [float] with another 64-bit pattern, at the same place. *)
Inductive constant_changed : pyobj -> pyobj -> Prop :=
| int_changed (z1 z2 : Z) :
    z1 <> z2 -> constant_changed (TConst (CInt z1)) (TConst (CInt z2))
| float_changed (b1 b2 : Z) :
    0 <= b1 < 2 ^ 64 -> 0 <= b2 < 2 ^ 64 -> b1 <> b2 ->
    constant_changed (TConst (CFloat b1)) (TConst (CFloat b2))
| changed_in_list (pre post : list pyobj) (t1 t2 : pyobj) :
    constant_changed t1 t2 ->
    constant_changed (TList (pre ++ t1 :: post)) (TList (pre ++ t2 :: post))
| changed_in_tuple (pre post : list pyobj) (t1 t2 : pyobj) :
    constant_changed t1 t2 ->
    constant_changed (TTuple (pre ++ t1 :: post)) (TTuple (pre ++ t2 :: post))
| changed_in_dict (pre post : list (string * pyobj)) (key : string)
    (t1 t2 : pyobj) :
    constant_changed t1 t2 ->
    constant_changed (TDict (pre ++ (key, t1) :: post))
      (TDict (pre ++ (key, t2) :: post)).

(** Every cached trace of a callable comes with a cached output structure
    of that callable. *)
Definition registries_consistent (r : registries) : Prop :=
  forall key tr, compile_cache r !! key = Some tr ->
  is_Some (tree_cache r !! key.1.1.1).

(** Neither registry holds an entry of the callable [id]. *)
Definition evicted (id : Z) (r : registries) : Prop :=
  tree_cache r !! id = None /\
  forall key, key.1.1.1 = id -> compile_cache r !! key = None.

(** The flat inputs [recurse] collects from [obj] are its tensors in
    flattening order. *)
Definition inputs_flattened (py_hash : string -> Z) (obj : pyobj) : Prop :=
  forall st st', recurse py_hash obj st = Ok st' ->
  exists leaves, tree_flatten obj false = Ok leaves
                 /\ inputs st' = inputs st ++ leaves.

(** What a step appends to [constants] does not depend on the state it
    starts from. *)
Definition appends {X} (g : X -> flat_call -> result flat_call) (x : X) :
    Prop :=
  exists r : result (list Z),
  forall st, constants <$> g x st = (fun toks => constants st ++ toks) <$> r.

Definition fold_appends {X} (g : X -> flat_call -> result flat_call)
    (l : list X) : Prop :=
  exists r : result (list Z),
  forall st, constants <$> list_fold g l st
             = (fun toks => constants st ++ toks) <$> r.

(** A step goes through exactly when all of [leaves] are supported, and
    fails with one of two exceptions. *)
Definition accepts {X} (g : X -> flat_call -> result flat_call)
    (leaves : list pyobj) (x : X) : Prop :=
  forall st,
    (is_ok (g x st) = true <-> Forall supported_leaf leaves) /\
    forall e, g x st = Raise e ->
      e = compile_unsupported_argument \/
      e = cast_error /\
      exists z, TConst (CInt z) ∈ leaves /\ ~ - 2 ^ 63 <= z < 2 ^ 63.

End Compile.

(** ** The custom-function driver ([PyCustomFunction]) *)

Module Custom.
Import Trees.

Record PyCustomFunction : Type := mk_custom {
  fun_ : callable;
  vjp_fun_ : option callable;
  jvp_fun_ : option callable;
  vmap_fun_ : option callable
}.

(** [std::optional::has_value]. *)
Definition has_value {X} (o : option X) : bool :=
  match o with Some _ => true | None => false end.

Definition set_vjp (w : PyCustomFunction) (f : callable) : PyCustomFunction :=
  mk_custom (fun_ w) (Some f) (jvp_fun_ w) (vmap_fun_ w).
Definition set_jvp (w : PyCustomFunction) (f : callable) : PyCustomFunction :=
  mk_custom (fun_ w) (vjp_fun_ w) (Some f) (vmap_fun_ w).
Definition set_vmap (w : PyCustomFunction) (f : callable) : PyCustomFunction :=
  mk_custom (fun_ w) (vjp_fun_ w) (jvp_fun_ w) (Some f).

(** What a call does besides computing its result. *)
Inductive event : Type :=
| flattened_inputs
| traced_custom_function
| recorded_output_structure (s : structure).

(** What a call returns: the outcome of a callable, and the steps the
    driver took around it. *)
Record outcome : Type := mk_outcome {
  returned : list pyobj * list (string * pyobj) * pyobj;
  events : list event
}.

(** [InnerFunction::operator()]: the forward pass on flat inputs.  It
    yields the flat outputs and the recorded output structure. *)
Definition InnerFunction (f : callable) (input_structure : structure)
    (inputs : list array) : result (list array * structure) :=
  new_inputs ← tree_unflatten_from_structure input_structure inputs 0;
  match new_inputs with
  | TTuple [TTuple args; TDict kwargs] =>
      '(_, _, out) ← f args kwargs;
      tree_flatten_with_structure out true
  | _ => Raise cast_error
  end.

Section Driver.

(** Modelled from the spec: the primitive [custom_function(forward, vjp?,
    jvp?, vmap?)] of section 6, which is outside python/src.  Called on
    flat inputs it runs [forward] on them; the tensors it returns stand for
    the forward outputs. *)
Variable custom_outputs : list array -> list array -> list array.

Definition mx_custom_function
    (forward : list array -> result (list array * structure))
    (inputs : list array) : result (list array * structure) :=
  '(outs, s) ← forward inputs;
  Ok (custom_outputs inputs outs, s).

(** [PyCustomFunction::call_impl]. *)
Definition call_impl (w : PyCustomFunction) (args : list pyobj)
    (kwargs : list (string * pyobj)) : result outcome :=
  if negb (has_value (vjp_fun_ w)) && negb (has_value (jvp_fun_ w))
     && negb (has_value (vmap_fun_ w))
  then
    r ← fun_ w args kwargs; Ok (mk_outcome r [])
  else
    (* Extract the inputs and their structure in capturable vars *)
    let full_args := TTuple [TTuple args; TDict kwargs] in
    '(input_arrays, input_structure) ←
      tree_flatten_with_structure full_args false;
    '(outputs, output_structure) ←
      mx_custom_function (InnerFunction (fun_ w) input_structure) input_arrays;
    out ← tree_unflatten_from_structure output_structure outputs 0;
    Ok (mk_outcome (args, kwargs, out)
          [flattened_inputs; traced_custom_function;
           recorded_output_structure output_structure]).

End Driver.

(** *** The override callables

    What [make_vjp_function], [make_jvp_function] and [make_vmap_function]
    hand to the primitive layer. *)

(** [nb::cast<nb::tuple>(tree_unflatten_from_structure(input_structure_,
    inputs))] and its two items, the positional and the keyword
    arguments. *)
Definition unpack_inputs (input_structure : structure) (inputs : list array) :
    result (list pyobj * list (string * pyobj)) :=
  new_inputs ← tree_unflatten_from_structure input_structure inputs 0;
  match new_inputs with
  | TTuple [TTuple args; TDict kwargs] => Ok (args, kwargs)
  | _ => Raise cast_error
  end.

(** [args.size() == 1 ? args[0] : args]: a single positional argument is
    passed bare, several as the tuple. *)
Definition bare_or_tuple (args : list pyobj) : pyobj :=
  match args with
  | [arg] => arg
  | _ => TTuple args
  end.

(** [nb::cast<nb::tuple>] of what [tree_map] made of the tuple [args]. *)
Definition tuple_items (t : pyobj) : result (list pyobj) :=
  match t with
  | TTuple l => Ok l
  | _ => Raise cast_error
  end.

(** [InnerVJPFunction::operator()]. *)
Definition InnerVJPFunction (vjp_fun : callable)
    (input_structure output_structure : structure)
    (primals cotangents outputs : list array) : result (list array) :=
  '(args, kwargs) ← unpack_inputs input_structure primals;
  new_cotangents ← tree_unflatten_from_structure output_structure cotangents 0;
  new_outputs ← tree_unflatten_from_structure output_structure outputs 0;
  '(_, _, out) ←
    vjp_fun [bare_or_tuple args; new_cotangents; new_outputs] kwargs;
  tree_flatten out false.

(** [std::vector<bool> have_tangents(primals.size(), false);
    for (auto arg : argnums) have_tangents[arg] = true;] *)
Definition have_tangents (size : nat) (argnums : list Z) :
    result (list bool) :=
  foldl (fun acc arg =>
           have ← acc;
           if bool_decide (0 <= arg < Z.of_nat (length have))
           then Ok (<[Z.to_nat arg := true]> have)
           else Raise undefined_behaviour)
        (Ok (replicate size false)) argnums.

(** The lambda mapped over [args] by the jvp override, with its counters
    [array_index] and [tangent_index]: a tensor that has a tangent is
    replaced by the next tangent, every other leaf by [None]. *)
Definition tangent_or_none (have : list bool) (tangents : list array)
    (element : pyobj) (s : nat * nat) : result (pyobj * (nat * nat)) :=
  let '(array_index, tangent_index) := s in
  if is_array element then
    match have !! array_index with
    | Some true =>
        match tangents !! tangent_index with
        | Some tangent => Ok (TArr tangent, (S array_index, S tangent_index))
        | None => Raise undefined_behaviour
        end
    | Some false => Ok (py_none, (S array_index, tangent_index))
    | None => Raise undefined_behaviour
    end
  else Ok (py_none, s).

(** "Make a new pytree which has tangents or None when a tangent is not
    available." *)
Definition new_tangents (args : list pyobj) (have : list bool)
    (tangents : list array) : result (list pyobj) :=
  '(t, _) ← tree_map_leaves (tangent_or_none have tangents) (TTuple args)
              (0%nat, 0%nat);
  tuple_items t.

(** [InnerJVPFunction::operator()]. *)
Definition InnerJVPFunction (jvp_fun : callable) (input_structure : structure)
    (primals tangents : list array) (argnums : list Z) :
    result (list array) :=
  '(args, kwargs) ← unpack_inputs input_structure primals;
  if bool_decide (0 < length kwargs)%nat then Raise custom_only_positional
  else
    have ← have_tangents (length primals) argnums;
    tangent_trees ← new_tangents args have tangents;
    '(_, _, out) ←
      jvp_fun [bare_or_tuple args; bare_or_tuple tangent_trees] [];
    tree_flatten out false.

(** The lambda mapped over [args] by the vmap override, with its counter
    [arr_index]: [int axis = axes[arr_index++]] is read for every leaf, and
    a tensor with a non-negative axis is replaced by that axis, every other
    leaf by [None]. *)
Definition axis_or_none (axes : list Z) (element : pyobj) (arr_index : nat) :
    result (pyobj * nat) :=
  match axes !! arr_index with
  | Some axis =>
      Ok (if is_array element && (0 <=? axis)
          then TConst (CInt axis) else py_none,
          S arr_index)
  | None => Raise undefined_behaviour
  end.

Definition new_axes (args : list pyobj) (axes : list Z) :
    result (list pyobj) :=
  '(t, _) ← tree_map_leaves (axis_or_none axes) (TTuple args) 0%nat;
  tuple_items t.

(** [objects[1].is_none() ? -1 : nb::cast<int>(objects[1])] *)
Definition output_axis (o : pyobj) : result Z :=
  match o with
  | TConst CNone => Ok (-1)
  | TConst (CInt z) => Vmap.cast_int z
  | _ => Raise cast_error
  end.

(** The visitor that collects the outputs of the vmap override and their
    axes; a leaf that is not a tensor is passed over. *)
Definition output_visitor (objects : list pyobj)
    (st : list array * list Z) : result (list array * list Z) :=
  match objects with
  | [TArr x; o] => axis ← output_axis o; Ok (st.1 ++ [x], st.2 ++ [axis])
  | [_; _] => Ok st
  | _ => Raise undefined_behaviour
  end.

(** [InnerVmapFunction::operator()]. *)
Definition InnerVmapFunction (vmap_fun : callable)
    (input_structure : structure) (inputs : list array) (axes : list Z) :
    result (list array * list Z) :=
  '(args, kwargs) ← unpack_inputs input_structure inputs;
  if bool_decide (0 < length kwargs)%nat then Raise custom_only_positional
  else
    axis_trees ← new_axes args axes;
    '(_, _, result) ←
      vmap_fun [bare_or_tuple args; bare_or_tuple axis_trees] [];
    match result with
    | TTuple [result0; result1] =>
        Vmap.tree_visit output_visitor result0 result1 ([], [])
    | _ => Raise custom_vmap_not_pair
    end.

(** The number of tensors that have a tangent. *)
Definition marked (have : list bool) : nat := length (filter (eq true) have).

(** Mapping [tangent_or_none] over [t], with the counters at [ai] and
    [ti], hands out the next tangents in order, one for each tensor of [t]
    that has one. *)
Definition tangents_mapped (have : list bool) (tangents : list array)
    (t : pyobj) : Prop :=
  forall ai ti : nat,
  (ai + num_arrays t <= length have)%nat ->
  (ti + marked (take (num_arrays t) (drop ai have)) <= length tangents)%nat ->
  exists t',
    tree_map_leaves (tangent_or_none have tangents) t (ai, ti)
    = Ok (t', ((ai + num_arrays t)%nat,
               (ti + marked (take (num_arrays t) (drop ai have)))%nat)) /\
    tree_flatten t' false
    = Ok (take (marked (take (num_arrays t) (drop ai have)))
            (drop ti tangents)).





End Custom.

(** ** The checkpoint driver ([PyCheckpointedFun]) *)

Module Checkpoint.
Import Trees.

(** [InnerFunction::operator()]: the call rebuilt from flat inputs.  It
    yields the flat outputs and the output structure it records in the
    slot shared with [call_impl], which is alive for as long as [call_impl]
    runs. *)
Definition InnerFunction (f : callable) (args_structure : structure)
    (inputs : list array) : result (list array * structure) :=
  args ← tree_unflatten_from_structure args_structure inputs 0;
  match args with
  | TTuple [TTuple args0; TDict args1] =>
      '(_, _, out) ← f args0 args1;
      tree_flatten_with_structure out false
  | _ => Raise cast_error
  end.

Section Driver.

(** Modelled from the spec: the primitive [checkpoint(fn)] of section 6,
    which is outside python/src.  Called on flat inputs it runs [fn] on
    them; the tensors it returns stand for the outputs of [fn]. *)
Variable checkpoint_outputs : list array -> list array -> list array.

Definition mx_checkpoint
    (fn : list array -> result (list array * structure))
    (inputs : list array) : result (list array * structure) :=
  '(outs, s) ← fn inputs;
  Ok (checkpoint_outputs inputs outs, s).

(** [PyCheckpointedFun::call_impl]. *)
Definition call_impl (fun_ : callable) (args : list pyobj)
    (kwargs : list (string * pyobj)) : result pyobj :=
  let full_args := TTuple [TTuple args; TDict kwargs] in
  '(inputs, args_structure) ← tree_flatten_with_structure full_args false;
  '(outputs, output_structure) ←
    mx_checkpoint (InnerFunction fun_ args_structure) inputs;
  tree_unflatten_from_structure output_structure outputs 0.

End Driver.

End Checkpoint.

(** ** Sample inputs

    Concrete arrays, callables and a stand-in for the primitive layer, for
    the worked examples of part II. *)

Module Samples.
Import Trees.

(** Sample values for the examples below. *)
Definition sample_x : array := mk_array 1 [2; 3].
Definition sample_y : array := mk_array 2 [2; 3].
Definition sample_z : array := mk_array 3 [4].
Definition sample_hash : string -> Z := fun s => Z.of_nat (String.length s).

Definition scalar_a : array := mk_array 11 [].
Definition scalar_b : array := mk_array 12 [].

(** A rank-2 tensor: the input axis [-1] resolves to [1], the input axis
    [2] is rejected, and the output axis [2] is accepted. *)
Definition matrix : array := mk_array 21 [3; 4].

(** A callable that returns its first positional argument. *)
Definition first_argument : callable := fun args kwargs =>
  match args with
  | arg :: _ => Ok (args, kwargs, arg)
  | [] => Raise (python_error 0)
  end.

(** A wrapped callable that returns a pair of its first argument and a
    constant. *)
Definition pairs_up : callable := fun args kwargs =>
  match args with
  | arg :: _ => Ok (args, kwargs, TTuple [arg; TConst (CStr "aux")])
  | [] => Raise (python_error 0)
  end.

(** [def f(l): l[0] = b; return l[1]]: the callable writes a tensor of its
    own into the first slot of the list it is passed. *)
Definition overwrites_first : callable := fun args kwargs =>
  match args with
  | [TList (_ :: second :: rest)] =>
      Ok ([TList (TArr scalar_b :: second :: rest)], kwargs, second)
  | _ => Raise (python_error 0)
  end.

(** A primitive layer to run examples on: the tracer of an input is a
    fresh array of the same shape, and the gradients are fresh scalars. *)
Definition sample_tracers (l : list array) : list array :=
  map (fun x => mk_array (arr_id x + 100) (arr_shape x)) l.

Definition sample_gradients (ins outs : list array) (idx : list nat) :
    list array :=
  map (fun i => mk_array (Z.of_nat i + 1000) []) idx.

Section GradSamples.
Import Grad.

Definition overwritten_call : result call_result :=
  w ← py_value_and_grad overwrites_first [0] ∅ "[value_and_grad]" false;
  call sample_tracers sample_gradients w
    [TList [TArr scalar_a; TArr (mk_array 13 [])]] [].

(** [value_and_grad(f, argnums=[1, 0], argnames="k")(a, [b, c], k=d)] for
    [f] returning its first argument. *)
Definition sample_args : list pyobj :=
  [TArr scalar_a; TList [TArr scalar_b; TArr (mk_array 13 [])]].

Definition sample_kwargs : list (string * pyobj) :=
  [("k"%string, TArr (mk_array 14 []))].

Definition sample_wrapper : grad_fun :=
  mk_grad_fun first_argument [0; 1] {["k"%string]} "[value_and_grad]" false.

Definition sample_call : result call_result :=
  call sample_tracers sample_gradients sample_wrapper sample_args sample_kwargs.

Definition sample_call_result : call_result :=
  Eval vm_compute in
    match sample_call with
    | Ok r => r
    | Raise _ => mk_call_result [] [] py_none py_none
    end.

(** [grad(f, argnames="k")(a, k=b)] for [f] returning its first argument. *)
Definition keyword_wrapper : grad_fun :=
  mk_grad_fun first_argument [] {["k"%string]} "[grad]" true.

Definition keyword_call_result : call_result :=
  Eval vm_compute in
    match call sample_tracers sample_gradients keyword_wrapper
            [TArr scalar_a] [("k"%string, TArr scalar_b)] with
    | Ok r => r
    | Raise _ => mk_call_result [] [] py_none py_none
    end.

End GradSamples.

Section CompileSamples.
Import Compile.

(** A callable whose return structure depends on a constant argument:
    [f(x, 0)] returns [x], [f(x, flag)] returns [[x, x]] otherwise. *)
Definition branching : capturing_callable := fun caps args kwargs =>
  match args with
  | [TArr x; TConst (CInt 0)] => Ok (caps, TArr x)
  | [TArr x; TConst (CInt _)] => Ok (caps, TList [TArr x; TArr x])
  | _ => Raise (python_error 0)
  end.

(** A primitive layer to run the example on: placeholders are fresh arrays
    of the same shape, and a trace maps each placeholder among its outputs
    to the actual input at that position. *)
Definition sample_placeholders (l : list array) : list array :=
  map (fun x => mk_array (arr_id x + 1000) (arr_shape x)) l.

Definition sample_run_trace (tr : trace) (actual : list array) : list array :=
  map (replacement (trace_inputs tr) actual) (trace_outputs tr).

Definition sample_compiled : PyCompiledFun :=
  mk_compiled branching 7 py_none py_none false 0.

(** Two calls in a row on the same wrapper, [f(x, 0)] and then [f(x, 1)];
    reported are both results, the structure cached for the callable at the
    end, the number of cached traces, and [num_outputs]. *)
Definition two_calls :
    result (pyobj * pyobj * option structure * nat * nat) :=
  '(out1, w1, r1) ←
    call_impl sample_hash sample_placeholders sample_run_trace sample_compiled
      [TArr sample_x; TConst (CInt 0)] [] (mk_registries ∅ ∅);
  '(out2, w2, r2) ←
    call_impl sample_hash sample_placeholders sample_run_trace w1
      [TArr sample_x; TConst (CInt 1)] [] r1;
  Ok (out1, out2, tree_cache r2 !! 7, size (compile_cache r2), num_outputs w2).

(** The first of the two calls, on empty registries: its result, the
    wrapper and the registries after it. *)
Definition first_call : result (pyobj * PyCompiledFun * registries) :=
  call_impl sample_hash sample_placeholders sample_run_trace sample_compiled
    [TArr sample_x; TConst (CInt 0)] [] (mk_registries ∅ ∅).

Definition first_call_result : pyobj * PyCompiledFun * registries :=
  match first_call with
  | Ok r => r
  | Raise _ => (py_none, sample_compiled, mk_registries ∅ ∅)
  end.

(** The flattened call [f(x, [y], k=z)]. *)
Definition sample_flat_call : flat_call :=
  mk_flat_call [sample_x; sample_y; sample_z]
    [list_identifier; array_identifier; list_identifier; array_identifier;
     dict_identifier; 1; array_identifier].

End CompileSamples.

Section CollectSamples.
Import Grad.

(** What "Collect the arrays" makes of the sample call. *)
Definition sample_collected : collected :=
  mk_collected [scalar_a; scalar_b; mk_array 13 []; mk_array 14 []]
    [0; 1; 3; 4]%nat [0; 1; 2; 3]%nat.

End CollectSamples.

Section CustomSamples.
Import Custom.

(** A wrapper with a vjp override, and what the call [f(x)] of it yields
    when the primitive passes the forward outputs through. *)
Definition overridden : PyCustomFunction :=
  set_vjp (mk_custom first_argument None None None) pairs_up.

Definition overridden_outcome : outcome :=
  mk_outcome ([TArr (mk_array 31 [2])], [], TArr (mk_array 31 [2]))
    [flattened_inputs; traced_custom_function;
     recorded_output_structure (TArr tt)].

End CustomSamples.

(** A [__hash__] that fits [int64_t]. *)
Definition small_hash : string -> Z := fun _ => 7.

(** A primitive layer for [vmap]: the tracers are fresh arrays, and the
    batched outputs are the traced outputs. *)
Definition sample_vmap_tracers (inputs : list array) (_ : list Z) :
    list array :=
  sample_tracers inputs.

Definition sample_vmap_replace (_ _ trace_outputs : list array)
    (_ _ : list Z) : list array :=
  trace_outputs.


(** A vmap override that forgets the axes. *)
Definition forgets_axis : callable := fun args kwargs =>
  match args with
  | x :: _ => Ok (args, kwargs, x)
  | [] => Raise (python_error 0)
  end.

End Samples.

(* ===================================================================== *)
(** * Part II: properties *)
(* ===================================================================== *)

(** ** The error monad *)

Lemma bind_Ok {A B} (m : result A) (f : A -> result B) (b : B) :
  m ≫= f = Ok b <-> exists a, m = Ok a /\ f a = Ok b.
Proof.
  destruct m as [a|e]; simpl; split.
  - intros H. exists a. auto.
  - intros (a' & [= ->] & H). exact H.
  - discriminate.
  - intros (a' & [=] & _).
Qed.

Lemma fmap_Ok {A B} (m : result A) (f : A -> B) (b : B) :
  f <$> m = Ok b <-> exists a, m = Ok a /\ b = f a.
Proof.
  destruct m as [a|e]; simpl; split.
  - intros [= <-]. eauto.
  - intros (a' & [= ->] & ->). reflexivity.
  - discriminate.
  - intros (a' & [=] & _).
Qed.

(** ** Induction on trees *)

Lemma tree_ind {A} (P : tree A -> Prop) :
  (forall a, P (TArr a)) ->
  (forall c, P (TConst c)) ->
  (forall l, Forall P l -> P (TList l)) ->
  (forall l, Forall P l -> P (TTuple l)) ->
  (forall d, Forall (fun kv => P kv.2) d -> P (TDict d)) ->
  forall t, P t.
Proof.
  intros Harr Hconst Hlist Htuple Hdict.
  fix IH 1. intros [a|c|l|l|d].
  - apply Harr.
  - apply Hconst.
  - apply Hlist. revert l. fix IHl 1. intros [|x l]; constructor.
    + apply IH.
    + apply IHl.
  - apply Htuple. revert l. fix IHl 1. intros [|x l]; constructor.
    + apply IH.
    + apply IHl.
  - apply Hdict. revert d. fix IHd 1. intros [|[k v] d]; constructor.
    + apply IH.
    + apply IHd.
Qed.

(** ** Flattening and unflattening *)

Module TreesFacts.
Import Trees.

Lemma next_value_middle {A} (a : A) (x : array) (pre post : list array) :
  next_value (pre ++ [x] ++ post) a (length pre)
  = Ok (x, (length pre + 1)%nat).
Proof.
  unfold next_value.
  rewrite lookup_app_r by lia.
  replace (length pre - length pre)%nat with 0%nat by lia. simpl.
  f_equal. f_equal. lia.
Qed.

Lemma list_reads_back strict (l : list pyobj) :
  Forall (reads_back strict) l ->
  forall vals, list_collect (fun x => tree_flatten x strict) l = Ok vals ->
  forall pre post,
    list_traverse (tree_traverse (next_value (pre ++ vals ++ post)))
      (map tree_structure l) (length pre)
    = Ok (l, (length pre + length vals)%nat).
Proof.
  induction 1 as [|x l Hx _ IH]; intros vals Hvals pre post; simpl in *.
  - injection Hvals as <-. simpl. do 2 f_equal. lia.
  - apply bind_Ok in Hvals as (xs & Hxs & Hvals).
    apply bind_Ok in Hvals as (rs & Hrs & [= <-]).
    specialize (Hx _ Hxs pre (rs ++ post)).
    unfold tree_unflatten_from in Hx.
    rewrite <- (assoc_L (++)). rewrite Hx. simpl.
    specialize (IH _ Hrs (pre ++ xs) post).
    rewrite length_app in IH. rewrite <- (assoc_L (++)) in IH.
    rewrite IH. simpl. rewrite length_app. do 2 f_equal. lia.
Qed.

Lemma dict_reads_back strict (d : list (string * pyobj)) :
  Forall (fun kv => reads_back strict kv.2) d ->
  forall vals, list_collect (fun kv => tree_flatten kv.2 strict) d = Ok vals ->
  forall pre post,
    list_traverse
      (fun (kv : string * structure) s0 =>
         '(v, s1) ← tree_traverse (next_value (pre ++ vals ++ post)) kv.2 s0;
         Ok ((kv.1, v), s1))
      (map (fun kv => (kv.1, tree_structure kv.2)) d) (length pre)
    = Ok (d, (length pre + length vals)%nat).
Proof.
  induction 1 as [|[k x] d Hx _ IH]; intros vals Hvals pre post; simpl in *.
  - injection Hvals as <-. simpl. do 2 f_equal. lia.
  - apply bind_Ok in Hvals as (xs & Hxs & Hvals).
    apply bind_Ok in Hvals as (rs & Hrs & [= <-]).
    specialize (Hx _ Hxs pre (rs ++ post)).
    unfold tree_unflatten_from in Hx.
    rewrite <- (assoc_L (++)). rewrite Hx. simpl.
    specialize (IH _ Hrs (pre ++ xs) post).
    rewrite length_app in IH. rewrite <- (assoc_L (++)) in IH.
    rewrite IH. simpl. rewrite length_app. do 2 f_equal. lia.
Qed.

Lemma tree_reads_back strict (t : pyobj) : reads_back strict t.
Proof.
  induction t as [a|c|l IH|l IH|d IH] using tree_ind;
    intros vals Hvals pre post; unfold tree_unflatten_from; simpl in *.
  - injection Hvals as <-. rewrite next_value_middle. reflexivity.
  - destruct strict; [discriminate|]. injection Hvals as <-.
    simpl. do 2 f_equal. lia.
  - rewrite (list_reads_back strict l IH vals Hvals). reflexivity.
  - rewrite (list_reads_back strict l IH vals Hvals). reflexivity.
  - rewrite (dict_reads_back strict d IH vals Hvals). reflexivity.
Qed.

(** Without [strict], flattening never fails. *)
Lemma tree_flatten_total (t : pyobj) :
  exists vals, tree_flatten t false = Ok vals.
Proof.
  induction t as [a|c|l IH|l IH|d IH] using tree_ind; simpl; eauto.
  - induction IH as [|x l [xs Hx] _ [rs Hr]]; simpl; eauto.
    rewrite Hx, Hr. simpl. eauto.
  - induction IH as [|x l [xs Hx] _ [rs Hr]]; simpl; eauto.
    rewrite Hx, Hr. simpl. eauto.
  - induction IH as [|x l [xs Hx] _ [rs Hr]]; simpl; eauto.
    rewrite Hx, Hr. simpl. eauto.
Qed.

(** Whenever flattening with structure succeeds, unflattening its result
    gives back the tree. *)
Lemma unflatten_flatten_with_structure (t : pyobj) strict vals s :
  tree_flatten_with_structure t strict = Ok (vals, s) ->
  tree_unflatten_from_structure s vals 0 = Ok t.
Proof.
  unfold tree_flatten_with_structure. intros H.
  apply bind_Ok in H as (vals' & Hvals & [= <- <-]).
  pose proof (tree_reads_back strict t vals' Hvals [] []) as Hrb.
  simpl in Hrb. rewrite app_nil_r in Hrb.
  unfold tree_unflatten_from_structure. rewrite Hrb. reflexivity.
Qed.

(** C1: for every tree [t] of lists, tuples, dicts, arrays and constants,
    [tree_flatten_with_structure] (not strict, so that constants are
    allowed) succeeds with a tensor list and a structure descriptor, and
    [tree_unflatten_from_structure] applied to that pair returns [t]
    itself: the same containers, keys and constants, and at every tensor
    leaf the very same array. *)
Theorem unflatten_flatten_roundtrip (t : pyobj) :
  exists vals s,
    tree_flatten_with_structure t false = Ok (vals, s) /\
    tree_unflatten_from_structure s vals 0 = Ok t.
Proof.
  destruct (tree_flatten_total t) as [vals Hvals].
  exists vals, (tree_structure t).
  assert (tree_flatten_with_structure t false = Ok (vals, tree_structure t))
    as Hfs by (unfold tree_flatten_with_structure; rewrite Hvals; reflexivity).
  split; [exact Hfs|].
  exact (unflatten_flatten_with_structure t false vals _ Hfs).
Qed.

End TreesFacts.

(** ** The compilation signature *)

Module SignatureFacts.
Import Trees Compile Samples.

Section WithHash.
Variable py_hash : string -> Z.






End WithHash.


(** *** Compatible calls in the same key order *)












(** The same keyword arguments passed in another order: the two calls are
    compatible, they have the same mapping keys, and their signatures
    differ, for [recurse] pushes the hashes of the keys in the order the
    dict iterates.  This holds for every hash that tells the two names
    apart. *)
Lemma keyword_order_changes_signature :
  compatible_calls [] [("a"%string, TArr sample_x); ("bb"%string, TArr sample_y)]
    [] [("bb"%string, TArr sample_y); ("a"%string, TArr sample_x)] = true /\
  signature sample_hash []
    [("a"%string, TArr sample_x); ("bb"%string, TArr sample_y)]
  = Ok [list_identifier; dict_identifier; 1; array_identifier;
        2; array_identifier] /\
  signature sample_hash []
    [("bb"%string, TArr sample_y); ("a"%string, TArr sample_x)]
  = Ok [list_identifier; dict_identifier; 2; array_identifier;
        1; array_identifier] /\
  forall py_hash : string -> Z,
    - 2 ^ 63 <= py_hash "a"%string < 2 ^ 63 ->
    - 2 ^ 63 <= py_hash "bb"%string < 2 ^ 63 ->
    py_hash "a"%string <> py_hash "bb"%string ->
    signature py_hash []
      [("a"%string, TArr sample_x); ("bb"%string, TArr sample_y)]
    <> signature py_hash []
         [("bb"%string, TArr sample_y); ("a"%string, TArr sample_x)].
Proof.
  split; [vm_compute; reflexivity|]. split; [reflexivity|].
  split; [reflexivity|].
  intros py_hash Ha Hb Hne. unfold signature, flatten_call. simpl.
  unfold cast_int64.
  rewrite !bool_decide_eq_true_2 by assumption. simpl.
  intros [= H _]. apply Hne.
  unfold to_uint64 in H.
  assert ((py_hash "a"%string - py_hash "bb"%string) mod 2 ^ 64 = 0) as Hmod.
  { rewrite Zminus_mod, H, Z.sub_diag. reflexivity. }
  apply Z.mod_divide in Hmod; [|lia]. destruct Hmod as [q Hq]. lia.
Qed.

End SignatureFacts.

(** ** The structure cache of compiled functions *)

Module CompileFacts.
Import Trees Compile Samples SignatureFacts.

(** [insert] on the structure cache records a structure only for a key
    that has none yet. *)
Lemma cache_insert_present (k : Z) (v v0 : structure) (m : gmap Z structure) :
  m !! k = Some v0 -> cache_insert k v m = m.
Proof. unfold cache_insert. intros ->. reflexivity. Qed.

Lemma cache_insert_absent (k : Z) (v : structure) (m : gmap Z structure) :
  m !! k = None -> cache_at k (cache_insert k v m) = Ok v.
Proof.
  unfold cache_insert, cache_at. intros ->.
  rewrite lookup_insert_eq. reflexivity.
Qed.

(** Once a structure is cached for a callable, a later run of the compile
    callback leaves it there, whatever the callable returns this time. *)
Lemma compile_fun_keeps_cached_structure (w : PyCompiledFun)
    (args : list pyobj) (kwargs : list (string * pyobj)) (num_args : nat)
    (a outs : list array) (s s' : world) (v0 : structure) :
  tree_cache (regs s) !! fun_id w = Some v0 ->
  compile_fun w args kwargs num_args a s = Ok (outs, s') ->
  tree_cache (regs s') !! fun_id w = Some v0.
Proof.
  intros Hcached H. unfold compile_fun in H.
  apply bind_Ok in H as ([[fic tc] cin] & _ & H).
  apply bind_Ok in H as (targs & _ & H).
  apply bind_Ok in H as (tkwargs & _ & H).
  apply bind_Ok in H as ([[cin' cout] tree_outputs] & _ & H).
  apply bind_Ok in H as ([outputs py_outputs] & _ & H).
  apply bind_Ok in H as (outputs' & _ & H).
  apply bind_Ok in H as (cin'' & _ & H).
  injection H as _ <-. simpl.
  rewrite (cache_insert_present _ _ _ _ Hcached). exact Hcached.
Qed.

(** C2 fails on the code.  The second call has a new signature, so the
    compile callback runs again (there are two traces afterwards) and the
    callable returns a list of two tensors ([num_outputs] is 2); yet the
    structure cache still holds the structure of the first call, a single
    tensor, and the driver rebuilds the second result with it: the call
    returns the bare tensor [x] where the callable returned [[x, x]]. *)
Theorem second_trace_reuses_first_structure :
  two_calls
  = Ok (TArr sample_x, TArr sample_x, Some (TArr tt), 2%nat, 2%nat)
  /\ branching (py_none, py_none) [TArr sample_x; TConst (CInt 1)] []
     = Ok ((py_none, py_none), TList [TArr sample_x; TArr sample_x]).
Proof. split; vm_compute; reflexivity. Qed.

End CompileFacts.

(** ** Selecting the arguments to differentiate *)

Module GradFacts.
Import Trees Grad Samples.

Lemma raises_Raise {A} (e : exn) (c : error_class) :
  class_of e = c -> raises (@Raise A e) c.
Proof. intros H. exists e. auto. Qed.

Lemma raises_bind {A B} (m : result A) (f : A -> result B) c :
  raises m c -> raises (m ≫= f) c.
Proof. intros (e & -> & H). exists e. auto. Qed.

Lemma not_raises_Ok {A} (a : A) c : ~ raises (Ok a) c.
Proof. intros (e & H & _). discriminate. Qed.

(** *** Sorting *)

Lemma merge_sort_strongly_sorted (l : list Z) :
  StronglySorted Z.le (merge_sort Z.le l).
Proof.
  apply Sorted_StronglySorted.
  - intros x y z. apply Z.le_trans.
  - apply Sorted_merge_sort. apply _.
Qed.

Lemma merge_sort_sorted_id (s : list Z) :
  StronglySorted Z.le s -> merge_sort Z.le s = s.
Proof.
  intros Hs. apply (StronglySorted_unique_strong Z.le).
  - intros x1 x2 _ _ H1 H2. lia.
  - apply merge_sort_strongly_sorted.
  - exact Hs.
  - apply merge_sort_Permutation.
Qed.

Lemma sorted_head_negative (a0 : Z) (r : list Z) :
  StronglySorted Z.le (a0 :: r) ->
  a0 < 0 <-> exists i, i ∈ a0 :: r /\ i < 0.
Proof.
  intros Hs. apply StronglySorted_inv in Hs as [_ Hall]. split.
  - intros H. exists a0. split; [left | exact H].
  - intros (i & Hi & Hneg). apply elem_of_cons in Hi as [-> | Hi]; [exact Hneg|].
    rewrite Forall_forall in Hall. specialize (Hall i Hi). lia.
Qed.

Lemma adjacent_equal_false (s : list Z) :
  StronglySorted Z.le s -> adjacent_equal s = false -> StronglySorted Z.lt s.
Proof.
  induction 1 as [|x r Hr IH Hall]; intros Hadj; [constructor|].
  destruct r as [|y r'].
  - constructor; constructor.
  - simpl in Hadj. apply orb_false_elim in Hadj as [Hxy Hrest].
    apply Z.eqb_neq in Hxy.
    specialize (IH Hrest). constructor; [exact IH|].
    pose proof (Forall_inv Hall) as Hle. simpl in Hle.
    apply StronglySorted_inv in IH as [_ Hlt].
    constructor; [lia|].
    eapply Forall_impl; [exact Hlt|]. simpl. intros z Hz. lia.
Qed.

Lemma adjacent_equal_true (s : list Z) :
  adjacent_equal s = true -> ~ NoDup s.
Proof.
  induction s as [|x r IH]; [discriminate|]. intros Hadj Hnd.
  destruct r as [|y r']; [discriminate|]. simpl in Hadj.
  apply NoDup_cons in Hnd as [Hx Hr].
  apply orb_prop in Hadj as [Hxy | Hrest].
  - apply Z.eqb_eq in Hxy as ->. apply Hx. left.
  - exact (IH Hrest Hr).
Qed.

Lemma strictly_sorted_NoDup (s : list Z) : StronglySorted Z.lt s -> NoDup s.
Proof.
  induction 1 as [|x r Hr IH Hall]; [constructor|].
  apply NoDup_cons. split; [|exact IH].
  intros Hx. rewrite Forall_forall in Hall. specialize (Hall x Hx). lia.
Qed.

(** *** The sanitizing loop *)

Lemma sanitize_round_accepts (nums : list Z) :
  ~ negative_index nums -> ~ duplicate_index nums ->
  sanitize_round nums = Ok (merge_sort Z.le nums)
  /\ canonical nums (merge_sort Z.le nums).
Proof.
  intros Hneg Hdup. unfold sanitize_round, canonical.
  pose proof (merge_sort_strongly_sorted nums) as Hs.
  pose proof (merge_sort_Permutation Z.le nums) as Hp.
  assert (Forall (Z.le 0) (merge_sort Z.le nums)) as Hnn.
  { rewrite Forall_forall. intros i Hi. rewrite Hp in Hi.
    destruct (decide (0 <= i)) as [|Hlt]; [assumption|].
    exfalso. apply Hneg. exists i. split; [exact Hi | lia]. }
  assert (adjacent_equal (merge_sort Z.le nums) = false) as Hadj.
  { destruct (adjacent_equal _) eqn:E; [|reflexivity].
    exfalso. apply adjacent_equal_true in E. apply Hdup.
    unfold duplicate_index. intros Hnd. apply E. rewrite Hp. exact Hnd. }
  destruct (merge_sort Z.le nums) as [|a0 r] eqn:E.
  - repeat split; constructor.
  - pose proof (Forall_inv Hnn) as H0. simpl in H0.
    destruct (Z.ltb_spec a0 0) as [|_]; [lia|].
    rewrite Hadj. repeat split; [|exact Hnn].
    apply adjacent_equal_false; assumption.
Qed.

Lemma sanitize_round_rejects (nums : list Z) :
  negative_index nums \/ duplicate_index nums ->
  raises (sanitize_round nums) InvalidArgumentError.
Proof.
  intros Hbad. unfold sanitize_round.
  pose proof (merge_sort_strongly_sorted nums) as Hs.
  pose proof (merge_sort_Permutation Z.le nums) as Hp.
  destruct (merge_sort Z.le nums) as [|a0 r] eqn:E.
  - exfalso. apply Permutation_nil_l in Hp. subst nums.
    destruct Hbad as [(i & Hi & _) | Hdup].
    + inversion Hi.
    + apply Hdup. constructor.
  - destruct (Z.ltb_spec a0 0) as [Hlt|Hge];
      [apply raises_Raise; reflexivity|].
    destruct (adjacent_equal (a0 :: r)) eqn:Hadj;
      [apply raises_Raise; reflexivity|].
    exfalso. destruct Hbad as [(i & Hi & Hneg) | Hdup].
    + rewrite <- Hp in Hi.
      pose proof (proj2 (sorted_head_negative a0 r Hs)
                    (ex_intro _ i (conj Hi Hneg))). lia.
    + apply Hdup. rewrite <- Hp. apply strictly_sorted_NoDup.
      apply adjacent_equal_false; assumption.
Qed.

(** Repeating the loop body changes nothing after its first round. *)
Lemma sanitize_rounds {X} (nums : list Z) (rounds : list X) :
  rounds <> [] ->
  foldl (fun acc _ => acc ≫= sanitize_round) (Ok nums) rounds
  = sanitize_round nums.
Proof.
  intros Hne. destruct rounds as [|x rounds]; [congruence|]. simpl. clear Hne.
  destruct (sanitize_round nums) as [s|e] eqn:E.
  - assert (sanitize_round s = Ok s) as Hid.
    { unfold sanitize_round in E |- *.
      pose proof (merge_sort_strongly_sorted nums) as Hs.
      destruct (merge_sort Z.le nums) as [|a0 r] eqn:Em.
      - injection E as <-. reflexivity.
      - destruct (a0 <? 0) eqn:E0; [discriminate|].
        destruct (adjacent_equal (a0 :: r)) eqn:E1; [discriminate|].
        injection E as <-. rewrite (merge_sort_sorted_id _ Hs).
        rewrite E0, E1. reflexivity. }
    induction rounds as [|y rounds IH]; simpl; [reflexivity|].
    rewrite Hid. exact IH.
  - induction rounds as [|y rounds IH]; simpl; [reflexivity|exact IH].
Qed.

(** *** Building the wrapper *)

Lemma empty_selection_test (nums : list Z) (names : gset string) :
  bool_decide (length nums = 0%nat) && bool_decide (size names = 0%nat) = true
  <-> empty_selection nums names.
Proof.
  unfold empty_selection.
  rewrite andb_true_iff, !bool_decide_eq_true, length_zero_iff_nil.
  rewrite size_empty_iff. unfold_leibniz. reflexivity.
Qed.

Lemma wrap_accepts f nums names tag sfo :
  ~ empty_selection nums names -> ~ negative_index nums ->
  ~ duplicate_index nums ->
  py_value_and_grad f nums names tag sfo
  = Ok (mk_grad_fun f (merge_sort Z.le nums) names tag sfo)
  /\ canonical nums (merge_sort Z.le nums).
Proof.
  intros Hempty Hneg Hdup. unfold py_value_and_grad.
  destruct (bool_decide _ && bool_decide _) eqn:E.
  { exfalso. apply Hempty, empty_selection_test, E. }
  destruct (sanitize_round_accepts nums Hneg Hdup) as [Hround Hcanon].
  split; [|exact Hcanon].
  destruct nums as [|n nums]; [reflexivity|].
  rewrite sanitize_rounds by discriminate. rewrite Hround. reflexivity.
Qed.

Lemma wrap_rejects f nums names tag sfo :
  empty_selection nums names \/ negative_index nums \/ duplicate_index nums ->
  raises (py_value_and_grad f nums names tag sfo) InvalidArgumentError.
Proof.
  intros Hbad. unfold py_value_and_grad.
  destruct (bool_decide _ && bool_decide _) eqn:E;
    [apply raises_Raise; reflexivity|].
  destruct Hbad as [Hempty | Hbad].
  { apply empty_selection_test in Hempty. congruence. }
  destruct nums as [|n nums].
  { exfalso. destruct Hbad as [(i & Hi & _) | Hdup].
    - inversion Hi.
    - apply Hdup. constructor. }
  rewrite sanitize_rounds by discriminate.
  apply raises_bind, sanitize_round_rejects, Hbad.
Qed.

(** *** Checking a call against the selection *)

Lemma last_is_max (s : list Z) (back : Z) :
  StronglySorted Z.lt s -> last s = Some back ->
  back ∈ s /\ forall i, i ∈ s -> i <= back.
Proof.
  induction 1 as [|x r Hr IH Hall]; [discriminate|].
  destruct r as [|y r'].
  - simpl. intros [= <-]. split; [left|].
    intros i Hi. apply list_elem_of_singleton in Hi as ->. lia.
  - intros Hlast. change (last (y :: r') = Some back) in Hlast.
    destruct (IH Hlast) as [Hin Hmax]. split; [right; exact Hin|].
    intros i Hi. apply elem_of_cons in Hi as [-> | Hi]; [|auto].
    rewrite Forall_forall in Hall. specialize (Hall back Hin). lia.
Qed.

Lemma missing_name_test (names : gset string)
    (kwargs : list (string * pyobj)) :
  filter (fun key => dict_contains kwargs key = false) (elements names) = []
  <-> ~ missing_name names kwargs.
Proof.
  unfold missing_name, dict_contains. split.
  - intros Hnil (key & Hkey & Hmiss).
    assert (key ∈ filter (fun key => bool_decide (key ∈ kwargs.*1) = false)
                     (elements names)) as Hin.
    { apply list_elem_of_filter. split.
      - apply bool_decide_eq_false. exact Hmiss.
      - apply elem_of_elements. exact Hkey. }
    rewrite Hnil in Hin. inversion Hin.
  - intros Hnone.
    destruct (filter _ (elements names)) as [|key rest] eqn:E; [reflexivity|].
    exfalso. apply Hnone. exists key.
    assert (key ∈ key :: rest) as Hin by left.
    rewrite <- E in Hin. apply list_elem_of_filter in Hin as [Hmiss Hkey].
    split.
    + apply elem_of_elements. exact Hkey.
    + apply (proj1 (bool_decide_eq_false _)). exact Hmiss.
Qed.

Lemma sanitize_call_spec (w : grad_fun) (nums : list Z)
    (args : list pyobj) (kwargs : list (string * pyobj)) :
  Forall in_int nums -> canonical nums (argnums w) ->
  (index_out_of_range nums args \/ missing_name (argnames w) kwargs ->
   raises (sanitize_call w args kwargs) InvalidArgumentError) /\
  (~ (index_out_of_range nums args \/ missing_name (argnames w) kwargs) ->
   sanitize_call w args kwargs = Ok ()).
Proof.
  intros Hint (Hs & Hsorted & Hnn).
  pose proof (merge_sort_Permutation Z.le nums) as Hp. rewrite <- Hs in Hp.
  unfold sanitize_call.
  assert (forall back, last (argnums w) = Some back ->
            to_size_t back = back /\
            (Z.of_nat (length args) <= back <-> index_out_of_range nums args))
    as Hback.
  { intros back Hlast.
    destruct (last_is_max _ _ Hsorted Hlast) as [Hin Hmax]. split.
    - rewrite Forall_forall in Hnn, Hint.
      pose proof (Hnn back Hin) as H0. rewrite Hp in Hin.
      pose proof (Hint back Hin) as H1. unfold in_int, int_min, int_max in H1.
      unfold to_size_t. apply Z.mod_small. lia.
    - unfold index_out_of_range. split.
      + intros Hle. exists back. rewrite <- Hp. auto.
      + intros (i & Hi & Hle). rewrite <- Hp in Hi.
        specialize (Hmax i Hi). lia. }
  assert (last (argnums w) = None -> ~ index_out_of_range nums args)
    as Hnone.
  { intros Hlast (i & Hi & _). apply last_None in Hlast.
    rewrite <- Hp, Hlast in Hi. inversion Hi. }
  pose proof (missing_name_test (argnames w) kwargs) as Hmiss.
  split.
  - intros Hbad. destruct (last (argnums w)) as [back|] eqn:Hlast.
    + destruct (Hback back eq_refl) as [-> Hiff].
      destruct (bool_decide_reflect (Z.of_nat (length args) <= back))
        as [Hle | Hgt]; [apply raises_Raise; reflexivity|].
      simpl. destruct (filter _ _) as [|key rest];
        [|apply raises_Raise; reflexivity].
      exfalso. destruct Hbad as [Hoor | Hm].
      * apply Hgt, Hiff, Hoor.
      * apply (proj1 Hmiss eq_refl), Hm.
    + simpl. destruct (filter _ _) as [|key rest];
        [|apply raises_Raise; reflexivity].
      exfalso. destruct Hbad as [Hoor | Hm].
      * apply (Hnone eq_refl), Hoor.
      * apply (proj1 Hmiss eq_refl), Hm.
  - intros Hgood. destruct (last (argnums w)) as [back|] eqn:Hlast.
    + destruct (Hback back eq_refl) as [-> Hiff].
      destruct (bool_decide_reflect (Z.of_nat (length args) <= back))
        as [Hle | Hgt].
      { exfalso. apply Hgood. left. apply Hiff, Hle. }
      simpl. rewrite (proj2 Hmiss); [reflexivity|]. tauto.
    + simpl. rewrite (proj2 Hmiss); [reflexivity|]. tauto.
Qed.

(** ** The return-value contract *)


(** What the validation accepts: an array in either mode, and a non-empty
    tuple that starts with an array unless only a scalar is allowed.  (A
    list is not accepted.) *)
Lemma validate_return_accepts (scalar_only : bool) (v : pyobj) :
  validate_return scalar_only v = Ok () <->
  is_array v = true \/
  (scalar_only = false /\ exists a rest, v = TTuple (TArr a :: rest)).
Proof.
  unfold validate_return. split.
  - destruct (is_array v) eqn:Harr; [auto|].
    destruct scalar_only; [discriminate|].
    destruct v as [a|c|l|l|d]; try discriminate.
    destruct l as [|[a| | | |] rest]; try discriminate.
    intros _. right. eauto.
  - intros [-> | (-> & a & rest & ->)]; reflexivity.
Qed.



(** The cases the claim names, evaluated: an empty tuple, a constant, and
    a tuple that starts with a constant are rejected; so are an empty list
    and a list that starts with an array; an array and a tuple that starts
    with an array pass. *)
Lemma return_contract_cases :
  validate_return false (TTuple []) = Raise return_empty_tuple
  /\ validate_return false (TConst (CFloat 0)) = Raise return_not_array_or_tuple
  /\ validate_return false (TTuple [TConst (CInt 3); TArr scalar_a])
     = Raise return_first_not_array
  /\ validate_return false (TList []) = Raise return_not_array_or_tuple
  /\ validate_return false (TList [TArr scalar_a])
     = Raise return_not_array_or_tuple
  /\ validate_return true (TTuple [TArr scalar_a; TConst (CInt 3)])
     = Raise return_not_scalar_array
  /\ validate_return false (TArr scalar_a) = Ok ()
  /\ validate_return false (TTuple [TArr scalar_a; TConst (CInt 3)]) = Ok ().
Proof. repeat split. Qed.

(** ** Restoring the argument containers after the traced call *)

(** C4 fails on the code.  The call [f([a, c])] runs [f] on
    [[tracer(a), tracer(c)]]; [f] overwrites the first slot with [b] and
    leaves the second.  The visitor compares the first leaf [b] with the
    first tracer, finds a difference, and keeps its counter at 0; every
    later leaf is then compared with the first tracer as well, so the
    second leaf, which still holds the tracer placed there, is not given
    back its original [c]: the list is left as [[b, tracer(c)]]. *)
Theorem restore_stops_after_overwrite :
  restore
    (call_tree [TList [TArr scalar_b; TArr (mk_array 113 [])]] [])
    [mk_array 111 []; mk_array 113 []] [scalar_a; mk_array 13 []]
  = Ok (call_tree [TList [TArr scalar_b; TArr (mk_array 113 [])]] [])
  /\ args_after <$> overwritten_call
     = Ok [TList [TArr scalar_b; TArr (mk_array 113 [])]].
Proof. split; vm_compute; reflexivity. Qed.

End GradFacts.

(** ** Packaging the gradients *)

Module PackagingFacts.
Import Trees Grad Samples GradFacts TreesFacts.

(** *** Counting tensors *)

Lemma tree_flatten_length {A} (t : tree A) strict (vals : list A) :
  tree_flatten t strict = Ok vals -> length vals = num_arrays t.
Proof.
  revert vals.
  induction t as [a|c|l IH|l IH|d IH] using tree_ind; intros vals H;
    simpl in *.
  - injection H as <-. reflexivity.
  - destruct strict; [discriminate|]. injection H as <-. reflexivity.
  - revert vals H. induction IH as [|x l Hx _ IHl]; intros vals H; simpl in *.
    + injection H as <-. reflexivity.
    + apply bind_Ok in H as (xs & Hxs & H).
      apply bind_Ok in H as (rs & Hrs & [= <-]).
      rewrite length_app, (Hx _ Hxs), (IHl _ Hrs). reflexivity.
  - revert vals H. induction IH as [|x l Hx _ IHl]; intros vals H; simpl in *.
    + injection H as <-. reflexivity.
    + apply bind_Ok in H as (xs & Hxs & H).
      apply bind_Ok in H as (rs & Hrs & [= <-]).
      rewrite length_app, (Hx _ Hxs), (IHl _ Hrs). reflexivity.
  - revert vals H. induction IH as [|x l Hx _ IHl]; intros vals H; simpl in *.
    + injection H as <-. reflexivity.
    + apply bind_Ok in H as (xs & Hxs & H).
      apply bind_Ok in H as (rs & Hrs & [= <-]).
      rewrite length_app, (Hx _ Hxs), (IHl _ Hrs). reflexivity.
Qed.

(** Unflattening moves the read position past the tensors of the
    template. *)
Lemma tree_unflatten_from_advance {A} (t : tree A) (values : list array)
    (index : nat) (t' : pyobj) (index' : nat) :
  tree_unflatten_from t values index = Ok (t', index') ->
  index' = (index + num_arrays t)%nat.
Proof.
  unfold tree_unflatten_from. revert index t' index'.
  induction t as [a|c|l IH|l IH|d IH] using tree_ind;
    intros index t' index' H; simpl in *.
  - unfold next_value in H. destruct (values !! index); [|discriminate].
    simpl in H. injection H as _ <-. lia.
  - injection H as _ <-. lia.
  - apply bind_Ok in H as ([l' s'] & Hl & [= _ <-]).
    revert index l' s' Hl.
    induction IH as [|x l Hx _ IHl]; intros index l' s' Hl; simpl in *.
    + injection Hl as _ <-. lia.
    + apply bind_Ok in Hl as ([y s1] & Hy & Hl).
      apply bind_Ok in Hl as ([r' s2] & Hr & [= _ <-]).
      apply Hx in Hy. apply IHl in Hr. lia.
  - apply bind_Ok in H as ([l' s'] & Hl & [= _ <-]).
    revert index l' s' Hl.
    induction IH as [|x l Hx _ IHl]; intros index l' s' Hl; simpl in *.
    + injection Hl as _ <-. lia.
    + apply bind_Ok in Hl as ([y s1] & Hy & Hl).
      apply bind_Ok in Hl as ([r' s2] & Hr & [= _ <-]).
      apply Hx in Hy. apply IHl in Hr. lia.
  - apply bind_Ok in H as ([l' s'] & Hl & [= _ <-]).
    revert index l' s' Hl.
    induction IH as [|x l Hx _ IHl]; intros index l' s' Hl; simpl in *.
    + injection Hl as _ <-. lia.
    + apply bind_Ok in Hl as ([y s1] & Hy & Hl).
      apply bind_Ok in Hl as ([r' s2] & Hr & [= _ <-]).
      apply bind_Ok in Hy as ([v s0] & Hv & [= _ <-]).
      apply Hx in Hv. apply IHl in Hr. lia.
Qed.

(** *** The tensor counts of the selected arguments *)

Lemma collect_one_counts (needs_grad : bool) (arg : pyobj) (c c' : collected) :
  collect_one needs_grad arg c = Ok c' ->
  counts c' = counts c ++ (if needs_grad then [num_arrays arg] else []).
Proof.
  unfold collect_one. intros H.
  apply bind_Ok in H as (argsi & Hflat & [= <-]).
  apply tree_flatten_length in Hflat.
  destruct needs_grad; simpl; [rewrite Hflat|rewrite app_nil_r]; reflexivity.
Qed.

Lemma selected_positional_cons (n : Z) (rest : list Z) (args : list pyobj)
    (arg : pyobj) :
  arg_lookup args n = Some arg ->
  selected_positional (n :: rest) args = arg :: selected_positional rest args.
Proof. unfold selected_positional. simpl. intros ->. reflexivity. Qed.

Lemma arg_lookup_middle (done rest : list pyobj) (arg : pyobj) :
  arg_lookup (done ++ arg :: rest) (Z.of_nat (length done)) = Some arg.
Proof.
  unfold arg_lookup. destruct (Z.leb_spec 0 (Z.of_nat (length done))); [|lia].
  rewrite Nat2Z.id. apply list_lookup_middle. reflexivity.
Qed.

(** The loop over the positional arguments, started at argument
    [length done] with the selection pointer at [j]: it appends the tensor
    counts of the arguments selected by the rest of the selection. *)
Lemma collect_args_counts (argnums : list Z) (args : list pyobj) :
  forall (done : list pyobj) (j : nat) (c c' : collected),
  StronglySorted Z.lt (drop j argnums) ->
  Forall (fun n => Z.of_nat (length done) <= n
                   < Z.of_nat (length (done ++ args))) (drop j argnums) ->
  collect_args argnums args (length done) j c = Ok c' ->
  counts c' = counts c
              ++ map num_arrays
                   (selected_positional (drop j argnums) (done ++ args)).
Proof.
  induction args as [|arg rest IH]; intros done j c c' Hsorted Hrange H;
    simpl in H.
  - injection H as <-.
    destruct (drop j argnums) as [|n tl]; [simpl; rewrite app_nil_r; reflexivity|].
    apply Forall_inv in Hrange. rewrite app_nil_r in Hrange. lia.
  - apply bind_Ok in H as (c1 & Hone & H).
    apply collect_one_counts in Hone.
    replace (S (length done)) with (length (done ++ [arg])) in H
      by (rewrite length_app; simpl; lia).
    replace (done ++ arg :: rest) with ((done ++ [arg]) ++ rest) in *
      by (rewrite <- (assoc_L (++)); reflexivity).
    destruct (bool_decide_reflect
                (argnums !! j = Some (Z.of_nat (length done)))) as [Hj | Hj].
    + rewrite (drop_S _ _ _ Hj) in *.
      apply StronglySorted_inv in Hsorted as [Hsorted Hhead].
      apply IH in H; [|exact Hsorted|].
      * rewrite H, Hone, <- (assoc_L (++)). f_equal.
        rewrite <- (assoc_L (++)).
        rewrite (selected_positional_cons _ _ _ arg)
          by apply arg_lookup_middle.
        reflexivity.
      * apply Forall_inv_tail in Hrange.
        rewrite Forall_forall in Hrange, Hhead |- *. intros n Hn.
        specialize (Hrange n Hn). specialize (Hhead n Hn).
        rewrite length_app. simpl. lia.
    + apply IH in H; [|exact Hsorted|].
      * rewrite H, Hone, app_nil_r. reflexivity.
      * destruct (drop j argnums) as [|n0 tl] eqn:Hdrop; [constructor|].
        assert (argnums !! j = Some n0) as Hn0.
        { rewrite <- (Nat.add_0_r j), <- lookup_drop, Hdrop. reflexivity. }
        apply StronglySorted_inv in Hsorted as [_ Hhead].
        pose proof (Forall_inv Hrange) as Hr0. simpl in Hr0.
        assert (Z.of_nat (length done) < n0) as Hlt.
        { destruct (decide (n0 = Z.of_nat (length done))) as [->|]; [|lia].
          contradiction. }
        rewrite Forall_forall in Hrange, Hhead |- *. intros n Hn.
        specialize (Hrange n Hn). rewrite length_app. simpl.
        apply elem_of_cons in Hn as [-> | Hn]; [lia|].
        specialize (Hhead n Hn). lia.
Qed.

Lemma collect_kwargs_counts (argnames : gset string)
    (kwargs : list (string * pyobj)) :
  forall c c' : collected,
  collect_kwargs argnames kwargs c = Ok c' ->
  counts c' = counts c
              ++ map num_arrays (selected_keyword argnames kwargs).*2.
Proof.
  induction kwargs as [|[key value] rest IH]; intros c c' H; simpl in H.
  - injection H as <-. simpl. rewrite app_nil_r. reflexivity.
  - apply bind_Ok in H as (c1 & Hone & H).
    apply collect_one_counts in Hone. apply IH in H. rewrite H, Hone.
    unfold selected_keyword. rewrite filter_cons. simpl.
    destruct (bool_decide_reflect (key ∈ argnames)) as [Hin | Hout].
    + rewrite decide_True by exact Hin. simpl.
      rewrite <- (assoc_L (++)). reflexivity.
    + rewrite decide_False by exact Hout. rewrite app_nil_r. reflexivity.
Qed.

(** *** Offsets from counts *)

Lemma partial_sum_from_lookup (sizes : list nat) :
  forall (acc i : nat), (i < length sizes)%nat ->
  partial_sum_from acc sizes !! i
  = Some (acc + sum_list (take (S i) sizes))%nat.
Proof.
  induction sizes as [|x sizes IH]; intros acc i Hi; simpl in *; [lia|].
  destruct i as [|i]; simpl.
  - f_equal. destruct sizes; simpl; lia.
  - rewrite IH by lia. f_equal. simpl. lia.
Qed.

(** After [std::partial_sum], [counts[i]] is the number of tensors of the
    first [i] selected arguments. *)
Lemma counts_lookup (sizes : list nat) (i : nat) :
  (i <= length sizes)%nat ->
  partial_sum (0%nat :: sizes) !! i = Some (sum_list (take i sizes)).
Proof.
  intros Hi. unfold partial_sum. simpl. destruct i as [|i]; simpl.
  - reflexivity.
  - rewrite partial_sum_from_lookup by lia. reflexivity.
Qed.

(** *** Reading the gradient trees at the offsets *)

Lemma list_traverse_advance (gradients : list array) (ts : list pyobj) :
  forall (start : nat) (trees : list pyobj) (stop : nat),
  list_traverse (pull gradients) ts start = Ok (trees, stop) ->
  stop = (start + sum_list (map num_arrays ts))%nat
  /\ length trees = length ts.
Proof.
  induction ts as [|t ts IH]; intros start trees stop H; simpl in H.
  - injection H as <- <-. simpl. split; [lia | reflexivity].
  - apply bind_Ok in H as ([y s1] & Hy & H).
    apply bind_Ok in H as ([r s2] & Hr & [= <- <-]).
    apply tree_unflatten_from_advance in Hy. apply IH in Hr as [-> Hlen].
    simpl. split; [lia | congruence].
Qed.

Lemma list_traverse_app (gradients : list array) (l1 l2 : list pyobj)
    (start : nat) :
  list_traverse (pull gradients) (l1 ++ l2) start
  = '(y1, s1) ← list_traverse (pull gradients) l1 start;
    '(y2, s2) ← list_traverse (pull gradients) l2 s1;
    Ok (y1 ++ y2, s2).
Proof.
  revert start. induction l1 as [|t l1 IH]; intros start; simpl.
  - destruct (list_traverse _ l2 start) as [[y2 s2]|]; reflexivity.
  - destruct (tree_unflatten_from t gradients start) as [[y s1]|];
      [|reflexivity].
    simpl. rewrite IH.
    destruct (list_traverse _ l1 s1) as [[y1 s1']|]; [|reflexivity].
    simpl. destruct (list_traverse _ l2 s1') as [[y2 s2]|]; reflexivity.
Qed.

Lemma positional_trees_traverse (args : list pyobj) (gradients : list array)
    (counts : list nat) (nums : list Z) (ts : list pyobj) :
  Forall2 (fun n t => arg_lookup args n = Some t) nums ts ->
  forall base start : nat,
  (forall i, (i < length ts)%nat ->
     counts !! (base + i)%nat
     = Some (start + sum_list (map num_arrays (take i ts)))%nat) ->
  positional_trees args gradients counts nums base
  = fst <$> list_traverse (pull gradients) ts start.
Proof.
  induction 1 as [|n t nums ts Hn _ IH]; intros base start Hcounts;
    [reflexivity|].
  simpl. unfold args_at. rewrite Hn. cbn [mbind result_bind].
  pose proof (Hcounts 0%nat ltac:(simpl; lia)) as H0.
  rewrite Nat.add_0_r in H0. simpl in H0. rewrite Nat.add_0_r in H0.
  unfold count_at. rewrite H0. cbn [mbind result_bind].
  unfold tree_unflatten.
  destruct (tree_unflatten_from t gradients start) as [[y s1]|] eqn:Hy;
    [|reflexivity].
  cbn [fmap result_fmap mbind result_bind fst].
  apply tree_unflatten_from_advance in Hy. subst s1.
  rewrite (IH (S base) (start + num_arrays t)%nat).
  - destruct (list_traverse _ ts _) as [[r s2]|]; reflexivity.
  - intros i Hi. specialize (Hcounts (S i) ltac:(simpl; lia)).
    rewrite <- Nat.add_succ_comm in Hcounts. rewrite Hcounts.
    simpl. f_equal. lia.
Qed.

Lemma dict_set_fresh {V} (d : list (string * V)) (key : string) (v : V) :
  key ∉ d.*1 -> dict_set d key v = d ++ [(key, v)].
Proof.
  induction d as [|[k w] d IH]; intros Hfresh; simpl in *; [reflexivity|].
  apply not_elem_of_cons in Hfresh as [Hne Hfresh].
  rewrite decide_False by congruence. rewrite IH by exact Hfresh.
  reflexivity.
Qed.

Lemma keyword_trees_traverse (argnames : gset string)
    (gradients : list array) (counts : list nat) (nargnums : nat)
    (kwargs : list (string * pyobj)) :
  forall (i : nat) (grads_ : list (string * pyobj)) (start : nat),
  NoDup (grads_.*1 ++ kwargs.*1) ->
  (forall k, (k < length (selected_keyword argnames kwargs))%nat ->
     counts !! (i + nargnums + k)%nat
     = Some (start + sum_list (map num_arrays
                         (take k (selected_keyword argnames kwargs).*2)))%nat) ->
  keyword_trees argnames kwargs gradients counts nargnums i grads_
  = (fun r => grads_ ++ zip (selected_keyword argnames kwargs).*1 r.1)
    <$> list_traverse (pull gradients)
          (selected_keyword argnames kwargs).*2 start.
Proof.
  induction kwargs as [|[key value] rest IH];
    intros i grads_ start Hnd Hcounts; simpl.
  - rewrite app_nil_r. reflexivity.
  - unfold selected_keyword in *. rewrite filter_cons in *. simpl in *.
    assert (NoDup (grads_.*1 ++ rest.*1)) as Hnd_rest.
    { apply NoDup_app in Hnd as (H1 & H2 & H3). apply NoDup_app.
      split; [exact H1|]. split.
      - intros x Hx Hin. apply (H2 x Hx). right. exact Hin.
      - apply NoDup_cons in H3 as [_ H3]. exact H3. }
    destruct (bool_decide_reflect (key ∈ argnames)) as [Hin | Hout].
    + rewrite decide_True in * by exact Hin. simpl in *.
      pose proof (Hcounts 0%nat ltac:(lia)) as H0.
      rewrite take_0 in H0. simpl in H0. rewrite !Nat.add_0_r in H0.
      unfold count_at. rewrite H0. cbn [mbind result_bind].
      unfold tree_unflatten.
      destruct (tree_unflatten_from value gradients start) as [[y s1]|] eqn:Hy;
        [|reflexivity].
      cbn [fmap result_fmap mbind result_bind fst].
      apply tree_unflatten_from_advance in Hy. subst s1.
      assert (key ∉ grads_.*1) as Hfresh.
      { apply NoDup_app in Hnd as (_ & H2 & _). intros Hk.
        apply (H2 key Hk). left. }
      rewrite (dict_set_fresh _ _ _ Hfresh).
      rewrite (IH (S i) _ (start + num_arrays value)%nat).
      * destruct (list_traverse _ _ _) as [[r s2]|]; simpl; [|reflexivity].
        rewrite <- (assoc_L (++)). reflexivity.
      * rewrite fmap_app. simpl. rewrite <- (assoc_L (++)). simpl.
        apply NoDup_app in Hnd as (H1 & H2 & H3).
        apply NoDup_cons in H3 as [H3 H4].
        apply NoDup_app. split; [exact H1|]. split.
        -- intros x Hx Hin'. apply elem_of_cons in Hin' as [-> | Hin'].
           ++ exact (Hfresh Hx).
           ++ apply (H2 x Hx). right. exact Hin'.
        -- apply NoDup_cons. split; assumption.
      * intros k Hk.
        specialize (Hcounts (S k) (proj1 (Nat.succ_lt_mono _ _) Hk)).
        replace (S i + nargnums + k)%nat with (i + nargnums + S k)%nat by lia.
        rewrite Hcounts. simpl. f_equal. exact (Nat.add_assoc _ _ _).
    + rewrite decide_False in * by exact Hout.
      apply (IH i grads_ start Hnd_rest Hcounts).
Qed.

(** *** The packaged gradients *)

Lemma positional_trees_length (args : list pyobj) (gradients : list array)
    (counts : list nat) (nums : list Z) :
  forall (i : nat) (trees : list pyobj),
  positional_trees args gradients counts nums i = Ok trees ->
  length trees = length nums.
Proof.
  induction nums as [|n nums IH]; intros i trees H; simpl in H.
  - injection H as <-. reflexivity.
  - apply bind_Ok in H as (arg & _ & H). apply bind_Ok in H as (c & _ & H).
    apply bind_Ok in H as (g & _ & H).
    apply bind_Ok in H as (gs & Hgs & [= <-]).
    simpl. f_equal. exact (IH _ _ Hgs).
Qed.

Lemma positional_grads_trees (w : grad_fun) (args : list pyobj)
    (gradients : list array) (counts : list nat) :
  positional_grads w args gradients counts
  = positional_part
    <$> positional_trees args gradients counts (argnums w) 0.
Proof.
  unfold positional_grads.
  destruct (argnums w) as [|n [|n2 rest]] eqn:Hnums.
  - reflexivity.
  - simpl. destruct (args_at args n); [|reflexivity]. simpl.
    destruct (count_at counts 0); [|reflexivity]. simpl.
    destruct (tree_unflatten _ _ _); reflexivity.
  - destruct (positional_trees _ _ _ _ _) as [trees|] eqn:Htrees;
      [|reflexivity].
    apply positional_trees_length in Htrees.
    destruct trees as [|t1 [|t2 trees]]; try discriminate. reflexivity.
Qed.

Lemma selected_positional_lookup (args : list pyobj) (nums : list Z) :
  Forall (fun n => 0 <= n < Z.of_nat (length args)) nums ->
  Forall2 (fun n t => arg_lookup args n = Some t) nums
    (selected_positional nums args).
Proof.
  induction 1 as [|n nums Hn _ IH]; [constructor|].
  assert (is_Some (arg_lookup args n)) as [arg Harg].
  { unfold arg_lookup. destruct (Z.leb_spec 0 n); [|lia].
    apply lookup_lt_is_Some. lia. }
  rewrite (selected_positional_cons _ _ _ _ Harg). constructor; assumption.
Qed.

Lemma collect_counts (w : grad_fun) (args : list pyobj)
    (kwargs : list (string * pyobj)) (c : collected) :
  StronglySorted Z.lt (argnums w) ->
  Forall (fun n => 0 <= n < Z.of_nat (length args)) (argnums w) ->
  collect w args kwargs = Ok c ->
  counts c
  = partial_sum
      (0%nat :: map num_arrays
                  (selected_positional (argnums w) args
                   ++ (selected_keyword (argnames w) kwargs).*2)).
Proof.
  intros Hsorted Hrange H. unfold collect in H.
  apply bind_Ok in H as (c0 & Hargs & H).
  apply bind_Ok in H as (c1 & Hkwargs & [= <-]). simpl.
  apply (collect_args_counts (argnums w) args []) in Hargs;
    [|exact Hsorted|exact Hrange].
  apply collect_kwargs_counts in Hkwargs.
  rewrite Hkwargs, Hargs. simpl. rewrite map_app. reflexivity.
Qed.

Lemma selected_keyword_none (argnames : gset string)
    (kwargs : list (string * pyobj)) :
  size argnames = 0%nat -> selected_keyword argnames kwargs = [].
Proof.
  intros Hsize. apply size_empty_iff in Hsize. unfold selected_keyword.
  induction kwargs as [|kv rest IH]; [reflexivity|].
  rewrite filter_cons, decide_False; [exact IH|].
  intros Hin. apply Hsize in Hin. exact (not_elem_of_empty _ Hin).
Qed.

(** The gradients as [py_grads] packs them, reading each tree at the
    offset recorded in [counts], are the gradient trees of the selected
    arguments in the packaging of the specification. *)
Lemma py_grads_refines (w : grad_fun) (args : list pyobj)
    (kwargs : list (string * pyobj)) (gradients : list array)
    (c : collected) :
  StronglySorted Z.lt (argnums w) ->
  Forall (fun n => 0 <= n < Z.of_nat (length args)) (argnums w) ->
  NoDup kwargs.*1 ->
  collect w args kwargs = Ok c ->
  py_grads w args kwargs gradients (counts c)
  = packaged (length (argnums w))
      (negb (bool_decide (size (argnames w) = 0%nat)))
      (selected_keyword (argnames w) kwargs).*1
    <$> gradient_trees
          (selected_positional (argnums w) args
           ++ (selected_keyword (argnames w) kwargs).*2) gradients.
Proof.
  intros Hsorted Hrange Hnd Hcollect.
  pose proof (collect_counts w args kwargs c Hsorted Hrange Hcollect)
    as Hcounts.
  pose proof (selected_positional_lookup args (argnums w) Hrange) as Hpos.
  set (pos := selected_positional (argnums w) args) in *.
  set (kw := selected_keyword (argnames w) kwargs) in *.
  assert (length pos = length (argnums w)) as Hlen
    by (symmetry; exact (Forall2_length _ _ _ Hpos)).
  assert (forall i, (i <= length (pos ++ kw.*2))%nat ->
            counts c !! i
            = Some (sum_list (take i (map num_arrays (pos ++ kw.*2)))))
    as Hat.
  { intros i Hi. rewrite Hcounts. apply counts_lookup.
    rewrite length_map. exact Hi. }
  unfold py_grads, gradient_trees. rewrite positional_grads_trees.
  rewrite (positional_trees_traverse args gradients (counts c) (argnums w)
             pos Hpos 0%nat 0%nat).
  2:{ intros i Hi. simpl. rewrite Hat by (rewrite length_app; lia).
      rewrite map_app, take_app_le by (rewrite length_map; lia).
      rewrite firstn_map. reflexivity. }
  rewrite list_traverse_app.
  destruct (list_traverse (pull gradients) pos 0%nat) as [[y1 s1]|] eqn:Hy1;
    [|reflexivity].
  cbn [fmap result_fmap mbind result_bind fst].
  apply list_traverse_advance in Hy1 as [Hs1 Hlen1]. simpl in Hs1.
  destruct (bool_decide_reflect (size (argnames w) = 0%nat)) as [Hsize | Hsize].
  - assert (kw = []) as Hkw
      by (apply selected_keyword_none; exact Hsize).
    rewrite Hkw. simpl. unfold packaged. simpl.
    rewrite app_nil_r, take_ge by lia. reflexivity.
  - simpl negb.
    rewrite (keyword_trees_traverse (argnames w) gradients (counts c)
               (length (argnums w)) kwargs 0%nat [] s1).
    2:{ simpl. exact Hnd. }
    2:{ intros k Hk. fold kw. fold kw in Hk. simpl.
        rewrite Hat by (rewrite length_app, length_fmap; lia).
        rewrite map_app, <- Hlen.
        rewrite take_app_add' by (rewrite length_map; reflexivity).
        rewrite sum_list_with_app, firstn_map, Hs1. reflexivity. }
    fold kw.
    destruct (list_traverse (pull gradients) kw.*2 s1) as [[y2 s2]|];
      [|reflexivity].
    simpl. unfold packaged.
    rewrite take_app_length' by lia. rewrite drop_app_length' by lia.
    reflexivity.
Qed.

(** *** From a call to its packaged gradients *)

Lemma sanitize_round_canonical (nums s : list Z) :
  sanitize_round nums = Ok s -> canonical nums s.
Proof.
  unfold sanitize_round, canonical. intros H.
  pose proof (merge_sort_strongly_sorted nums) as Hs.
  destruct (merge_sort Z.le nums) as [|a0 r] eqn:E.
  - injection H as <-. repeat split; constructor.
  - destruct (Z.ltb_spec a0 0) as [|Hge]; [discriminate|].
    destruct (adjacent_equal (a0 :: r)) eqn:Hadj; [discriminate|].
    injection H as <-. repeat split.
    + apply adjacent_equal_false; assumption.
    + pose proof Hs as Hs'. apply StronglySorted_inv in Hs' as [_ Hall].
      constructor; [exact Hge|].
      eapply Forall_impl; [exact Hall|]. simpl. intros z Hz. lia.
Qed.

Lemma wrapper_canonical f nums names tag sfo w :
  py_value_and_grad f nums names tag sfo = Ok w ->
  canonical nums (argnums w) /\ argnames w = names.
Proof.
  unfold py_value_and_grad. intros H.
  destruct (bool_decide _ && bool_decide _); [discriminate|].
  apply bind_Ok in H as (s & Hs & [= <-]). simpl. split; [|reflexivity].
  destruct nums as [|n nums].
  - simpl in Hs. injection Hs as <-. repeat split; constructor.
  - rewrite sanitize_rounds in Hs by discriminate.
    apply sanitize_round_canonical. exact Hs.
Qed.

Lemma sanitized_call_in_range (w : grad_fun) (nums : list Z)
    (args : list pyobj) (kwargs : list (string * pyobj)) :
  Forall in_int nums -> canonical nums (argnums w) ->
  sanitize_call w args kwargs = Ok () ->
  Forall (fun n => 0 <= n < Z.of_nat (length args)) (argnums w)
  /\ forall key, key ∈ argnames w -> key ∈ kwargs.*1.
Proof.
  intros Hint Hcanon Hok.
  destruct (sanitize_call_spec w nums args kwargs Hint Hcanon) as [Hrej _].
  assert (~ (index_out_of_range nums args
             \/ missing_name (argnames w) kwargs)) as Hgood.
  { intros Hbad. apply Hrej in Hbad. rewrite Hok in Hbad.
    exact (not_raises_Ok _ _ Hbad). }
  destruct Hcanon as (Heq & _ & Hnn).
  pose proof (merge_sort_Permutation Z.le nums) as Hp. rewrite <- Heq in Hp.
  split.
  - rewrite Forall_forall in Hnn |- *. intros n Hn. split; [auto|].
    destruct (Z.lt_ge_cases n (Z.of_nat (length args))) as [|Hge];
      [assumption|].
    exfalso. apply Hgood. left. exists n. rewrite <- Hp. auto.
  - intros key Hkey.
    destruct (decide (key ∈ kwargs.*1)) as [|Hmiss]; [assumption|].
    exfalso. apply Hgood. right. exists key. auto.
Qed.

Lemma selected_keyword_keys (argnames : gset string)
    (kwargs : list (string * pyobj)) :
  (forall key, key ∈ argnames -> key ∈ kwargs.*1) ->
  forall key, key ∈ (selected_keyword argnames kwargs).*1 <-> key ∈ argnames.
Proof.
  intros Hpresent key. unfold selected_keyword. split.
  - intros Hin. apply list_elem_of_fmap in Hin as ([k v] & -> & Hkv).
    apply list_elem_of_filter in Hkv as [Hk _]. exact Hk.
  - intros Hkey. pose proof (Hpresent key Hkey) as Hin.
    apply list_elem_of_fmap in Hin as ([k v] & -> & Hkv).
    apply list_elem_of_fmap. exists (k, v). split; [reflexivity|].
    apply list_elem_of_filter. split; [exact Hkey | exact Hkv].
Qed.

(** *** The shape of the gradient trees *)

Lemma tree_unflatten_from_structure_eq {A} (t : tree A)
    (values : list array) :
  forall (i : nat) (t' : pyobj) (i' : nat),
  tree_unflatten_from t values i = Ok (t', i') ->
  tree_structure t' = tree_structure t.
Proof.
  unfold tree_unflatten_from.
  induction t as [a|c|l IH|l IH|d IH] using tree_ind; intros i t' i' H;
    simpl in *.
  - apply bind_Ok in H as ([b s'] & _ & [= <- _]). reflexivity.
  - injection H as <- _. reflexivity.
  - apply bind_Ok in H as ([l' s'] & Hl & [= <- _]). simpl. f_equal.
    revert i l' s' Hl. induction IH as [|x l Hx _ IHl]; intros i l' s' Hl;
      simpl in *.
    + injection Hl as <- _. reflexivity.
    + apply bind_Ok in Hl as ([y s1] & Hy & Hl).
      apply bind_Ok in Hl as ([r' s2] & Hr & [= <- _]). simpl.
      rewrite (Hx _ _ _ Hy), (IHl _ _ _ Hr). reflexivity.
  - apply bind_Ok in H as ([l' s'] & Hl & [= <- _]). simpl. f_equal.
    revert i l' s' Hl. induction IH as [|x l Hx _ IHl]; intros i l' s' Hl;
      simpl in *.
    + injection Hl as <- _. reflexivity.
    + apply bind_Ok in Hl as ([y s1] & Hy & Hl).
      apply bind_Ok in Hl as ([r' s2] & Hr & [= <- _]). simpl.
      rewrite (Hx _ _ _ Hy), (IHl _ _ _ Hr). reflexivity.
  - apply bind_Ok in H as ([d' s'] & Hd & [= <- _]). simpl. f_equal.
    revert i d' s' Hd. induction IH as [|[k x] d Hx _ IHd]; intros i d' s' Hd;
      simpl in *.
    + injection Hd as <- _. reflexivity.
    + apply bind_Ok in Hd as ([y s1] & Hy & Hd).
      apply bind_Ok in Hd as ([r' s2] & Hr & [= <- _]).
      apply bind_Ok in Hy as ([v s0] & Hv & [= <- _]). simpl.
      rewrite (Hx _ _ _ Hv), (IHd _ _ _ Hr). reflexivity.
Qed.

Lemma tree_unflatten_shape (t t' : pyobj) (values : list array) (i : nat) :
  tree_unflatten t values i = Ok t' -> shaped_like t t'.
Proof.
  unfold tree_unflatten, shaped_like. intros H.
  apply fmap_Ok in H as ([t0 i'] & H & ->). simpl.
  exact (tree_unflatten_from_structure_eq _ _ _ _ _ H).
Qed.

Lemma size_zero_iff_empty (names : gset string) :
  size names = 0%nat <-> names = ∅.
Proof. rewrite size_empty_iff. unfold_leibniz. reflexivity. Qed.

Lemma py_grads_keyword_only (w : grad_fun) (args1 args2 : list pyobj)
    (kwargs : list (string * pyobj)) (gradients : list array)
    (counts : list nat) :
  argnums w = [] ->
  py_grads w args1 kwargs gradients counts
  = py_grads w args2 kwargs gradients counts.
Proof.
  intros Hnums. unfold py_grads, positional_grads. rewrite Hnums.
  reflexivity.
Qed.

(** What the sample call [value_and_grad(f, argnums=[1, 0],
    argnames="k")(a, [b, c], k=d)] returns as gradients: the tuple of the
    trees of arguments 0 and 1, in this order, and the dict for [k]. *)
Lemma sample_call_grads :
  grads sample_call_result
  = TTuple [TTuple [TArr (mk_array 1000 []);
                    TList [TArr (mk_array 1001 []); TArr (mk_array 1002 [])]];
            TDict [("k"%string, TArr (mk_array 1003 []))]]
  /\ args_after sample_call_result = sample_args
  /\ kwargs_after sample_call_result = sample_kwargs.
Proof. repeat split. Qed.

Lemma keyword_call_grads :
  grads keyword_call_result
  = TTuple [py_none; TDict [("k"%string, TArr (mk_array 1001 []))]].
Proof. reflexivity. Qed.

End PackagingFacts.

(** ** Restoring untouched arguments *)

Module RestoreFacts.
Import Trees Grad GradFacts TreesFacts PackagingFacts.

(** *** Restoring what the call did not touch *)

Lemma list_restores (l : list pyobj) :
  Forall restores l ->
  forall leaves, list_collect (fun x => tree_flatten x false) l = Ok leaves ->
  forall (a arrays : list array) (i : nat),
  (forall k x, leaves !! k = Some x -> arrays !! (i + k)%nat = Some x) ->
  (i + length leaves <= length a)%nat ->
  exists l',
    list_traverse (tree_traverse (next_value a)) l i
    = Ok (l', (i + length leaves)%nat) /\
    list_traverse (tree_traverse (restore_visitor a arrays)) l' i
    = Ok (l, (i + length leaves)%nat).
Proof.
  induction 1 as [|x l Hx _ IH]; intros leaves Hleaves a arrays i Hat Hlen;
    simpl in *.
  - injection Hleaves as <-. exists []. simpl. rewrite Nat.add_0_r. auto.
  - apply bind_Ok in Hleaves as (xs & Hxs & Hleaves).
    apply bind_Ok in Hleaves as (rs & Hrs & [= <-]).
    rewrite length_app in *.
    destruct (Hx xs Hxs a arrays i) as (x' & Hfill & Hback); [|lia|].
    { intros k y Hk. apply Hat. apply lookup_app_l_Some. exact Hk. }
    destruct (IH rs Hrs a arrays (i + length xs)%nat) as (l' & Hfills & Hbacks);
      [|lia|].
    { intros k y Hk. rewrite <- Nat.add_assoc. apply Hat.
      rewrite lookup_app_r by lia.
      replace (length xs + k - length xs)%nat with k by lia. exact Hk. }
    exists (x' :: l'). simpl. rewrite Hfill, Hback. simpl.
    rewrite Hfills, Hbacks. simpl. rewrite Nat.add_assoc. auto.
Qed.

Lemma dict_restores (d : list (string * pyobj)) :
  Forall (fun kv => restores kv.2) d ->
  forall leaves, list_collect (fun kv => tree_flatten kv.2 false) d = Ok leaves ->
  forall (a arrays : list array) (i : nat),
  (forall k x, leaves !! k = Some x -> arrays !! (i + k)%nat = Some x) ->
  (i + length leaves <= length a)%nat ->
  exists d',
    list_traverse
      (fun (kv : string * pyobj) s0 =>
         '(v, s1) ← tree_traverse (next_value a) kv.2 s0; Ok ((kv.1, v), s1))
      d i
    = Ok (d', (i + length leaves)%nat) /\
    list_traverse
      (fun (kv : string * pyobj) s0 =>
         '(v, s1) ← tree_traverse (restore_visitor a arrays) kv.2 s0;
         Ok ((kv.1, v), s1))
      d' i
    = Ok (d, (i + length leaves)%nat).
Proof.
  induction 1 as [|[key x] d Hx _ IH];
    intros leaves Hleaves a arrays i Hat Hlen; simpl in *.
  - injection Hleaves as <-. exists []. simpl. rewrite Nat.add_0_r. auto.
  - apply bind_Ok in Hleaves as (xs & Hxs & Hleaves).
    apply bind_Ok in Hleaves as (rs & Hrs & [= <-]).
    rewrite length_app in *.
    destruct (Hx xs Hxs a arrays i) as (x' & Hfill & Hback); [|lia|].
    { intros k y Hk. apply Hat. apply lookup_app_l_Some. exact Hk. }
    destruct (IH rs Hrs a arrays (i + length xs)%nat) as (d' & Hfills & Hbacks);
      [|lia|].
    { intros k y Hk. rewrite <- Nat.add_assoc. apply Hat.
      rewrite lookup_app_r by lia.
      replace (length xs + k - length xs)%nat with k by lia. exact Hk. }
    exists ((key, x') :: d'). simpl. rewrite Hfill. simpl. rewrite Hback. simpl.
    rewrite Hfills, Hbacks. simpl. rewrite Nat.add_assoc. auto.
Qed.

Lemma tree_restores (t : pyobj) : restores t.
Proof.
  induction t as [x|c|l IH|l IH|d IH] using tree_ind;
    intros leaves Hleaves a arrays i Hat Hlen; simpl in *.
  - injection Hleaves as <-. simpl in Hlen.
    destruct (lookup_lt_is_Some_2 a i ltac:(lia)) as [tracer Htracer].
    exists (TArr tracer). unfold next_value, restore_visitor. simpl.
    rewrite Htracer. simpl. rewrite Z.eqb_refl.
    specialize (Hat 0%nat x eq_refl). rewrite Nat.add_0_r in Hat.
    rewrite Hat. simpl. replace (i + 1)%nat with (S i) by lia. auto.
  - injection Hleaves as <-. exists (TConst c). simpl.
    rewrite Nat.add_0_r. auto.
  - destruct (list_restores l IH leaves Hleaves a arrays i Hat Hlen)
      as (l' & Hfill & Hback).
    exists (TList l'). simpl. rewrite Hfill. simpl. rewrite Hback. auto.
  - destruct (list_restores l IH leaves Hleaves a arrays i Hat Hlen)
      as (l' & Hfill & Hback).
    exists (TTuple l'). simpl. rewrite Hfill. simpl. rewrite Hback. auto.
  - destruct (dict_restores d IH leaves Hleaves a arrays i Hat Hlen)
      as (d' & Hfill & Hback).
    exists (TDict d'). simpl. rewrite Hfill. simpl. rewrite Hback. auto.
Qed.

(** If the call leaves every tracer where it was placed, the restore step
    gives the argument containers back as they were before tracing. *)
Lemma fill_then_restore (t : pyobj) (a arrays : list array) :
  tree_flatten t false = Ok arrays ->
  length a = length arrays ->
  exists t', tree_fill t a = Ok t' /\ restore t' a arrays = Ok t.
Proof.
  intros Hflat Hlen.
  destruct (tree_restores t arrays Hflat a arrays 0%nat) as (t' & Hfill & Hback).
  - intros k x Hk. exact Hk.
  - simpl. lia.
  - exists t'. unfold tree_fill, tree_unflatten, tree_unflatten_from, restore,
      tree_visit_update. rewrite Hfill, Hback. auto.
Qed.

(** *** The flat inputs of a call *)

Lemma strict_flatten_weaken (t : pyobj) (leaves : list array) :
  tree_flatten t true = Ok leaves -> tree_flatten t false = Ok leaves.
Proof.
  revert leaves.
  induction t as [x|c|l IH|l IH|d IH] using tree_ind; intros leaves H;
    simpl in *; try discriminate; try exact H.
  - revert leaves H. induction IH as [|y l Hy _ IHl]; intros leaves H;
      simpl in *; [exact H|].
    apply bind_Ok in H as (xs & Hxs & H).
    apply bind_Ok in H as (rs & Hrs & [= <-]).
    rewrite (Hy _ Hxs), (IHl _ Hrs). reflexivity.
  - revert leaves H. induction IH as [|y l Hy _ IHl]; intros leaves H;
      simpl in *; [exact H|].
    apply bind_Ok in H as (xs & Hxs & H).
    apply bind_Ok in H as (rs & Hrs & [= <-]).
    rewrite (Hy _ Hxs), (IHl _ Hrs). reflexivity.
  - revert leaves H. induction IH as [|y l Hy _ IHl]; intros leaves H;
      simpl in *; [exact H|].
    apply bind_Ok in H as (xs & Hxs & H).
    apply bind_Ok in H as (rs & Hrs & [= <-]).
    rewrite (Hy _ Hxs), (IHl _ Hrs). reflexivity.
Qed.

Lemma collect_one_arrays (needs_grad : bool) (arg : pyobj) (c c' : collected) :
  collect_one needs_grad arg c = Ok c' ->
  exists leaves, tree_flatten arg false = Ok leaves
                 /\ arrays c' = arrays c ++ leaves.
Proof.
  unfold collect_one. intros H.
  apply bind_Ok in H as (argsi & Hflat & [= <-]).
  exists argsi. split.
  - destruct needs_grad; [apply strict_flatten_weaken|]; exact Hflat.
  - destruct needs_grad; reflexivity.
Qed.

Lemma collect_args_arrays (argnums : list Z) (args : list pyobj) :
  forall (i j : nat) (c c' : collected),
  collect_args argnums args i j c = Ok c' ->
  exists leaves,
    list_collect (fun x => tree_flatten x false) args = Ok leaves
    /\ arrays c' = arrays c ++ leaves.
Proof.
  induction args as [|arg rest IH]; intros i j c c' H; simpl in *.
  - injection H as <-. exists []. rewrite app_nil_r. auto.
  - apply bind_Ok in H as (c1 & Hone & H).
    apply collect_one_arrays in Hone as (xs & Hxs & Hone).
    apply IH in H as (rs & Hrs & H).
    exists (xs ++ rs). rewrite Hxs, Hrs, H, Hone, (assoc_L (++)). auto.
Qed.

Lemma collect_kwargs_arrays (argnames : gset string)
    (kwargs : list (string * pyobj)) :
  forall c c' : collected,
  collect_kwargs argnames kwargs c = Ok c' ->
  exists leaves,
    list_collect (fun kv : string * pyobj => tree_flatten kv.2 false) kwargs
    = Ok leaves
    /\ arrays c' = arrays c ++ leaves.
Proof.
  induction kwargs as [|[key value] rest IH]; intros c c' H; simpl in *.
  - injection H as <-. exists []. rewrite app_nil_r. auto.
  - apply bind_Ok in H as (c1 & Hone & H).
    apply collect_one_arrays in Hone as (xs & Hxs & Hone).
    apply IH in H as (rs & Hrs & H).
    exists (xs ++ rs). rewrite Hxs, Hrs, H, Hone, (assoc_L (++)). auto.
Qed.

(** The flat inputs collected argument by argument are the tensors of the
    whole call bundle, in flattening order. *)
Lemma collect_arrays (w : grad_fun) (args : list pyobj)
    (kwargs : list (string * pyobj)) (c : collected) :
  collect w args kwargs = Ok c ->
  tree_flatten (call_tree args kwargs) false = Ok (arrays c).
Proof.
  unfold collect. intros H.
  apply bind_Ok in H as (c0 & Hargs & H).
  apply bind_Ok in H as (c1 & Hkwargs & [= <-]). simpl.
  apply collect_args_arrays in Hargs as (xs & -> & Hargs).
  apply collect_kwargs_arrays in Hkwargs as (ys & -> & Hkwargs).
  simpl. rewrite Hkwargs, Hargs. simpl. rewrite app_nil_r. reflexivity.
Qed.

Lemma split_call_tree_inv (t : pyobj) (args : list pyobj)
    (kwargs : list (string * pyobj)) :
  split_call_tree t = Ok (args, kwargs) -> t = call_tree args kwargs.
Proof.
  unfold split_call_tree, call_tree. intros H.
  destruct t as [| |[|[| | |targs|] [|[| | | |tkwargs] [|]]]| |];
    try discriminate.
  injection H as <- <-. reflexivity.
Qed.

(** When the callable does not write into its arguments and the primitive
    layer provides one tracer per input, the call leaves the argument
    containers as they were. *)
Lemma untouched_arguments_restored mt mg (w : grad_fun) (args : list pyobj)
    (kwargs : list (string * pyobj)) (r : call_result) :
  (forall l, length (mt l) = length l) ->
  leaves_arguments (fun_ w) ->
  call mt mg w args kwargs = Ok r ->
  args_after r = args /\ kwargs_after r = kwargs.
Proof.
  intros Hmt Hfun H. unfold call in H.
  apply bind_Ok in H as ([] & _ & H).
  apply bind_Ok in H as (c & Hc & H).
  apply bind_Ok in H as ([[tree out] [value gradients]] & Htraced & H).
  apply bind_Ok in H as ([args' kwargs'] & Hsplit & H).
  apply bind_Ok in H as (g & _ & H).
  apply bind_Ok in H as (rv & _ & [= <-]). simpl.
  unfold mx_value_and_grad in Htraced.
  apply bind_Ok in Htraced as ([[tree0 out0] outs] & Htraced & [= <- <- <- <-]).
  unfold traced_fun in Htraced.
  apply bind_Ok in Htraced as (t1 & Hfill & Htraced).
  apply bind_Ok in Htraced as ([targs tkwargs] & Hsplit1 & Htraced).
  apply bind_Ok in Htraced as ([[targs' tkwargs'] out1] & Hcall & Htraced).
  apply bind_Ok in Htraced as (tree1 & Hrestore & Htraced).
  apply bind_Ok in Htraced as ([] & _ & Htraced).
  apply bind_Ok in Htraced as (outs1 & _ & [= <- <- <-]).
  apply Hfun in Hcall as [-> ->].
  apply split_call_tree_inv in Hsplit1. subst t1.
  destruct (fill_then_restore (call_tree args kwargs) (mt (arrays c))
              (arrays c) (collect_arrays _ _ _ _ Hc) (Hmt _))
    as (t' & Hfill' & Hback).
  rewrite Hfill in Hfill'. injection Hfill' as <-.
  rewrite Hrestore in Hback. injection Hback as ->.
  simpl in Hsplit. injection Hsplit as <- <-. auto.
Qed.

End RestoreFacts.

(** ** Failures past the input check *)

Module QuietFacts.
Import Trees Grad GradFacts TreesFacts PackagingFacts.

(** *** Where an [InvalidArgumentError] can come from *)

Lemma quiet_Ok {A} (a : A) : quiet (Ok a).
Proof. intros e H. discriminate. Qed.

Lemma quiet_Raise {A} (e : exn) :
  class_of e <> InvalidArgumentError -> quiet (@Raise A e).
Proof. intros He e' [= <-]. exact He. Qed.

Lemma quiet_bind {A B} (m : result A) (f : A -> result B) :
  quiet m -> (forall a, m = Ok a -> quiet (f a)) -> quiet (m ≫= f).
Proof.
  intros Hm Hf. destruct m as [a|e]; simpl.
  - apply Hf. reflexivity.
  - intros e' [= <-]. apply Hm. reflexivity.
Qed.

Lemma quiet_fmap {A B} (m : result A) (f : A -> B) :
  quiet m -> quiet (f <$> m).
Proof.
  intros Hm. destruct m as [a|e]; simpl; [apply quiet_Ok|].
  intros e' [= <-]. apply Hm. reflexivity.
Qed.

Lemma quiet_not_raises {A} (m : result A) :
  quiet m -> ~ raises m InvalidArgumentError.
Proof. intros Hm (e & -> & He). exact (Hm e eq_refl He). Qed.

Lemma quiet_list_collect {X Y} (g : X -> result (list Y)) (l : list X) :
  Forall (fun x => quiet (g x)) l -> quiet (list_collect g l).
Proof.
  induction 1 as [|x l Hx _ IH]; simpl; [apply quiet_Ok|].
  apply quiet_bind; [exact Hx|]. intros xs _.
  apply quiet_bind; [exact IH|]. intros rs _. apply quiet_Ok.
Qed.

Lemma quiet_tree_flatten {A} (t : tree A) (strict : bool) :
  quiet (tree_flatten t strict).
Proof.
  induction t as [x|c|l IH|l IH|d IH] using tree_ind; simpl.
  - apply quiet_Ok.
  - destruct strict; [apply quiet_Raise; discriminate | apply quiet_Ok].
  - apply quiet_list_collect. exact IH.
  - apply quiet_list_collect. exact IH.
  - apply quiet_list_collect. exact IH.
Qed.

Lemma quiet_list_traverse {X Y S} (g : X -> S -> result (Y * S))
    (l : list X) :
  Forall (fun x => forall s, quiet (g x s)) l ->
  forall s, quiet (list_traverse g l s).
Proof.
  induction 1 as [|x l Hx _ IH]; intros s; simpl; [apply quiet_Ok|].
  apply quiet_bind; [apply Hx|]. intros [y s1] _.
  apply quiet_bind; [apply IH|]. intros [r s2] _. apply quiet_Ok.
Qed.

Lemma quiet_tree_traverse {A B S} (f : A -> S -> result (B * S))
    (t : tree A) :
  (forall a s, quiet (f a s)) -> forall s, quiet (tree_traverse f t s).
Proof.
  intros Hf.
  induction t as [x|c|l IH|l IH|d IH] using tree_ind; intros s; simpl.
  - apply quiet_bind; [apply Hf|]. intros [b s'] _. apply quiet_Ok.
  - apply quiet_Ok.
  - apply quiet_bind; [apply quiet_list_traverse; exact IH|].
    intros [l' s'] _. apply quiet_Ok.
  - apply quiet_bind; [apply quiet_list_traverse; exact IH|].
    intros [l' s'] _. apply quiet_Ok.
  - apply quiet_bind.
    + apply quiet_list_traverse. eapply Forall_impl; [exact IH|].
      intros [k v] Hv s0. simpl in *.
      apply quiet_bind; [apply Hv|]. intros [v' s1] _. apply quiet_Ok.
    + intros [d' s'] _. apply quiet_Ok.
Qed.

Lemma quiet_next_value {A B} (values : list B) (a : A) (i : nat) :
  quiet (next_value values a i).
Proof.
  unfold next_value. destruct (values !! i);
    [apply quiet_Ok | apply quiet_Raise; discriminate].
Qed.

Lemma quiet_tree_unflatten (t : pyobj) (values : list array) (i : nat) :
  quiet (tree_unflatten t values i).
Proof.
  apply quiet_fmap, quiet_tree_traverse. intros a s. apply quiet_next_value.
Qed.

Lemma quiet_restore (t : pyobj) (a arrays : list array) :
  quiet (restore t a arrays).
Proof.
  apply quiet_fmap, quiet_tree_traverse. intros x i.
  unfold restore_visitor.
  destruct (a !! i); [|apply quiet_Raise; discriminate].
  destruct (_ =? _); [|apply quiet_Ok].
  destruct (arrays !! i); [apply quiet_Ok | apply quiet_Raise; discriminate].
Qed.

Lemma quiet_collect (w : grad_fun) (args : list pyobj)
    (kwargs : list (string * pyobj)) :
  quiet (collect w args kwargs).
Proof.
  assert (forall b arg c, quiet (collect_one b arg c)) as Hone.
  { intros b arg c. apply quiet_bind; [apply quiet_tree_flatten|].
    intros argsi _. apply quiet_Ok. }
  assert (forall nums l i j c, quiet (collect_args nums l i j c)) as Hargs.
  { intros nums l. induction l as [|arg rest IH]; intros i j c; simpl;
      [apply quiet_Ok|].
    apply quiet_bind; [apply Hone|]. intros c' _. apply IH. }
  assert (forall names l c, quiet (collect_kwargs names l c)) as Hkwargs.
  { intros names l. induction l as [|[key value] rest IH]; intros c; simpl;
      [apply quiet_Ok|].
    apply quiet_bind; [apply Hone|]. intros c' _. apply IH. }
  unfold collect. apply quiet_bind; [apply Hargs|]. intros c0 _.
  apply quiet_bind; [apply Hkwargs|]. intros c1 _. apply quiet_Ok.
Qed.

Lemma quiet_py_grads (w : grad_fun) (args : list pyobj)
    (kwargs : list (string * pyobj)) (gradients : list array)
    (counts : list nat) :
  quiet (py_grads w args kwargs gradients counts).
Proof.
  assert (forall n, quiet (args_at args n)) as Hat.
  { intros n. unfold args_at. destruct (arg_lookup args n);
      [apply quiet_Ok | apply quiet_Raise; discriminate]. }
  assert (forall i, quiet (count_at counts i)) as Hcount.
  { intros i. unfold count_at. destruct (counts !! i);
      [apply quiet_Ok | apply quiet_Raise; discriminate]. }
  assert (forall nums i, quiet (positional_trees args gradients counts nums i))
    as Hpos.
  { intros nums. induction nums as [|n nums IH]; intros i; simpl;
      [apply quiet_Ok|].
    apply quiet_bind; [apply Hat|]. intros arg _.
    apply quiet_bind; [apply Hcount|]. intros c _.
    apply quiet_bind; [apply quiet_tree_unflatten|]. intros g _.
    apply quiet_bind; [apply IH|]. intros gs _. apply quiet_Ok. }
  assert (forall l n i acc,
            quiet (keyword_trees (argnames w) l gradients counts n i acc))
    as Hkw.
  { intros l n. induction l as [|[k value] rest IH]; intros i acc; simpl;
      [apply quiet_Ok|].
    destruct (bool_decide (k ∈ argnames w)); [|apply IH].
    apply quiet_bind; [apply Hcount|]. intros c _.
    apply quiet_bind; [apply quiet_tree_unflatten|]. intros g _. apply IH. }
  unfold py_grads. apply quiet_bind.
  - rewrite positional_grads_trees. apply quiet_fmap, Hpos.
  - intros positional _. destruct (bool_decide _); [apply quiet_Ok|].
    apply quiet_bind; [apply Hkw|]. intros grads_ _. apply quiet_Ok.
Qed.

(** Past its input check, a call fails with an [InvalidArgumentError] only
    if the callable does. *)
Lemma quiet_call mt mg (w : grad_fun) (args : list pyobj)
    (kwargs : list (string * pyobj)) :
  quiet_callable (fun_ w) ->
  sanitize_call w args kwargs = Ok () ->
  quiet (call mt mg w args kwargs).
Proof.
  intros Hfun Hsan. unfold call. rewrite Hsan. cbn [mbind result_bind].
  apply quiet_bind; [apply quiet_collect|]. intros c _.
  apply quiet_bind.
  - unfold mx_value_and_grad. apply quiet_bind; [|intros [s outs] _; apply quiet_Ok].
    unfold traced_fun.
    apply quiet_bind; [apply quiet_tree_unflatten|]. intros tree _.
    apply quiet_bind.
    { unfold split_call_tree.
      destruct tree as [| |[|[| | |targs|] [|[| | | |tkwargs] [|]]]| |];
        first [apply quiet_Ok | apply quiet_Raise; discriminate]. }
    intros [targs tkwargs] _.
    apply quiet_bind; [apply Hfun|]. intros [[targs' tkwargs'] out] _.
    apply quiet_bind; [apply quiet_restore|]. intros tree' _.
    apply quiet_bind.
    { unfold validate_return. destruct (is_array out); [apply quiet_Ok|].
      destruct (scalar_func_only w); [apply quiet_Raise; discriminate|].
      destruct out as [| | |[|r0 rest]|];
        try (apply quiet_Raise; discriminate).
      destruct (is_array r0); [apply quiet_Ok | apply quiet_Raise; discriminate]. }
    intros [] _.
    apply quiet_bind; [apply quiet_tree_flatten|]. intros outs _.
    apply quiet_Ok.
  - intros [[tree out] [value gradients]] _.
    apply quiet_bind.
    { unfold split_call_tree.
      destruct tree as [| |[|[| | |targs|] [|[| | | |tkwargs] [|]]]| |];
        first [apply quiet_Ok | apply quiet_Raise; discriminate]. }
    intros [args' kwargs'] _.
    apply quiet_bind; [apply quiet_py_grads|]. intros g _.
    apply quiet_bind; [apply quiet_tree_unflatten|]. intros rv _.
    apply quiet_Ok.
Qed.

End QuietFacts.

(** ** Rejected selections *)

Module SelectionFacts.
Import Trees Grad Samples GradFacts QuietFacts.

Lemma call_raises_of_sanitize mt mg w args kwargs c :
  raises (sanitize_call w args kwargs) c -> raises (call mt mg w args kwargs) c.
Proof. intros H. unfold call. apply raises_bind. exact H. Qed.

(** C6, as the code has it: building a [grad] / [value_and_grad] wrapper
    raises an [InvalidArgumentError] exactly when the resolved selection is
    empty, contains a negative index, or contains an index twice.  Calling
    the wrapper raises an [InvalidArgumentError] exactly when a selected
    index is greater than or equal to the number of positional arguments
    supplied (not only when it exceeds that number), or a selected name is
    missing from the keyword arguments: in these cases the input check
    fails, and in every other case the input check passes and the rest of
    the call raises no [InvalidArgumentError] unless the callable itself
    does.  The indices are C++ [int]s. *)
Theorem selection_rejected_exactly (f : callable) (nums : list Z)
    (names : gset string) (tag : string) (sfo : bool) :
  Forall in_int nums ->
  (empty_selection nums names \/ negative_index nums \/ duplicate_index nums ->
   raises (py_value_and_grad f nums names tag sfo) InvalidArgumentError) /\
  (~ (empty_selection nums names \/ negative_index nums
      \/ duplicate_index nums) ->
   exists w, py_value_and_grad f nums names tag sfo = Ok w /\
     forall args kwargs,
       (index_out_of_range nums args \/ missing_name names kwargs ->
        raises (sanitize_call w args kwargs) InvalidArgumentError /\
        forall mt mg, raises (call mt mg w args kwargs) InvalidArgumentError)
       /\
       (~ (index_out_of_range nums args \/ missing_name names kwargs) ->
        sanitize_call w args kwargs = Ok () /\
        forall mt mg,
          quiet_callable f ->
          ~ raises (call mt mg w args kwargs) InvalidArgumentError)).
Proof.
  intros Hint. split; [apply wrap_rejects|].
  intros Hgood.
  destruct (wrap_accepts f nums names tag sfo) as [Hw Hcanon]; [tauto..|].
  eexists. split; [exact Hw|]. intros args kwargs.
  destruct (sanitize_call_spec
              (mk_grad_fun f (merge_sort Z.le nums) names tag sfo)
              nums args kwargs Hint Hcanon) as [Hrej Hacc].
  split.
  - intros Hbad. split; [exact (Hrej Hbad)|].
    intros mt mg. apply call_raises_of_sanitize. exact (Hrej Hbad).
  - intros Hok. split; [exact (Hacc Hok)|].
    intros mt mg Hquiet. apply quiet_not_raises, quiet_call.
    + exact Hquiet.
    + exact (Hacc Hok).
Qed.

Lemma selection_rejected_exactly_witness :
  (empty_selection [1; 0] ∅ \/ negative_index [1; 0]
   \/ duplicate_index [1; 0] ->
   raises (py_value_and_grad first_argument [1; 0] ∅ "[grad]" true)
     InvalidArgumentError) /\
  (~ (empty_selection [1; 0] ∅ \/ negative_index [1; 0]
      \/ duplicate_index [1; 0]) ->
   exists w, py_value_and_grad first_argument [1; 0] ∅ "[grad]" true = Ok w /\
     forall args kwargs,
       (index_out_of_range [1; 0] args \/ missing_name ∅ kwargs ->
        raises (sanitize_call w args kwargs) InvalidArgumentError /\
        forall mt mg, raises (call mt mg w args kwargs) InvalidArgumentError)
       /\
       (~ (index_out_of_range [1; 0] args \/ missing_name ∅ kwargs) ->
        sanitize_call w args kwargs = Ok () /\
        forall mt mg,
          quiet_callable first_argument ->
          ~ raises (call mt mg w args kwargs) InvalidArgumentError)).
Proof.
  apply (selection_rejected_exactly first_argument [1; 0] ∅ "[grad]" true).
  repeat constructor; unfold in_int, int_min, int_max; simpl; lia.
Defined.

(** C6 as stated fails: with [argnums = [1]] and a single positional
    argument the selected index does not exceed the number of positional
    arguments (1), and no keyword name is selected, yet the call is
    rejected. *)
Lemma index_equal_to_count_rejected :
  (exists w,
      py_value_and_grad first_argument [1] ∅ "[grad]" true = Ok w /\
      sanitize_call w [TArr scalar_a] []
      = Raise (argument_index_out_of_range 1 1))
  /\ Forall (fun i => i <= Z.of_nat (length [TArr scalar_a])) [1]
  /\ elements (∅ : gset string) = [].
Proof.
  split; [|split].
  - exists (mk_grad_fun first_argument [1] ∅ "[grad]" true).
    split; vm_compute; reflexivity.
  - repeat constructor. simpl. lia.
  - apply elements_empty.
Qed.

End SelectionFacts.

(** ** Resolving vectorization axes *)

Module VmapFacts.
Import Trees Vmap Samples.







(** On a rank-2 tensor the input axis [-1] resolves to [1], the input axis
    [2] is rejected, and the output axes [2] and [-3] are accepted. *)
Lemma axis_examples :
  axes_to_flat_tree (TArr matrix) (TConst (CInt (-1))) false = Ok [1]
  /\ axes_to_flat_tree (TArr matrix) (TConst (CInt 2)) false
     = Raise (invalid_vectorization_axis false 2)
  /\ axes_to_flat_tree (TArr matrix) (TConst (CInt 2)) true = Ok [2]
  /\ axes_to_flat_tree (TArr matrix) (TConst (CInt (-3))) true = Ok [0].
Proof. repeat split. Qed.


End VmapFacts.

(** ** Custom functions without overrides *)

Module CustomFacts.
Import Trees Custom Samples.

(** C9: a [custom_function] wrapper on which no vjp, jvp or vmap override
    has been registered returns exactly what the wrapped callable returns
    for the same positional and keyword arguments (including its failure,
    if it fails), and does nothing else: it neither flattens its inputs,
    nor goes through the primitive layer, nor records an output
    structure. *)
Theorem no_override_is_direct_call
    (custom_outputs : list array -> list array -> list array)
    (w : PyCustomFunction) (args : list pyobj)
    (kwargs : list (string * pyobj)) :
  vjp_fun_ w = None -> jvp_fun_ w = None -> vmap_fun_ w = None ->
  returned <$> call_impl custom_outputs w args kwargs = fun_ w args kwargs /\
  events <$> call_impl custom_outputs w args kwargs
  = (fun _ => []) <$> fun_ w args kwargs.
Proof.
  intros Hvjp Hjvp Hvmap. unfold call_impl.
  rewrite Hvjp, Hjvp, Hvmap. simpl.
  destruct (fun_ w args kwargs); split; reflexivity.
Qed.

Lemma no_override_is_direct_call_witness :
  returned <$> call_impl (fun _ outs => outs)
                 (mk_custom pairs_up None None None)
                 [TArr (mk_array 31 [2])] []
  = pairs_up [TArr (mk_array 31 [2])] [] /\
  events <$> call_impl (fun _ outs => outs)
               (mk_custom pairs_up None None None)
               [TArr (mk_array 31 [2])] []
  = (fun _ => []) <$> pairs_up [TArr (mk_array 31 [2])] [].
Proof.
  apply (no_override_is_direct_call (fun _ outs => outs)
           (mk_custom pairs_up None None None)
           [TArr (mk_array 31 [2])] []); reflexivity.
Defined.

(** With an override registered the same call goes through the codec and
    the primitive layer. *)
Lemma override_goes_through_codec :
  events <$> call_impl (fun _ outs => outs)
               (set_vjp (mk_custom first_argument None None None) pairs_up)
               [TArr (mk_array 31 [2])] []
  = Ok [flattened_inputs; traced_custom_function;
        recorded_output_structure (TArr tt)].
Proof. reflexivity. Qed.

End CustomFacts.
(** ** More on flattening and unflattening *)

Module CodecFacts.
Import Trees TreesFacts PackagingFacts.

Lemma is_ok_bind {A B} (m : result A) (k : A -> result B) :
  is_ok (m ≫= k) = match m with Ok a => is_ok (k a) | Raise _ => false end.
Proof. destruct m; reflexivity. Qed.

Lemma list_collect_cons {X Y} (g : X -> result (list Y)) (x : X) (l : list X) :
  list_collect g (x :: l) = ys ← g x; rs ← list_collect g l; Ok (ys ++ rs).
Proof. reflexivity. Qed.

Lemma list_collect_app {X Y} (g : X -> result (list Y)) (l1 l2 : list X) :
  list_collect g (l1 ++ l2)
  = ys1 ← list_collect g l1; ys2 ← list_collect g l2; Ok (ys1 ++ ys2).
Proof.
  induction l1 as [|x l1 IH]; simpl.
  - destruct (list_collect g l2); reflexivity.
  - destruct (g x) as [ys|]; [|reflexivity]. simpl. rewrite IH.
    destruct (list_collect g l1) as [ys1|]; [|reflexivity]. simpl.
    destruct (list_collect g l2) as [ys2|]; [|reflexivity]. simpl.
    rewrite (assoc_L (++)). reflexivity.
Qed.

Lemma list_collect_raise {X Y} (g : X -> result (list Y)) (l : list X) e0 :
  Forall (fun x => forall e, g x = Raise e -> e = e0) l ->
  forall e, list_collect g l = Raise e -> e = e0.
Proof.
  induction 1 as [|x l Hx _ IH]; intros e H; simpl in H; [discriminate|].
  destruct (g x) as [ys|e1] eqn:Hg; simpl in H.
  - destruct (list_collect g l) as [rs|e2]; simpl in H; [discriminate|].
    injection H as <-. apply IH. reflexivity.
  - injection H as <-. apply Hx. reflexivity.
Qed.

(** Flattening fails in one way only: on a leaf that is not an array. *)
Lemma tree_flatten_raise {A} (t : tree A) (strict : bool) (e : exn) :
  tree_flatten t strict = Raise e -> e = tree_leaf_not_array.
Proof.
  revert e.
  induction t as [a|c|l IH|l IH|d IH] using tree_ind; intros e H; simpl in H.
  - discriminate.
  - destruct strict; [|discriminate]. injection H as <-. reflexivity.
  - exact (list_collect_raise _ l _ IH e H).
  - exact (list_collect_raise _ l _ IH e H).
  - exact (list_collect_raise _ d _ IH e H).
Qed.

Lemma tree_structure_idem {A} (t : tree A) :
  tree_structure (tree_structure t) = tree_structure t.
Proof.
  induction t as [a|c|l IH|l IH|d IH] using tree_ind; simpl;
    try reflexivity; f_equal.
  - induction IH as [|x l Hx _ IHl]; simpl; [reflexivity|].
    rewrite Hx, IHl. reflexivity.
  - induction IH as [|x l Hx _ IHl]; simpl; [reflexivity|].
    rewrite Hx, IHl. reflexivity.
  - induction IH as [|[k x] d Hx _ IHd]; simpl; [reflexivity|].
    simpl in Hx. rewrite Hx, IHd. reflexivity.
Qed.

(** What is rebuilt from a descriptor has the tree shape the descriptor
    was taken from. *)
Lemma unflatten_from_structure_shape {A} (t : tree A) (values : list array)
    (i : nat) (t' : pyobj) :
  tree_unflatten_from_structure (tree_structure t) values i = Ok t' ->
  shaped_like t t'.
Proof.
  unfold tree_unflatten_from_structure. intros H.
  apply fmap_Ok in H as ([t0 i0] & H & ->). simpl. unfold shaped_like.
  rewrite (tree_unflatten_from_structure_eq _ _ _ _ _ H).
  apply tree_structure_idem.
Qed.

Lemma take_drop_next {X} (values : list X) (i n m : nat) :
  take n (drop i values) ++ take m (drop (i + n) values)
  = take (n + m) (drop i values).
Proof. rewrite <- drop_drop. apply take_take_drop. Qed.

(** *** Reading a template from a list of values *)

Lemma list_fills {A} (l : list (tree A)) :
  Forall fills l ->
  forall (values : list array) (i : nat),
  (i + sum_list (map num_arrays l) <= length values)%nat ->
  exists l',
    list_traverse (tree_traverse (next_value values)) l i
    = Ok (l', (i + sum_list (map num_arrays l))%nat) /\
    list_collect (fun x => tree_flatten x false) l'
    = Ok (take (sum_list (map num_arrays l)) (drop i values)).
Proof.
  induction 1 as [|x l Hx _ IH]; intros values i Hlen; simpl in *.
  - exists []. simpl. rewrite Nat.add_0_r. auto.
  - destruct (Hx values i) as (x' & Hfill & Hflat); [lia|].
    destruct (IH values (i + num_arrays x)%nat) as (l' & Hfills & Hflats);
      [lia|].
    unfold tree_unflatten_from in Hfill.
    exists (x' :: l'). rewrite Hfill. simpl. rewrite Hfills. simpl.
    rewrite Hflat. simpl. rewrite Hflats. simpl.
    rewrite take_drop_next, Nat.add_assoc. auto.
Qed.

Lemma dict_fills {A} (d : list (string * tree A)) :
  Forall (fun kv => fills kv.2) d ->
  forall (values : list array) (i : nat),
  (i + sum_list (map (fun kv => num_arrays kv.2) d) <= length values)%nat ->
  exists d',
    list_traverse
      (fun (kv : string * tree A) s0 =>
         '(v, s1) ← tree_traverse (next_value values) kv.2 s0;
         Ok ((kv.1, v), s1)) d i
    = Ok (d', (i + sum_list (map (fun kv => num_arrays kv.2) d))%nat) /\
    list_collect (fun kv : string * pyobj => tree_flatten kv.2 false) d'
    = Ok (take (sum_list (map (fun kv => num_arrays kv.2) d)) (drop i values)).
Proof.
  induction 1 as [|[k x] d Hx _ IH]; intros values i Hlen; simpl in *.
  - exists []. simpl. rewrite Nat.add_0_r. auto.
  - destruct (Hx values i) as (x' & Hfill & Hflat); [lia|].
    destruct (IH values (i + num_arrays x)%nat) as (d' & Hfills & Hflats);
      [lia|].
    unfold tree_unflatten_from in Hfill.
    exists ((k, x') :: d'). split.
    + rewrite Hfill. simpl. rewrite Hfills. simpl.
      rewrite Nat.add_assoc. reflexivity.
    + simpl. rewrite Hflat. simpl. rewrite Hflats. simpl.
      rewrite take_drop_next. reflexivity.
Qed.

Lemma tree_fills {A} (t : tree A) : fills t.
Proof.
  induction t as [a|c|l IH|l IH|d IH] using tree_ind; intros values i Hlen;
    unfold tree_unflatten_from; simpl in *.
  - destruct (lookup_lt_is_Some_2 values i ltac:(lia)) as [v Hv].
    exists (TArr v). unfold next_value. rewrite Hv. simpl.
    rewrite (drop_S _ _ _ Hv). simpl. rewrite take_0.
    replace (i + 1)%nat with (S i) by lia. auto.
  - exists (TConst c). rewrite Nat.add_0_r. auto.
  - destruct (list_fills l IH values i Hlen) as (l' & -> & Hflat).
    exists (TList l'). auto.
  - destruct (list_fills l IH values i Hlen) as (l' & -> & Hflat).
    exists (TTuple l'). auto.
  - destruct (dict_fills d IH values i Hlen) as (d' & -> & Hflat).
    exists (TDict d'). auto.
Qed.

(** A tree is determined by its structure and its tensors. *)
Lemma same_structure_same_leaves (t t' : pyobj) (leaves : list array) :
  tree_structure t' = tree_structure t ->
  tree_flatten t false = Ok leaves ->
  tree_flatten t' false = Ok leaves ->
  t' = t.
Proof.
  intros Hs Ht Ht'.
  assert (tree_flatten_with_structure t false = Ok (leaves, tree_structure t))
    as H by (unfold tree_flatten_with_structure; rewrite Ht; reflexivity).
  assert (tree_flatten_with_structure t' false = Ok (leaves, tree_structure t))
    as H' by (unfold tree_flatten_with_structure; rewrite Ht', Hs; reflexivity).
  apply unflatten_flatten_with_structure in H, H'.
  rewrite H in H'. injection H' as ->. reflexivity.
Qed.

End CodecFacts.

(** ** Building a gradient wrapper *)

Module WrapFacts.
Import Trees Grad GradFacts TreesFacts PackagingFacts Samples.

(** X1: when [argnums] is not given, wrapping never fails.  With no names
    either the first positional argument is selected; with names, a single
    string or a non-empty set, no positional argument is selected and the
    names are.  An [argnums] that is given but empty, with no names, is
    rejected with "Gradient wrt no argument requested".  [value_and_grad]
    and [grad] resolve the selection alike and differ in the tag and in
    the scalar-only mode. *)
Theorem default_selection (f : callable) :
  value_and_grad f None (a_set ∅)
  = Ok (mk_grad_fun f [0] ∅ "[value_and_grad]" false) /\
  grad f None (a_set ∅) = Ok (mk_grad_fun f [0] ∅ "[grad]" true) /\
  (forall name : string,
     value_and_grad f None (a_str name)
     = Ok (mk_grad_fun f [] {[ name ]} "[value_and_grad]" false) /\
     grad f None (a_str name) = Ok (mk_grad_fun f [] {[ name ]} "[grad]" true)) /\
  (forall names : gset string, names <> ∅ ->
     value_and_grad f None (a_set names)
     = Ok (mk_grad_fun f [] names "[value_and_grad]" false) /\
     grad f None (a_set names) = Ok (mk_grad_fun f [] names "[grad]" true)) /\
  value_and_grad f (Some (a_vec [])) (a_set ∅) = Raise no_argument_requested /\
  grad f (Some (a_vec [])) (a_set ∅) = Raise no_argument_requested.
Proof.
  assert (forall names : gset string, names <> ∅ ->
     value_and_grad f None (a_set names)
     = Ok (mk_grad_fun f [] names "[value_and_grad]" false) /\
     grad f None (a_set names) = Ok (mk_grad_fun f [] names "[grad]" true))
    as Hnames.
  { intros names Hne.
    unfold value_and_grad, grad, validate_argnums_argnames.
    rewrite (bool_decide_eq_false_2 _ Hne).
    unfold py_value_and_grad. simpl.
    assert (size names <> 0%nat) as Hsz.
    { intros Hsz. apply Hne. apply size_empty_inv in Hsz.
      by apply leibniz_equiv. }
    rewrite (bool_decide_eq_false_2 _ Hsz). simpl. auto. }
  split; [reflexivity|]. split; [reflexivity|].
  split; [|split; [exact Hnames|split; reflexivity]].
  intros name.
  assert (({[ name ]} : gset string) <> ∅) as Hne.
  { intros Heq. apply (not_elem_of_empty (C:=gset string) name).
    rewrite <- Heq. apply elem_of_singleton. reflexivity. }
  destruct (Hnames _ Hne) as [Hv Hg].
  unfold value_and_grad, grad, validate_argnums_argnames in *.
  rewrite (bool_decide_eq_false_2 _ Hne) in *. auto.
Qed.

Lemma merge_sort_permutation_eq (nums1 nums2 : list Z) :
  nums1 ≡ₚ nums2 -> merge_sort Z.le nums1 = merge_sort Z.le nums2.
Proof.
  intros Hp. apply (StronglySorted_unique Z.le).
  - apply merge_sort_strongly_sorted.
  - apply merge_sort_strongly_sorted.
  - rewrite !merge_sort_Permutation. exact Hp.
Qed.

(** The sanitizing loop comes down to one round on a non-empty vector. *)
Lemma py_value_and_grad_rounds f nums names tag sfo :
  py_value_and_grad f nums names tag sfo
  = if bool_decide (length nums = 0%nat) && bool_decide (size names = 0%nat)
    then Raise no_argument_requested
    else argnums ← (match nums with [] => Ok [] | _ => sanitize_round nums end);
         Ok (mk_grad_fun f argnums names tag sfo).
Proof.
  unfold py_value_and_grad.
  destruct (bool_decide _ && bool_decide _); [reflexivity|].
  destruct nums as [|n nums]; [reflexivity|].
  rewrite sanitize_rounds by discriminate. reflexivity.
Qed.

(** X2: the order in which the indices are requested does not matter.
    Two requests with the same indices in another order give the same
    result, wrapper or exception; and a wrapper keeps the requested indices
    in ascending order, each once, none negative. *)
Theorem selection_order_irrelevant (f : callable) (nums1 nums2 : list Z)
    (names : gset string) (tag : string) (sfo : bool) :
  nums1 ≡ₚ nums2 ->
  py_value_and_grad f nums1 names tag sfo
  = py_value_and_grad f nums2 names tag sfo /\
  forall w, py_value_and_grad f nums1 names tag sfo = Ok w ->
    argnums w ≡ₚ nums1 /\ StronglySorted Z.lt (argnums w)
    /\ Forall (Z.le 0) (argnums w).
Proof.
  intros Hp. split.
  - rewrite !py_value_and_grad_rounds.
    rewrite (Permutation_length Hp).
    destruct (bool_decide _ && bool_decide _); [reflexivity|].
    destruct nums1 as [|n1 r1].
    + apply Permutation_nil_l in Hp. subst nums2. reflexivity.
    + destruct nums2 as [|n2 r2].
      { symmetry in Hp. apply Permutation_nil_l in Hp. discriminate. }
      unfold sanitize_round.
      rewrite (merge_sort_permutation_eq _ _ Hp). reflexivity.
  - intros w Hw.
    destruct (wrapper_canonical _ _ _ _ _ _ Hw) as [(Heq & Hsorted & Hpos) _].
    split; [|split; assumption].
    rewrite Heq. apply merge_sort_Permutation.
Qed.

(** [grad(f, argnums=[2, 0, 1])] and [grad(f, argnums=[0, 1, 2])]. *)
Lemma selection_order_irrelevant_witness :
  py_value_and_grad first_argument [2; 0; 1] ∅ "[grad]" true
  = py_value_and_grad first_argument [0; 1; 2] ∅ "[grad]" true /\
  forall w, py_value_and_grad first_argument [2; 0; 1] ∅ "[grad]" true = Ok w ->
    argnums w ≡ₚ [2; 0; 1] /\ StronglySorted Z.lt (argnums w)
    /\ Forall (Z.le 0) (argnums w).
Proof.
  apply (selection_order_irrelevant first_argument [2; 0; 1] [0; 1; 2]).
  change [2; 0; 1] with ([2] ++ [0; 1]).
  change [0; 1; 2] with ([0; 1] ++ [2]).
  apply Permutation_app_comm.
Defined.

Lemma sorted_head_least (a0 : Z) (r : list Z) :
  StronglySorted Z.le (a0 :: r) -> forall j, j ∈ a0 :: r -> a0 <= j.
Proof.
  intros Hs j Hj. apply StronglySorted_inv in Hs as [_ Hall].
  apply elem_of_cons in Hj as [-> | Hj]; [lia|].
  rewrite Forall_forall in Hall. apply Hall. exact Hj.
Qed.

(** X3: what a rejection at wrap time reports.  Besides "no argument
    requested" for an empty selection, the exception is "negative argument
    index" or "Duplicate argument index", and in both the index it names
    is [argnums[0]] of the sorted vector: the least of the requested
    indices.  It is negative in the first case; in the second it is not,
    and some index is requested twice (not necessarily the one named). *)
Theorem rejection_names_least_index (f : callable) (nums : list Z)
    (names : gset string) (tag : string) (sfo : bool) (e : exn) :
  py_value_and_grad f nums names tag sfo = Raise e ->
  (e = no_argument_requested /\ nums = [] /\ names = ∅) \/
  exists i,
    i ∈ nums /\ (forall j, j ∈ nums -> i <= j) /\
    (e = negative_argument_index i /\ i < 0 \/
     e = duplicate_argument_index i /\ 0 <= i /\ ~ NoDup nums).
Proof.
  rewrite py_value_and_grad_rounds. intros H.
  destruct (bool_decide _ && bool_decide _) eqn:Hempty.
  - left. injection H as <-.
    apply empty_selection_test in Hempty as [-> ->]. auto.
  - right. destruct nums as [|n nums]; [discriminate|].
    unfold sanitize_round in H.
    pose proof (merge_sort_strongly_sorted (n :: nums)) as Hs.
    pose proof (merge_sort_Permutation Z.le (n :: nums)) as Hp.
    destruct (merge_sort Z.le (n :: nums)) as [|a0 r] eqn:E; [discriminate|].
    exists a0. split; [|split].
    + rewrite <- Hp. apply elem_of_cons. auto.
    + intros j Hj. rewrite <- Hp in Hj. exact (sorted_head_least a0 r Hs j Hj).
    + destruct (Z.ltb_spec a0 0) as [Hlt|Hge].
      * left. simpl in H. injection H as <-. auto.
      * right. destruct (adjacent_equal (a0 :: r)) eqn:Hadj;
          [|discriminate].
        simpl in H. injection H as <-. split; [reflexivity|].
        split; [exact Hge|].
        intros Hnd. apply (adjacent_equal_true _ Hadj).
        rewrite Hp. exact Hnd.
Qed.

(** [grad(f, argnums=[0, 2, 1, 2])] is rejected with "Duplicate argument
    index 0". *)
Lemma rejection_names_least_index_witness :
  (duplicate_argument_index 0 = no_argument_requested
   /\ [0; 2; 1; 2] = [] /\ (∅ : gset string) = ∅) \/
  exists i,
    i ∈ [0; 2; 1; 2] /\ (forall j, j ∈ [0; 2; 1; 2] -> i <= j) /\
    (duplicate_argument_index 0 = negative_argument_index i /\ i < 0 \/
     duplicate_argument_index 0 = duplicate_argument_index i /\ 0 <= i
     /\ ~ NoDup [0; 2; 1; 2]).
Proof.
  apply (rejection_names_least_index first_argument [0; 2; 1; 2] ∅
           "[grad]" true).
  vm_compute. reflexivity.
Defined.

End WrapFacts.
(** ** Collecting the inputs of a gradient call *)

Module CollectFacts.
Import Trees Grad GradFacts TreesFacts PackagingFacts RestoreFacts Samples.
Import CodecFacts.

(** *** One argument *)

Lemma collect_one_inv (needs_grad : bool) (arg : pyobj) (c c' : collected) :
  collect_one needs_grad arg c = Ok c' ->
  exists leaves,
    tree_flatten arg needs_grad = Ok leaves /\
    arrays c' = arrays c ++ leaves /\
    counts c' = counts c ++ (if needs_grad then [length leaves] else []) /\
    gradient_indices c'
    = gradient_indices c
      ++ (if needs_grad then seq (length (arrays c)) (length leaves) else []).
Proof.
  unfold collect_one. intros H.
  apply bind_Ok in H as (argsi & Hflat & [= <-]).
  exists argsi. destruct needs_grad; simpl; rewrite ?app_nil_r; auto.
Qed.


Lemma seq_strongly_sorted (start len : nat) :
  StronglySorted lt (seq start len).
Proof.
  revert start. induction len as [|len IH]; intros start; simpl;
    constructor; [apply IH|].
  apply Forall_forall. intros i Hi. apply elem_of_seq in Hi. lia.
Qed.

Lemma collect_one_well (needs_grad : bool) (arg : pyobj) (c c' : collected) :
  well_collected c -> collect_one needs_grad arg c = Ok c' -> well_collected c'.
Proof.
  intros (Hsorted & Hbound & Hsum) H.
  apply collect_one_inv in H as (leaves & _ & Harr & Hcnt & Hgi).
  unfold well_collected. rewrite Harr, Hcnt, Hgi, length_app.
  destruct needs_grad.
  - split; [|split].
    + apply StronglySorted_app_2; [|exact Hsorted|apply seq_strongly_sorted].
      intros i1 i2 Hi1 Hi2. apply elem_of_seq in Hi2.
      rewrite Forall_forall in Hbound. specialize (Hbound _ Hi1). lia.
    + apply Forall_app. split.
      * eapply Forall_impl; [exact Hbound|]. simpl. intros; lia.
      * apply Forall_forall. intros i Hi. apply elem_of_seq in Hi. lia.
    + rewrite sum_list_with_app, length_app, length_seq. simpl. lia.
  - rewrite !app_nil_r. split; [exact Hsorted|]. split; [|exact Hsum].
    eapply Forall_impl; [exact Hbound|]. simpl. intros; lia.
Qed.

Lemma collect_args_well (argnums : list Z) (args : list pyobj) :
  forall (i j : nat) (c c' : collected),
  well_collected c -> collect_args argnums args i j c = Ok c' ->
  well_collected c'.
Proof.
  induction args as [|arg rest IH]; intros i j c c' Hc H; simpl in H.
  - injection H as <-. exact Hc.
  - apply bind_Ok in H as (c1 & Hone & H).
    eapply IH; [|exact H]. eapply collect_one_well; eassumption.
Qed.

Lemma collect_kwargs_well (argnames : gset string)
    (kwargs : list (string * pyobj)) :
  forall c c' : collected,
  well_collected c -> collect_kwargs argnames kwargs c = Ok c' ->
  well_collected c'.
Proof.
  induction kwargs as [|[key value] rest IH]; intros c c' Hc H; simpl in H.
  - injection H as <-. exact Hc.
  - apply bind_Ok in H as (c1 & Hone & H).
    eapply IH; [|exact H]. eapply collect_one_well; eassumption.
Qed.

Lemma partial_sum_from_last (l : list nat) :
  forall acc x, last (partial_sum_from acc (x :: l))
                = Some (acc + sum_list (x :: l))%nat.
Proof.
  induction l as [|y l IH]; intros acc x.
  - simpl. f_equal. lia.
  - change (partial_sum_from acc (x :: y :: l))
      with ((acc + x)%nat :: partial_sum_from (acc + x) (y :: l)).
    rewrite last_cons, IH. simpl. f_equal. lia.
Qed.

Lemma collect_args_head (argnums : list Z) (args : list pyobj) :
  forall (i j : nat) (c c' : collected),
  collect_args argnums args i j c = Ok c' ->
  exists more, counts c' = counts c ++ more.
Proof.
  induction args as [|arg rest IH]; intros i j c c' H; simpl in H.
  - injection H as <-. exists []. rewrite app_nil_r. reflexivity.
  - apply bind_Ok in H as (c1 & Hone & H).
    apply collect_one_inv in Hone as (leaves & _ & _ & Hcnt & _).
    apply IH in H as (more & ->). rewrite Hcnt, <- (assoc_L (++)). eauto.
Qed.

Lemma collect_kwargs_head (argnames : gset string)
    (kwargs : list (string * pyobj)) :
  forall c c' : collected,
  collect_kwargs argnames kwargs c = Ok c' ->
  exists more, counts c' = counts c ++ more.
Proof.
  induction kwargs as [|[key value] rest IH]; intros c c' H; simpl in H.
  - injection H as <-. exists []. rewrite app_nil_r. reflexivity.
  - apply bind_Ok in H as (c1 & Hone & H).
    apply collect_one_inv in Hone as (leaves & _ & _ & Hcnt & _).
    apply IH in H as (more & ->). rewrite Hcnt, <- (assoc_L (++)). eauto.
Qed.


Lemma collect_well (w : grad_fun) (args : list pyobj)
    (kwargs : list (string * pyobj)) (c : collected) :
  collect w args kwargs = Ok c ->
  StronglySorted lt (gradient_indices c) /\
  Forall (fun i => (i < length (arrays c))%nat) (gradient_indices c) /\
  head (counts c) = Some 0%nat /\
  last (counts c) = Some (length (gradient_indices c)).
Proof.
  unfold collect. intros H.
  apply bind_Ok in H as (c0 & Hargs & H).
  apply bind_Ok in H as (c1 & Hkwargs & [= <-]). simpl.
  assert (well_collected (mk_collected [] [0%nat] [])) as Hinit.
  { repeat split; constructor. }
  pose proof (collect_args_well _ _ _ _ _ _ Hinit Hargs) as Hw0.
  pose proof (collect_kwargs_well _ _ _ _ Hw0 Hkwargs)
    as (Hsorted & Hbound & Hsum).
  apply collect_args_head in Hargs as (more0 & Hc0).
  apply collect_kwargs_head in Hkwargs as (more1 & Hc1).
  rewrite Hc0 in Hc1. simpl in Hc1.
  split; [exact Hsorted|]. split; [exact Hbound|].
  rewrite Hc1 in *. unfold partial_sum.
  rewrite partial_sum_from_last. simpl. split; [reflexivity|].
  f_equal. simpl in Hsum. lia.
Qed.

(** X4: what "Collect the arrays" hands to the primitive layer.  The flat
    inputs are the tensors of the whole call, positional arguments first
    and keyword arguments after them, selected or not; the gradient
    indices are ascending positions of that list; and [counts] starts at 0
    and ends at the number of gradient indices. *)
Theorem collected_inputs_and_indices (w : grad_fun) (args : list pyobj)
    (kwargs : list (string * pyobj)) (c : collected) :
  collect w args kwargs = Ok c ->
  tree_flatten (call_tree args kwargs) false = Ok (arrays c) /\
  StronglySorted lt (gradient_indices c) /\
  Forall (fun i => (i < length (arrays c))%nat) (gradient_indices c) /\
  head (counts c) = Some 0%nat /\
  last (counts c) = Some (length (gradient_indices c)).
Proof.
  intros Hc. split; [exact (collect_arrays _ _ _ _ Hc)|].
  exact (collect_well _ _ _ _ Hc).
Qed.

(** The sample call [f(a, [b, c], k=d)] with all three arguments
    selected. *)
Lemma collected_inputs_and_indices_witness :
  tree_flatten (call_tree sample_args sample_kwargs) false
  = Ok (arrays sample_collected) /\
  StronglySorted lt (gradient_indices sample_collected) /\
  Forall (fun i => (i < length (arrays sample_collected))%nat)
    (gradient_indices sample_collected) /\
  head (counts sample_collected) = Some 0%nat /\
  last (counts sample_collected)
  = Some (length (gradient_indices sample_collected)).
Proof.
  apply (collected_inputs_and_indices sample_wrapper sample_args
           sample_kwargs sample_collected).
  vm_compute. reflexivity.
Defined.



(** *** The differentiated positions *)

Lemma seq_reads (pre l post : list array) :
  Forall2 (fun i x => (pre ++ l ++ post) !! i = Some x)
    (seq (length pre) (length l)) l.
Proof.
  revert pre. induction l as [|x l IH]; intros pre; simpl; constructor.
  - rewrite lookup_app_r by lia.
    replace (length pre - length pre)%nat with 0%nat by lia. reflexivity.
  - specialize (IH (pre ++ [x])). rewrite length_app in IH. simpl in IH.
    replace (length pre + 1)%nat with (S (length pre)) in IH by lia.
    rewrite <- (assoc_L (++)) in IH. exact IH.
Qed.

Lemma reads_weaken (l more : list array) (idx : list nat)
    (leaves : list array) :
  Forall2 (fun i x => l !! i = Some x) idx leaves ->
  Forall2 (fun i x => (l ++ more) !! i = Some x) idx leaves.
Proof.
  intros H. eapply Forall2_impl; [exact H|]. simpl.
  intros i x Hi. apply lookup_app_l_Some. exact Hi.
Qed.

Lemma collect_args_targets (argnums : list Z) (args : list pyobj) :
  forall (done : list pyobj) (j : nat) (c c' : collected),
  StronglySorted Z.lt (drop j argnums) ->
  Forall (fun n => Z.of_nat (length done) <= n
                   < Z.of_nat (length (done ++ args))) (drop j argnums) ->
  collect_args argnums args (length done) j c = Ok c' ->
  exists idx leaves more,
    gradient_indices c' = gradient_indices c ++ idx /\
    arrays c' = arrays c ++ more /\
    list_collect (fun t => tree_flatten t true)
      (selected_positional (drop j argnums) (done ++ args)) = Ok leaves /\
    Forall2 (fun i x => arrays c' !! i = Some x) idx leaves.
Proof.
  induction args as [|arg rest IH]; intros done j c c' Hsorted Hrange H;
    simpl in H.
  - injection H as <-. exists [], [], []. rewrite !app_nil_r.
    split; [reflexivity|]. split; [reflexivity|]. split; [|constructor].
    destruct (drop j argnums) as [|n tl]; [reflexivity|].
    apply Forall_inv in Hrange. rewrite app_nil_r in Hrange. lia.
  - apply bind_Ok in H as (c1 & Hone & H).
    apply collect_one_inv in Hone as (leaves0 & Hflat & Harr & _ & Hgi).
    replace (S (length done)) with (length (done ++ [arg])) in H
      by (rewrite length_app; simpl; lia).
    replace (done ++ arg :: rest) with ((done ++ [arg]) ++ rest) in *
      by (rewrite <- (assoc_L (++)); reflexivity).
    destruct (bool_decide_reflect
                (argnums !! j = Some (Z.of_nat (length done)))) as [Hj | Hj].
    + rewrite (drop_S _ _ _ Hj) in *.
      apply StronglySorted_inv in Hsorted as [Hsorted Hhead].
      apply IH in H as (idx & leaves & more & Hgi' & Harr' & Hsel & Hread);
        [|exact Hsorted|].
      * exists (seq (length (arrays c)) (length leaves0) ++ idx),
          (leaves0 ++ leaves), (leaves0 ++ more).
        split; [rewrite Hgi', Hgi, <- (assoc_L (++)); reflexivity|].
        split; [rewrite Harr', Harr, <- (assoc_L (++)); reflexivity|].
        split.
        -- rewrite <- (assoc_L (++)).
           rewrite (selected_positional_cons _ _ _ arg)
             by apply arg_lookup_middle.
           rewrite list_collect_cons, Hflat.
           rewrite <- (assoc_L (++)) in Hsel.
           rewrite Hsel. reflexivity.
        -- apply Forall2_app; [|exact Hread].
           rewrite Harr', Harr, <- (assoc_L (++)). apply seq_reads.
      * apply Forall_inv_tail in Hrange.
        rewrite Forall_forall in Hrange, Hhead |- *. intros n Hn.
        specialize (Hrange n Hn). specialize (Hhead n Hn).
        rewrite length_app. simpl. lia.
    + apply IH in H as (idx & leaves & more & Hgi' & Harr' & Hsel & Hread);
        [|exact Hsorted|].
      * exists idx, leaves, (leaves0 ++ more).
        split; [rewrite Hgi', Hgi, app_nil_r; reflexivity|].
        split; [rewrite Harr', Harr, <- (assoc_L (++)); reflexivity|].
        split; [exact Hsel|exact Hread].
      * destruct (drop j argnums) as [|n0 tl] eqn:Hdrop; [constructor|].
        assert (argnums !! j = Some n0) as Hn0.
        { rewrite <- (Nat.add_0_r j), <- lookup_drop, Hdrop. reflexivity. }
        apply StronglySorted_inv in Hsorted as [_ Hhead].
        pose proof (Forall_inv Hrange) as Hr0. simpl in Hr0.
        assert (Z.of_nat (length done) < n0) as Hlt.
        { destruct (decide (n0 = Z.of_nat (length done))) as [->|]; [|lia].
          contradiction. }
        rewrite Forall_forall in Hrange, Hhead |- *. intros n Hn.
        specialize (Hrange n Hn). rewrite length_app. simpl.
        apply elem_of_cons in Hn as [-> | Hn]; [lia|].
        specialize (Hhead n Hn). lia.
Qed.

Lemma collect_kwargs_targets (argnames : gset string)
    (kwargs : list (string * pyobj)) :
  forall c c' : collected,
  collect_kwargs argnames kwargs c = Ok c' ->
  exists idx leaves more,
    gradient_indices c' = gradient_indices c ++ idx /\
    arrays c' = arrays c ++ more /\
    list_collect (fun t => tree_flatten t true)
      (selected_keyword argnames kwargs).*2 = Ok leaves /\
    Forall2 (fun i x => arrays c' !! i = Some x) idx leaves.
Proof.
  induction kwargs as [|[key value] rest IH]; intros c c' H; simpl in H.
  - injection H as <-. exists [], [], []. rewrite !app_nil_r.
    repeat split; constructor.
  - apply bind_Ok in H as (c1 & Hone & H).
    apply collect_one_inv in Hone as (leaves0 & Hflat & Harr & _ & Hgi).
    apply IH in H as (idx & leaves & more & Hgi' & Harr' & Hsel & Hread).
    unfold selected_keyword in *.
    destruct (decide (key ∈ argnames)) as [Hin|Hout].
    + rewrite (bool_decide_eq_true_2 _ Hin) in *.
      rewrite filter_cons_True by exact Hin.
      exists (seq (length (arrays c)) (length leaves0) ++ idx),
        (leaves0 ++ leaves), (leaves0 ++ more).
      split; [rewrite Hgi', Hgi, <- (assoc_L (++)); reflexivity|].
      split; [rewrite Harr', Harr, <- (assoc_L (++)); reflexivity|].
      split.
      * rewrite fmap_cons, list_collect_cons. simpl.
        rewrite Hflat, Hsel. reflexivity.
      * apply Forall2_app; [|exact Hread].
        rewrite Harr', Harr, <- (assoc_L (++)). apply seq_reads.
    + rewrite (bool_decide_eq_false_2 _ Hout) in *.
      rewrite filter_cons_False by exact Hout.
      exists idx, leaves, (leaves0 ++ more).
      split; [rewrite Hgi', Hgi, app_nil_r; reflexivity|].
      split; [rewrite Harr', Harr, <- (assoc_L (++)); reflexivity|].
      split; [exact Hsel|exact Hread].
Qed.

Lemma collect_targets (w : grad_fun) (args : list pyobj)
    (kwargs : list (string * pyobj)) (c : collected) :
  StronglySorted Z.lt (argnums w) ->
  Forall (fun n => 0 <= n < Z.of_nat (length args)) (argnums w) ->
  collect w args kwargs = Ok c ->
  exists leaves,
    list_collect (fun t => tree_flatten t true)
      (selected_positional (argnums w) args
       ++ (selected_keyword (argnames w) kwargs).*2) = Ok leaves /\
    Forall2 (fun i x => arrays c !! i = Some x) (gradient_indices c) leaves.
Proof.
  intros Hsorted Hrange. unfold collect. intros H.
  apply bind_Ok in H as (c0 & Hargs & H).
  apply bind_Ok in H as (c1 & Hkwargs & [= <-]). simpl.
  apply (collect_args_targets (argnums w) args [] 0%nat) in Hargs
    as (idx0 & leaves0 & more0 & Hgi0 & Harr0 & Hsel0 & Hread0);
    [|exact Hsorted|exact Hrange].
  apply collect_kwargs_targets in Hkwargs
    as (idx1 & leaves1 & more1 & Hgi1 & Harr1 & Hsel1 & Hread1).
  simpl in *. rewrite drop_0 in Hsel0.
  exists (leaves0 ++ leaves1). split.
  - rewrite list_collect_app, Hsel0. simpl. rewrite Hsel1. reflexivity.
  - rewrite Hgi1, Hgi0. simpl. apply Forall2_app; [|exact Hread1].
    rewrite Harr1. apply reads_weaken. exact Hread0.
Qed.

(** X5: the gradient indices point at the tensors of the selected
    arguments.  For a wrapper built by [py_value_and_grad] and a call that
    passes the input check, the flat inputs at the gradient indices are,
    in order, the tensors of the selected positional arguments followed by
    those of the selected keyword arguments. *)
Theorem gradient_indices_are_the_selected_tensors (f : callable)
    (nums : list Z) (names : gset string) (tag : string) (sfo : bool)
    (w : grad_fun) (args : list pyobj) (kwargs : list (string * pyobj))
    (c : collected) :
  Forall in_int nums ->
  py_value_and_grad f nums names tag sfo = Ok w ->
  sanitize_call w args kwargs = Ok () ->
  collect w args kwargs = Ok c ->
  exists leaves,
    list_collect (fun t => tree_flatten t true)
      (selected_positional (argnums w) args
       ++ (selected_keyword names kwargs).*2) = Ok leaves /\
    Forall2 (fun i x => arrays c !! i = Some x) (gradient_indices c) leaves.
Proof.
  intros Hint Hw Hsan Hc.
  destruct (wrapper_canonical _ _ _ _ _ _ Hw) as [Hcanon Hnames].
  destruct (sanitized_call_in_range w nums args kwargs Hint Hcanon Hsan)
    as [Hrange _].
  destruct Hcanon as (_ & Hsorted & _). rewrite <- Hnames.
  exact (collect_targets w args kwargs c Hsorted Hrange Hc).
Qed.

Lemma gradient_indices_are_the_selected_tensors_witness :
  exists leaves,
    list_collect (fun t => tree_flatten t true)
      (selected_positional (argnums sample_wrapper) sample_args
       ++ (selected_keyword {["k"%string]} sample_kwargs).*2) = Ok leaves /\
    Forall2 (fun i x => arrays sample_collected !! i = Some x)
      (gradient_indices sample_collected) leaves.
Proof.
  apply (gradient_indices_are_the_selected_tensors first_argument [1; 0]
           {["k"%string]} "[value_and_grad]" false sample_wrapper
           sample_args sample_kwargs sample_collected).
  - repeat constructor; unfold in_int, int_min, int_max; lia.
  - vm_compute. reflexivity.
  - vm_compute. reflexivity.
  - vm_compute. reflexivity.
Defined.


(** *** When collecting fails *)

Lemma collect_one_is_ok (needs_grad : bool) (arg : pyobj) (c : collected) :
  is_ok (collect_one needs_grad arg c)
  = if needs_grad then is_ok (tree_flatten arg true) else true.
Proof.
  unfold collect_one. destruct needs_grad.
  - destruct (tree_flatten arg true); reflexivity.
  - destruct (tree_flatten_total arg) as [leaves ->]. reflexivity.
Qed.

Lemma collect_one_Ok_inv (needs_grad : bool) (arg : pyobj) (c c' : collected) :
  collect_one needs_grad arg c = Ok c' -> is_ok (collect_one needs_grad arg c) = true.
Proof. intros ->. reflexivity. Qed.

Lemma collect_args_is_ok (argnums : list Z) (args : list pyobj) :
  forall (done : list pyobj) (j : nat) (c : collected),
  StronglySorted Z.lt (drop j argnums) ->
  Forall (fun n => Z.of_nat (length done) <= n
                   < Z.of_nat (length (done ++ args))) (drop j argnums) ->
  is_ok (collect_args argnums args (length done) j c)
  = forallb (fun t => is_ok (tree_flatten t true))
      (selected_positional (drop j argnums) (done ++ args)).
Proof.
  induction args as [|arg rest IH]; intros done j c Hsorted Hrange; simpl.
  - destruct (drop j argnums) as [|n tl]; [reflexivity|].
    apply Forall_inv in Hrange. rewrite app_nil_r in Hrange. lia.
  - rewrite is_ok_bind.
    replace (S (length done)) with (length (done ++ [arg]))
      by (rewrite length_app; simpl; lia).
    replace (done ++ arg :: rest) with ((done ++ [arg]) ++ rest) in *
      by (rewrite <- (assoc_L (++)); reflexivity).
    destruct (bool_decide_reflect
                (argnums !! j = Some (Z.of_nat (length done)))) as [Hj | Hj].
    + rewrite (drop_S _ _ _ Hj) in *.
      apply StronglySorted_inv in Hsorted as [Hsorted Hhead].
      rewrite <- (assoc_L (++)).
      rewrite (selected_positional_cons _ _ _ arg) by apply arg_lookup_middle.
      simpl.
      assert (Forall (fun n => Z.of_nat (length (done ++ [arg])) <= n
                < Z.of_nat (length ((done ++ [arg]) ++ rest)))
                (drop (S j) argnums)) as Hrange'.
      { apply Forall_inv_tail in Hrange.
        rewrite Forall_forall in Hrange, Hhead |- *. intros n Hn.
        specialize (Hrange n Hn). specialize (Hhead n Hn).
        rewrite length_app. simpl. lia. }
      pose proof (collect_one_is_ok true arg c) as Hone.
      destruct (collect_one true arg c) as [c1|]; simpl in Hone.
      * rewrite <- Hone. simpl.
        rewrite (IH (done ++ [arg]) (S j) c1 Hsorted Hrange').
        rewrite <- (assoc_L (++)). reflexivity.
      * rewrite <- Hone. reflexivity.
    + assert (Forall (fun n => Z.of_nat (length (done ++ [arg])) <= n
                < Z.of_nat (length ((done ++ [arg]) ++ rest)))
                (drop j argnums)) as Hrange'.
      { destruct (drop j argnums) as [|n0 tl] eqn:Hdrop; [constructor|].
        assert (argnums !! j = Some n0) as Hn0.
        { rewrite <- (Nat.add_0_r j), <- lookup_drop, Hdrop. reflexivity. }
        apply StronglySorted_inv in Hsorted as [_ Hhead].
        pose proof (Forall_inv Hrange) as Hr0. simpl in Hr0.
        assert (Z.of_nat (length done) < n0) as Hlt.
        { destruct (decide (n0 = Z.of_nat (length done))) as [->|]; [|lia].
          contradiction. }
        rewrite Forall_forall in Hrange, Hhead |- *. intros n Hn.
        specialize (Hrange n Hn). rewrite length_app. simpl.
        apply elem_of_cons in Hn as [-> | Hn]; [lia|].
        specialize (Hhead n Hn). lia. }
      pose proof (collect_one_is_ok false arg c) as Hone.
      destruct (collect_one false arg c) as [c1|]; simpl in Hone;
        [|discriminate].
      exact (IH (done ++ [arg]) j c1 Hsorted Hrange').
Qed.

Lemma collect_kwargs_is_ok (argnames : gset string)
    (kwargs : list (string * pyobj)) :
  forall c : collected,
  is_ok (collect_kwargs argnames kwargs c)
  = forallb (fun t => is_ok (tree_flatten t true))
      (selected_keyword argnames kwargs).*2.
Proof.
  induction kwargs as [|[key value] rest IH]; intros c; simpl; [reflexivity|].
  rewrite is_ok_bind.
  unfold selected_keyword in *.
  pose proof (collect_one_is_ok (bool_decide (key ∈ argnames)) value c) as Hone.
  destruct (decide (key ∈ argnames)) as [Hin|Hout].
  - rewrite (bool_decide_eq_true_2 _ Hin) in *.
    rewrite filter_cons_True by exact Hin. simpl.
    destruct (collect_one true value c) as [c1|]; simpl in Hone.
    + rewrite <- Hone. simpl. apply IH.
    + rewrite <- Hone. reflexivity.
  - rewrite (bool_decide_eq_false_2 _ Hout) in *.
    rewrite filter_cons_False by exact Hout.
    destruct (collect_one false value c) as [c1|]; simpl in Hone;
      [|discriminate].
    apply IH.
Qed.

Lemma collect_is_ok (w : grad_fun) (args : list pyobj)
    (kwargs : list (string * pyobj)) :
  StronglySorted Z.lt (argnums w) ->
  Forall (fun n => 0 <= n < Z.of_nat (length args)) (argnums w) ->
  is_ok (collect w args kwargs)
  = forallb (fun t => is_ok (tree_flatten t true))
      (selected_positional (argnums w) args
       ++ (selected_keyword (argnames w) kwargs).*2).
Proof.
  intros Hsorted Hrange. unfold collect. rewrite is_ok_bind.
  pose proof (collect_args_is_ok (argnums w) args [] 0%nat
                (mk_collected [] [0%nat] []) Hsorted Hrange) as Hargs.
  simpl in Hargs. rewrite drop_0 in Hargs. rewrite forallb_app, <- Hargs.
  destruct (collect_args _ _ _ _ _) as [c0|]; [|reflexivity]. simpl.
  rewrite is_ok_bind.
  pose proof (collect_kwargs_is_ok (argnames w) kwargs c0) as Hkw.
  destruct (collect_kwargs _ _ _) as [c1|]; simpl in *; exact Hkw.
Qed.

Lemma collect_raise (w : grad_fun) (args : list pyobj)
    (kwargs : list (string * pyobj)) (e : exn) :
  collect w args kwargs = Raise e -> e = tree_leaf_not_array.
Proof.
  assert (forall b arg c e, collect_one b arg c = Raise e
                            -> e = tree_leaf_not_array) as Hone.
  { intros b arg c e0. unfold collect_one.
    destruct (tree_flatten arg b) as [leaves|e1] eqn:Hflat; simpl;
      [discriminate|].
    intros [= <-]. exact (tree_flatten_raise _ _ _ Hflat). }
  assert (forall argnums args i j c e, collect_args argnums args i j c = Raise e
                                       -> e = tree_leaf_not_array) as Hargs.
  { intros argnums args0. induction args0 as [|arg rest IH];
      intros i j c e0 H; simpl in H; [discriminate|].
    destruct (collect_one _ arg c) as [c1|e1] eqn:H1; simpl in H.
    - exact (IH _ _ _ _ H).
    - injection H as <-. exact (Hone _ _ _ _ H1). }
  assert (forall argnames kwargs c e, collect_kwargs argnames kwargs c = Raise e
                                      -> e = tree_leaf_not_array) as Hkwargs.
  { intros argnames kwargs0. induction kwargs0 as [|[key value] rest IH];
      intros c e0 H; simpl in H; [discriminate|].
    destruct (collect_one _ value c) as [c1|e1] eqn:H1; simpl in H.
    - exact (IH _ _ H).
    - injection H as <-. exact (Hone _ _ _ _ H1). }
  unfold collect. intros H.
  destruct (collect_args _ _ _ _ _) as [c0|e0] eqn:H0; simpl in H.
  - destruct (collect_kwargs _ _ _) as [c1|e1] eqn:H1; simpl in H;
      [discriminate|].
    injection H as <-. exact (Hkwargs _ _ _ _ H1).
  - injection H as <-. exact (Hargs _ _ _ _ _ _ H0).
Qed.

(** X6: a selected argument has to consist of arrays.  Past the input
    check, collecting succeeds exactly when every selected argument
    flattens strictly, that is, has no leaf that is not an array; an
    argument that is not selected may hold constants.  When collecting
    fails the call fails with the exception of [tree_flatten], whatever the
    callable and the primitive layer are. *)
Theorem selected_arguments_hold_only_arrays (f : callable) (nums : list Z)
    (names : gset string) (tag : string) (sfo : bool) (w : grad_fun)
    (args : list pyobj) (kwargs : list (string * pyobj)) :
  Forall in_int nums ->
  py_value_and_grad f nums names tag sfo = Ok w ->
  sanitize_call w args kwargs = Ok () ->
  is_ok (collect w args kwargs)
  = forallb (fun t => is_ok (tree_flatten t true))
      (selected_positional (argnums w) args
       ++ (selected_keyword names kwargs).*2) /\
  (is_ok (collect w args kwargs) = false ->
   forall mt mg, call mt mg w args kwargs = Raise tree_leaf_not_array).
Proof.
  intros Hint Hw Hsan.
  destruct (wrapper_canonical _ _ _ _ _ _ Hw) as [Hcanon Hnames].
  destruct (sanitized_call_in_range w nums args kwargs Hint Hcanon Hsan)
    as [Hrange _].
  destruct Hcanon as (_ & Hsorted & _). rewrite <- Hnames.
  split; [exact (collect_is_ok w args kwargs Hsorted Hrange)|].
  intros Hfail mt mg. unfold call. rewrite Hsan. simpl.
  destruct (collect w args kwargs) as [c|e] eqn:Hc; [discriminate|].
  rewrite (collect_raise _ _ _ _ Hc). reflexivity.
Qed.

Lemma selected_arguments_hold_only_arrays_witness :
  is_ok (collect sample_wrapper sample_args sample_kwargs)
  = forallb (fun t => is_ok (tree_flatten t true))
      (selected_positional (argnums sample_wrapper) sample_args
       ++ (selected_keyword {["k"%string]} sample_kwargs).*2) /\
  (is_ok (collect sample_wrapper sample_args sample_kwargs) = false ->
   forall mt mg,
     call mt mg sample_wrapper sample_args sample_kwargs
     = Raise tree_leaf_not_array).
Proof.
  apply (selected_arguments_hold_only_arrays first_argument [1; 0]
           {["k"%string]} "[value_and_grad]" false sample_wrapper
           sample_args sample_kwargs).
  - repeat constructor; unfold in_int, int_min, int_max; lia.
  - vm_compute. reflexivity.
  - vm_compute. reflexivity.
Defined.


End CollectFacts.

(** ** The traced call *)

Module CallFacts.
Import Trees Grad GradFacts TreesFacts PackagingFacts RestoreFacts Samples
  CodecFacts.

(** The steps of a successful call, one after the other. *)
Lemma call_steps mt mg (w : grad_fun) (args : list pyobj)
    (kwargs : list (string * pyobj)) (r : call_result) :
  call mt mg w args kwargs = Ok r ->
  exists c targs tkwargs targs' tkwargs' out outs,
    collect w args kwargs = Ok c /\
    tree_fill (call_tree args kwargs) (mt (arrays c))
    = Ok (call_tree targs tkwargs) /\
    fun_ w targs tkwargs = Ok (targs', tkwargs', out) /\
    restore (call_tree targs' tkwargs') (mt (arrays c)) (arrays c)
    = Ok (call_tree (args_after r) (kwargs_after r)) /\
    validate_return (scalar_func_only w) out = Ok () /\
    tree_flatten out false = Ok outs /\
    tree_unflatten out outs 0 = Ok (return_value r).
Proof.
  intros H. unfold call in H.
  apply bind_Ok in H as ([] & _ & H).
  apply bind_Ok in H as (c & Hc & H).
  apply bind_Ok in H as ([[tree out] [value gradients]] & Htraced & H).
  apply bind_Ok in H as ([args' kwargs'] & Hsplit & H).
  apply bind_Ok in H as (g & _ & H).
  apply bind_Ok in H as (rv & Hrv & [= <-]). simpl.
  unfold mx_value_and_grad in Htraced.
  apply bind_Ok in Htraced as ([[tree0 out0] outs] & Htraced & [= <- <- <- <-]).
  unfold traced_fun in Htraced.
  apply bind_Ok in Htraced as (t1 & Hfill & Htraced).
  apply bind_Ok in Htraced as ([targs tkwargs] & Hsplit1 & Htraced).
  apply bind_Ok in Htraced as ([[targs' tkwargs'] out1] & Hcall & Htraced).
  apply bind_Ok in Htraced as (tree1 & Hrestore & Htraced).
  apply bind_Ok in Htraced as ([] & Hvalid & Htraced).
  apply bind_Ok in Htraced as (outs1 & Hflat & [= <- <- <-]).
  apply split_call_tree_inv in Hsplit1. subst t1.
  apply split_call_tree_inv in Hsplit. subst tree1.
  exists c, targs, tkwargs, targs', tkwargs', out1, outs1. auto 10.
Qed.

(** X7: the callable runs on the tracers of the primitive layer, and what
    it leaves alone is given back.  When the primitive layer provides one
    tracer per input, a successful call has run the callable once, on
    containers that have the shape of the argument containers and hold,
    in place of the tensors of the call, the tracers the primitive made of
    them, in the same order; and if the callable returned those containers
    as it got them, the caller's containers hold the original tensors
    again after the call. *)
Theorem callable_runs_on_tracers_and_arguments_are_restored mt mg
    (w : grad_fun) (args : list pyobj) (kwargs : list (string * pyobj))
    (r : call_result) :
  (forall l, length (mt l) = length l) ->
  call mt mg w args kwargs = Ok r ->
  exists inputs targs tkwargs targs' tkwargs' out,
    tree_flatten (call_tree args kwargs) false = Ok inputs /\
    tree_fill (call_tree args kwargs) (mt inputs)
    = Ok (call_tree targs tkwargs) /\
    shaped_like (call_tree args kwargs) (call_tree targs tkwargs) /\
    tree_flatten (call_tree targs tkwargs) false = Ok (mt inputs) /\
    fun_ w targs tkwargs = Ok (targs', tkwargs', out) /\
    (targs' = targs -> tkwargs' = tkwargs ->
     args_after r = args /\ kwargs_after r = kwargs).
Proof.
  intros Hmt H.
  destruct (call_steps _ _ _ _ _ _ H)
    as (c & targs & tkwargs & targs' & tkwargs' & out & outs & Hc & Hfill
        & Hcall & Hrestore & _).
  pose proof (collect_arrays _ _ _ _ Hc) as Hflat.
  exists (arrays c), targs, tkwargs, targs', tkwargs', out.
  split; [exact Hflat|]. split; [exact Hfill|].
  split; [exact (tree_unflatten_shape _ _ _ _ Hfill)|].
  split; [|split; [exact Hcall|]].
  - pose proof (tree_flatten_length _ _ _ Hflat) as Hn.
    destruct (tree_fills (call_tree args kwargs) (mt (arrays c)) 0%nat)
      as (t' & Hun & Hleaves); [rewrite Hmt; lia|].
    unfold tree_fill, tree_unflatten in Hfill. rewrite Hun in Hfill.
    injection Hfill as ->. rewrite Hleaves, drop_0, take_ge; [reflexivity|].
    rewrite Hmt. lia.
  - intros -> ->.
    destruct (fill_then_restore (call_tree args kwargs) (mt (arrays c))
                (arrays c) Hflat (Hmt _)) as (t' & Hfill' & Hback).
    rewrite Hfill in Hfill'. injection Hfill' as <-.
    rewrite Hrestore in Hback. injection Hback as -> ->. auto.
Qed.

Lemma callable_runs_on_tracers_and_arguments_are_restored_witness :
  exists inputs targs tkwargs targs' tkwargs' out,
    tree_flatten (call_tree sample_args sample_kwargs) false = Ok inputs /\
    tree_fill (call_tree sample_args sample_kwargs) (sample_tracers inputs)
    = Ok (call_tree targs tkwargs) /\
    shaped_like (call_tree sample_args sample_kwargs)
      (call_tree targs tkwargs) /\
    tree_flatten (call_tree targs tkwargs) false
    = Ok (sample_tracers inputs) /\
    fun_ sample_wrapper targs tkwargs = Ok (targs', tkwargs', out) /\
    (targs' = targs -> tkwargs' = tkwargs ->
     args_after sample_call_result = sample_args
     /\ kwargs_after sample_call_result = sample_kwargs).
Proof.
  apply (callable_runs_on_tracers_and_arguments_are_restored sample_tracers
           sample_gradients sample_wrapper sample_args sample_kwargs
           sample_call_result).
  - intros l. unfold sample_tracers. apply length_map.
  - vm_compute. reflexivity.
Defined.


(** X8: the value a call returns has the structure of what the callable
    returned: the same containers and constants, with a tensor wherever the
    callable returned one.  That return value passed the check on return
    values, and in the scalar-only mode of [grad] the value is a single
    array. *)
Theorem value_has_the_structure_of_the_return_value mt mg
    (w : grad_fun) (args : list pyobj) (kwargs : list (string * pyobj))
    (r : call_result) :
  call mt mg w args kwargs = Ok r ->
  exists targs tkwargs targs' tkwargs' out,
    fun_ w targs tkwargs = Ok (targs', tkwargs', out) /\
    validate_return (scalar_func_only w) out = Ok () /\
    shaped_like out (return_value r) /\
    (scalar_func_only w = true -> is_array (return_value r) = true).
Proof.
  intros H.
  destruct (call_steps _ _ _ _ _ _ H)
    as (c & targs & tkwargs & targs' & tkwargs' & out & outs & _ & _
        & Hcall & _ & Hvalid & _ & Hrv).
  exists targs, tkwargs, targs', tkwargs', out.
  pose proof (tree_unflatten_shape _ _ _ _ Hrv) as Hshape.
  split; [exact Hcall|]. split; [exact Hvalid|]. split; [exact Hshape|].
  intros Hmode. rewrite Hmode in Hvalid.
  apply validate_return_accepts in Hvalid as [Harr | [[=] _]].
  unfold shaped_like in Hshape.
  destruct out; try discriminate.
  destruct (return_value r); try discriminate. reflexivity.
Qed.

Lemma value_has_the_structure_of_the_return_value_witness :
  exists targs tkwargs targs' tkwargs' out,
    fun_ sample_wrapper targs tkwargs = Ok (targs', tkwargs', out) /\
    validate_return (scalar_func_only sample_wrapper) out = Ok () /\
    shaped_like out (return_value sample_call_result) /\
    (scalar_func_only sample_wrapper = true ->
     is_array (return_value sample_call_result) = true).
Proof.
  apply (value_has_the_structure_of_the_return_value sample_tracers
           sample_gradients sample_wrapper sample_args sample_kwargs
           sample_call_result).
  vm_compute. reflexivity.
Defined.


End CallFacts.

(** ** The gradients a call returns *)

Module GradientFacts.
Import Trees Grad GradFacts TreesFacts PackagingFacts RestoreFacts Samples
  CodecFacts CollectFacts.

(** *** The tensors of an unflattened tree *)

Lemma list_reads_slice {A} (l : list (tree A)) :
  Forall reads_slice l ->
  forall (values : list array) (i : nat) (l' : list pyobj) (i' : nat),
  list_traverse (tree_traverse (next_value values)) l i = Ok (l', i') ->
  list_collect (fun x => tree_flatten x false) l'
  = Ok (take (sum_list (map num_arrays l)) (drop i values)).
Proof.
  induction 1 as [|x l Hx _ IH]; intros values i l' i' H; simpl in H.
  - injection H as <- _. reflexivity.
  - apply bind_Ok in H as ([x' s1] & Hx' & H).
    apply bind_Ok in H as ([r' s2] & Hr & [= <- _]).
    pose proof (tree_unflatten_from_advance _ _ _ _ _ Hx') as ->.
    simpl. rewrite (Hx _ _ _ _ Hx'). simpl.
    rewrite (IH _ _ _ _ Hr). simpl.
    rewrite take_drop_next. reflexivity.
Qed.

Lemma dict_reads_slice {A} (d : list (string * tree A)) :
  Forall (fun kv => reads_slice kv.2) d ->
  forall (values : list array) (i : nat) (d' : list (string * pyobj))
         (i' : nat),
  list_traverse
    (fun (kv : string * tree A) s0 =>
       '(v, s1) ← tree_traverse (next_value values) kv.2 s0;
       Ok ((kv.1, v), s1)) d i = Ok (d', i') ->
  list_collect (fun kv : string * pyobj => tree_flatten kv.2 false) d'
  = Ok (take (sum_list (map (fun kv => num_arrays kv.2) d)) (drop i values)).
Proof.
  induction 1 as [|[k x] d Hx _ IH]; intros values i d' i' H; simpl in H.
  - injection H as <- _. reflexivity.
  - apply bind_Ok in H as ([x' s1] & Hx' & H).
    apply bind_Ok in H as ([r' s2] & Hr & [= <- _]).
    apply bind_Ok in Hx' as ([v s0] & Hv & [= <- <-]).
    pose proof (tree_unflatten_from_advance _ _ _ _ _ Hv) as ->.
    simpl in *. rewrite (Hx _ _ _ _ Hv). simpl.
    rewrite (IH _ _ _ _ Hr). simpl.
    rewrite take_drop_next. reflexivity.
Qed.

Lemma tree_reads_slice {A} (t : tree A) : reads_slice t.
Proof.
  induction t as [a|c|l IH|l IH|d IH] using tree_ind;
    intros values i t' i' H; unfold tree_unflatten_from in H; simpl in H.
  - unfold next_value in H. destruct (values !! i) as [v|] eqn:Hv;
      [|discriminate].
    simpl in H. injection H as <- _. simpl.
    rewrite (drop_S _ _ _ Hv). reflexivity.
  - injection H as <- _. reflexivity.
  - apply bind_Ok in H as ([l' s'] & Hl & [= <- _]).
    exact (list_reads_slice l IH _ _ _ _ Hl).
  - apply bind_Ok in H as ([l' s'] & Hl & [= <- _]).
    exact (list_reads_slice l IH _ _ _ _ Hl).
  - apply bind_Ok in H as ([d' s'] & Hd & [= <- _]).
    exact (dict_reads_slice d IH _ _ _ _ Hd).
Qed.

(** [tree_unflatten(arg, gradients, off)] is the gradient tree of [arg]
    taken from [off]. *)
Lemma tree_unflatten_gradient_tree (arg t : pyobj) (gradients : list array)
    (off : nat) :
  tree_unflatten arg gradients off = Ok t -> gradient_tree gradients off arg t.
Proof.
  intros H. split; [exact (tree_unflatten_shape _ _ _ _ H)|].
  unfold tree_unflatten in H. apply fmap_Ok in H as ([t0 i'] & H & ->).
  exact (tree_reads_slice arg _ _ _ _ H).
Qed.

(** The trees read one after the other hold the values from the start on. *)
Lemma gradient_trees_leaves (templates trees : list pyobj)
    (gradients : list array) :
  gradient_trees templates gradients = Ok trees ->
  list_collect (fun t => tree_flatten t false) trees
  = Ok (take (sum_list (map num_arrays templates)) gradients).
Proof.
  unfold gradient_trees. intros H.
  apply fmap_Ok in H as ([ts stop] & H & ->). simpl.
  rewrite <- (drop_0 gradients) at 1.
  apply (list_reads_slice templates) with (i' := stop); [|exact H].
  apply Forall_forall. intros t _. apply tree_reads_slice.
Qed.

Lemma list_collect_length {X A} (g : X -> result (list A)) (n : X -> nat)
    (l : list X) (leaves : list A) :
  (forall x xs, g x = Ok xs -> length xs = n x) ->
  list_collect g l = Ok leaves -> length leaves = sum_list (map n l).
Proof.
  intros Hg. revert leaves.
  induction l as [|x l IH]; intros leaves H; simpl in H.
  - injection H as <-. reflexivity.
  - apply bind_Ok in H as (xs & Hxs & H).
    apply bind_Ok in H as (rs & Hrs & [= <-]).
    simpl. rewrite length_app, (Hg _ _ Hxs), (IH _ Hrs). reflexivity.
Qed.

(** *** The trees [py_grads] builds *)

Lemma positional_trees_gradient (args : list pyobj) (gradients : list array)
    (counts : list nat) (nums : list Z) :
  forall (i : nat) (trees : list pyobj),
  positional_trees args gradients counts nums i = Ok trees ->
  length trees = length nums /\
  Forall2 (fun no t => exists arg, arg_lookup args no.1 = Some arg
                                   /\ gradient_tree gradients no.2 arg t)
    (zip nums (drop i counts)) trees.
Proof.
  induction nums as [|n nums IH]; intros i trees H; simpl in H.
  - injection H as <-. split; [reflexivity|constructor].
  - apply bind_Ok in H as (arg & Harg & H).
    apply bind_Ok in H as (c & Hc & H).
    apply bind_Ok in H as (g & Hg & H).
    apply bind_Ok in H as (gs & Hgs & [= <-]).
    apply IH in Hgs as [Hlen Hgs].
    unfold count_at in Hc. destruct (counts !! i) as [c'|] eqn:Hi;
      [|discriminate].
    injection Hc as ->. rewrite (drop_S _ _ _ Hi).
    split; [simpl; congruence|]. simpl. constructor; [|exact Hgs].
    exists arg. split; [|exact (tree_unflatten_gradient_tree _ _ _ _ Hg)].
    unfold args_at in Harg. simpl. destruct (arg_lookup args n); [|discriminate].
    injection Harg as ->. reflexivity.
Qed.

Lemma keyword_trees_gradient (argnames : gset string)
    (gradients : list array) (counts : list nat) (nargnums : nat)
    (kwargs : list (string * pyobj)) :
  forall (i : nat) (grads_ out : list (string * pyobj)),
  NoDup (grads_.*1 ++ kwargs.*1) ->
  keyword_trees argnames kwargs gradients counts nargnums i grads_ = Ok out ->
  exists named,
    out = grads_ ++ named /\
    length named = length (selected_keyword argnames kwargs) /\
    Forall2 (fun ko nt => nt.1 = ko.1.1
                          /\ gradient_tree gradients ko.2 ko.1.2 nt.2)
      (zip (selected_keyword argnames kwargs) (drop (i + nargnums) counts))
      named.
Proof.
  induction kwargs as [|[key value] rest IH]; intros i grads_ out Hnd H;
    simpl in H.
  - injection H as <-. exists []. rewrite app_nil_r.
    split; [reflexivity|]. split; [reflexivity|constructor].
  - unfold selected_keyword in *. rewrite filter_cons. simpl in *.
    assert (NoDup (grads_.*1 ++ rest.*1)) as Hnd_rest.
    { apply NoDup_app in Hnd as (H1 & H2 & H3). apply NoDup_app.
      split; [exact H1|]. split.
      - intros x Hx Hin. apply (H2 x Hx). right. exact Hin.
      - apply NoDup_cons in H3 as [_ H3]. exact H3. }
    destruct (bool_decide_reflect (key ∈ argnames)) as [Hin | Hout].
    + rewrite decide_True by exact Hin.
      apply bind_Ok in H as (c & Hc & H).
      apply bind_Ok in H as (g & Hg & H).
      assert (key ∉ grads_.*1) as Hfresh.
      { apply NoDup_app in Hnd as (_ & H2 & _). intros Hk.
        apply (H2 key Hk). left. }
      rewrite (dict_set_fresh _ _ _ Hfresh) in H.
      unfold count_at in Hc.
      destruct (counts !! (i + nargnums)%nat) as [c'|] eqn:Hi; [|discriminate].
      injection Hc as ->. rewrite (drop_S _ _ _ Hi).
      apply IH in H as (named & -> & Hlen & Hnamed).
      * exists ((key, g) :: named). rewrite <- (assoc_L (++)).
        split; [reflexivity|]. split; [simpl; congruence|].
        simpl. constructor; [|exact Hnamed].
        split; [reflexivity|].
        exact (tree_unflatten_gradient_tree _ _ _ _ Hg).
      * rewrite fmap_app. simpl. rewrite <- (assoc_L (++)). simpl.
        apply NoDup_app in Hnd as (H1 & H2 & H3).
        apply NoDup_cons in H3 as [H3 H4].
        apply NoDup_app. split; [exact H1|]. split.
        -- intros x Hx Hin'. apply elem_of_cons in Hin' as [-> | Hin'].
           ++ exact (Hfresh Hx).
           ++ apply (H2 x Hx). right. exact Hin'.
        -- apply NoDup_cons. split; assumption.
    + rewrite decide_False by exact Hout.
      exact (IH i grads_ out Hnd_rest H).
Qed.

(** What [py_grads] returns: one gradient tree per selected index and per
    selected keyword argument, each read at the offset [counts] has for
    it. *)
Lemma py_grads_gradient_trees (w : grad_fun) (args : list pyobj)
    (kwargs : list (string * pyobj)) (gradients : list array)
    (counts : list nat) (g : pyobj) :
  NoDup kwargs.*1 ->
  py_grads w args kwargs gradients counts = Ok g ->
  exists trees named,
    length trees = length (argnums w) /\
    Forall2 (fun no t => exists arg, arg_lookup args no.1 = Some arg
                                     /\ gradient_tree gradients no.2 arg t)
      (zip (argnums w) counts) trees /\
    length named = length (selected_keyword (argnames w) kwargs) /\
    Forall2 (fun ko nt => nt.1 = ko.1.1
                          /\ gradient_tree gradients ko.2 ko.1.2 nt.2)
      (zip (selected_keyword (argnames w) kwargs)
         (drop (length (argnums w)) counts)) named /\
    g = if bool_decide (size (argnames w) = 0%nat)
        then positional_part trees
        else TTuple [positional_part trees; TDict named].
Proof.
  intros Hnd H. unfold py_grads in H.
  apply bind_Ok in H as (positional & Hpos & H).
  rewrite positional_grads_trees in Hpos.
  apply fmap_Ok in Hpos as (trees & Htrees & ->).
  apply positional_trees_gradient in Htrees as [Hlen Htrees].
  rewrite drop_0 in Htrees.
  destruct (bool_decide_reflect (size (argnames w) = 0%nat)) as [Hsize | Hsize].
  - injection H as <-. exists trees, [].
    rewrite (selected_keyword_none _ _ Hsize).
    split; [exact Hlen|]. split; [exact Htrees|].
    split; [reflexivity|]. split; [constructor | reflexivity].
  - apply bind_Ok in H as (grads_ & Hkw & [= <-]).
    apply keyword_trees_gradient in Hkw as (named & -> & Hlenk & Hnamed);
      [|simpl; exact Hnd].
    exists trees, named. split; [exact Hlen|]. split; [exact Htrees|].
    split; [exact Hlenk|]. split; [exact Hnamed|]. reflexivity.
Qed.

(** *** From a call to the gradients of the primitive layer *)

Lemma call_gradients mt mg (w : grad_fun) (args : list pyobj)
    (kwargs : list (string * pyobj)) (r : call_result) :
  call mt mg w args kwargs = Ok r ->
  sanitize_call w args kwargs = Ok () /\
  exists c gradients,
    primitive_gradients mt mg w args kwargs c gradients /\
    py_grads w (args_after r) (kwargs_after r) gradients (counts c)
    = Ok (grads r).
Proof.
  unfold call. intros H.
  apply bind_Ok in H as ([] & Hsan & H).
  apply bind_Ok in H as (c & Hc & H).
  apply bind_Ok in H as ([[tree out] [value gradients]] & Htraced & H).
  apply bind_Ok in H as ([args' kwargs'] & _ & H).
  apply bind_Ok in H as (g & Hg & H).
  apply bind_Ok in H as (rv & _ & [= <-]). simpl.
  unfold mx_value_and_grad in Htraced.
  apply bind_Ok in Htraced as ([[tree0 out0] outs] & Htraced & [= <- <- <- <-]).
  split; [exact Hsan|]. exists c, (mg (arrays c) outs (gradient_indices c)).
  split; [|exact Hg]. split; [exact Hc|].
  exists tree0, out0, outs. split; [exact Htraced|reflexivity].
Qed.

Lemma positional_part_inj (l1 l2 : list pyobj) :
  length l1 = length l2 -> positional_part l1 = positional_part l2 -> l1 = l2.
Proof.
  destruct l1 as [|a1 [|b1 r1]], l2 as [|a2 [|b2 r2]]; simpl;
    try discriminate; intros _ H.
  - reflexivity.
  - congruence.
  - congruence.
Qed.

(** The gradients of a successful call, whatever selection the wrapper
    has. *)
Lemma call_gradient_trees mt mg (w : grad_fun) (nums : list Z)
    (args : list pyobj) (kwargs : list (string * pyobj)) (r : call_result) :
  Forall in_int nums -> canonical nums (argnums w) ->
  NoDup (kwargs_after r).*1 ->
  call mt mg w args kwargs = Ok r ->
  exists c gradients trees named,
    primitive_gradients mt mg w args kwargs c gradients /\
    length trees = length (argnums w) /\
    Forall2 (fun no t => exists arg,
               arg_lookup (args_after r) no.1 = Some arg
               /\ gradient_tree gradients no.2 arg t)
      (zip (argnums w) (counts c)) trees /\
    length named = length (selected_keyword (argnames w) (kwargs_after r)) /\
    Forall2 (fun ko nt => nt.1 = ko.1.1
                          /\ gradient_tree gradients ko.2 ko.1.2 nt.2)
      (zip (selected_keyword (argnames w) (kwargs_after r))
         (drop (length (argnums w)) (counts c))) named /\
    grads r = (if bool_decide (size (argnames w) = 0%nat)
               then positional_part trees
               else TTuple [positional_part trees; TDict named]) /\
    (args_after r = args \/ argnums w = [] -> kwargs_after r = kwargs ->
     (forall key, key ∈ named.*1 <-> key ∈ argnames w) /\
     gradient_trees
       (selected_positional (argnums w) args
        ++ (selected_keyword (argnames w) kwargs).*2) gradients
     = Ok (trees ++ named.*2) /\
     list_collect (fun t => tree_flatten t false) (trees ++ named.*2)
     = Ok (take (length (gradient_indices c)) gradients) /\
     exists leaves,
       list_collect (fun t => tree_flatten t true)
         (selected_positional (argnums w) args
          ++ (selected_keyword (argnames w) kwargs).*2) = Ok leaves /\
       Forall2 (fun i x => arrays c !! i = Some x) (gradient_indices c)
         leaves).
Proof.
  intros Hint Hcanon Hnd Hcall.
  destruct (call_gradients _ _ _ _ _ _ Hcall)
    as (Hsan & c & gradients & Hprim & Hg).
  destruct (py_grads_gradient_trees _ _ _ _ _ _ Hnd Hg)
    as (trees & named & Hlen & Htrees & Hlenk & Hnamed & Hshape).
  exists c, gradients, trees, named.
  split; [exact Hprim|]. split; [exact Hlen|]. split; [exact Htrees|].
  split; [exact Hlenk|]. split; [exact Hnamed|]. split; [exact Hshape|].
  intros Hargs Hkwargs. rewrite Hkwargs in *.
  assert (py_grads w args kwargs gradients (counts c) = Ok (grads r)) as Hg'.
  { destruct Hargs as [<- | Hnone]; [exact Hg|].
    rewrite (py_grads_keyword_only w _ (args_after r)) by exact Hnone.
    exact Hg. }
  clear Hg Hargs Htrees. rename Hg' into Hg.
  destruct Hprim as [Hc _].
  destruct (sanitized_call_in_range w nums args kwargs Hint Hcanon Hsan)
    as [Hrange Hpresent].
  assert (StronglySorted Z.lt (argnums w)) as Hsorted by apply Hcanon.
  assert (Forall2 (fun kv nt => nt.1 = kv.1)
            (selected_keyword (argnames w) kwargs) named) as Hkeys.
  { clear -Hlenk Hnamed.
    revert named Hlenk Hnamed.
    generalize (drop (length (argnums w)) (counts c)) as offs.
    induction (selected_keyword (argnames w) kwargs) as [|kv kw IH];
      intros offs [|nt named] Hlen Hnamed; simpl in *; try discriminate;
      [constructor|].
    destruct offs as [|o offs]; simpl in Hnamed;
      [apply Forall2_nil_cons_inv in Hnamed; destruct Hnamed|].
    apply Forall2_cons in Hnamed as [[Hk _] Hnamed].
    constructor; [exact Hk|]. apply (IH offs); [congruence|exact Hnamed]. }
  assert (named.*1 = (selected_keyword (argnames w) kwargs).*1) as Hfst.
  { clear -Hkeys. induction Hkeys as [|kv nt kw named Hk _ IH];
      [reflexivity|]. rewrite !fmap_cons, Hk, IH. reflexivity. }
  split.
  { intros key. rewrite Hfst.
    exact (selected_keyword_keys (argnames w) kwargs Hpresent key). }
  rewrite (py_grads_refines w args kwargs gradients c Hsorted Hrange Hnd Hc)
    in Hg.
  apply fmap_Ok in Hg as (all & Hall & Hg).
  assert (length all
          = (length (argnums w)
             + length (selected_keyword (argnames w) kwargs))%nat) as Hlenall.
  { unfold gradient_trees in Hall.
    apply fmap_Ok in Hall as ([ts stop] & Htr & ->).
    apply list_traverse_advance in Htr as [_ Htr]. simpl.
    rewrite Htr, length_app, length_fmap.
    rewrite <- (Forall2_length _ _ _ (selected_positional_lookup _ _ Hrange)).
    reflexivity. }
  assert (all = trees ++ named.*2) as ->.
  { rewrite Hshape in Hg. unfold packaged in Hg.
    destruct (bool_decide_reflect (size (argnames w) = 0%nat)) as [Hsize|Hsize];
      simpl in Hg.
    - rewrite (selected_keyword_none _ _ Hsize) in *. simpl in *.
      destruct named; [|discriminate]. simpl. rewrite app_nil_r.
      rewrite take_ge in Hg by lia.
      apply positional_part_inj in Hg; [symmetry; exact Hg|lia].
    - injection Hg as Hpos Hdict.
      apply positional_part_inj in Hpos;
        [|rewrite length_take; lia].
      rewrite <- (take_drop (length (argnums w)) all), Hpos. f_equal.
      rewrite Hdict, snd_zip; [reflexivity|].
      rewrite length_fmap, length_drop. lia. }
  split; [exact Hall|].
  destruct (collect_targets w args kwargs c Hsorted Hrange Hc)
    as (leaves & Hleaves & Hread).
  split; [|exists leaves; split; assumption].
  rewrite (gradient_trees_leaves _ _ _ Hall). do 2 f_equal.
  rewrite (Forall2_length _ _ _ Hread).
  symmetry. apply (list_collect_length _ _ _ _ (fun x xs H =>
    tree_flatten_length x true xs H) Hleaves).
Qed.

(** C5: every successful [value_and_grad] / [grad] call returns the
    gradients of the primitive layer packaged as follows.  There is one
    gradient tree per selected positional index, in the order of the
    wrapper's selection (the selected indices in ascending order): it has
    the shape of the argument at that index and holds, in order, the
    gradients the primitive returned from the offset [counts] has for that
    argument.  The positional part is that tree itself when one index is
    selected and the tuple of the trees when more than one is selected
    ([positional_part]).  When no keyword name is selected the positional
    part is the whole result; when keyword names are selected the result is
    the 2-tuple of the positional part and the dict that maps each selected
    keyword name present to its gradient tree.  Moreover, when the call
    left its argument containers as they were, the dict has exactly the
    selected names, the trees are the gradients handed out to the selected
    arguments one after the other ([gradient_trees]), their tensors taken
    together are the gradients in the order the primitive returned them,
    and the differentiated inputs are the tensors of the selected
    arguments in that same order. *)
Theorem gradient_packaging mt mg f nums names tag sfo (w : grad_fun)
    (args : list pyobj) (kwargs : list (string * pyobj)) (r : call_result) :
  Forall in_int nums ->
  py_value_and_grad f nums names tag sfo = Ok w ->
  NoDup (kwargs_after r).*1 ->
  call mt mg w args kwargs = Ok r ->
  argnums w = merge_sort Z.le nums /\
  exists c gradients trees named,
    primitive_gradients mt mg w args kwargs c gradients /\
    length trees = length nums /\
    Forall2 (fun no t => exists arg,
               arg_lookup (args_after r) no.1 = Some arg
               /\ gradient_tree gradients no.2 arg t)
      (zip (argnums w) (counts c)) trees /\
    length named = length (selected_keyword names (kwargs_after r)) /\
    Forall2 (fun ko nt => nt.1 = ko.1.1
                          /\ gradient_tree gradients ko.2 ko.1.2 nt.2)
      (zip (selected_keyword names (kwargs_after r))
         (drop (length nums) (counts c))) named /\
    (names = ∅ -> grads r = positional_part trees) /\
    (names <> ∅ -> grads r = TTuple [positional_part trees; TDict named]) /\
    (args_after r = args -> kwargs_after r = kwargs ->
     (forall key, key ∈ named.*1 <-> key ∈ names) /\
     gradient_trees
       (selected_positional (argnums w) args
        ++ (selected_keyword names kwargs).*2) gradients
     = Ok (trees ++ named.*2) /\
     list_collect (fun t => tree_flatten t false) (trees ++ named.*2)
     = Ok (take (length (gradient_indices c)) gradients) /\
     exists leaves,
       list_collect (fun t => tree_flatten t true)
         (selected_positional (argnums w) args
          ++ (selected_keyword names kwargs).*2) = Ok leaves /\
       Forall2 (fun i x => arrays c !! i = Some x) (gradient_indices c)
         leaves).
Proof.
  intros Hint Hw Hnd Hcall.
  destruct (wrapper_canonical _ _ _ _ _ _ Hw) as [Hcanon Hnames].
  split; [apply Hcanon|].
  assert (length (argnums w) = length nums) as Hlen.
  { destruct Hcanon as (-> & _). apply Permutation_length.
    apply merge_sort_Permutation. }
  destruct (call_gradient_trees mt mg w nums args kwargs r Hint Hcanon Hnd
              Hcall)
    as (c & gradients & trees & named & Hprim & Hlent & Htrees & Hlenk
        & Hnamed & Hshape & Hsame).
  rewrite Hnames, Hlen in *.
  exists c, gradients, trees, named.
  split; [exact Hprim|]. split; [exact Hlent|]. split; [exact Htrees|].
  split; [exact Hlenk|]. split; [exact Hnamed|]. split; [|split].
  - intros Hempty. rewrite Hshape, bool_decide_eq_true_2; [reflexivity|].
    apply size_zero_iff_empty, Hempty.
  - intros Hne. rewrite Hshape, bool_decide_eq_false_2; [reflexivity|].
    intros Hsize. apply Hne, size_zero_iff_empty, Hsize.
  - intros Hargs Hkwargs. apply Hsame; [left; exact Hargs|exact Hkwargs].
Qed.

(** [value_and_grad(f, argnums=[1, 0], argnames="k")(a, [b, c], k=d)]. *)
Lemma gradient_packaging_witness :
  argnums sample_wrapper = merge_sort Z.le [1; 0] /\
  exists c gradients trees named,
    primitive_gradients sample_tracers sample_gradients sample_wrapper
      sample_args sample_kwargs c gradients /\
    length trees = length [1; 0] /\
    Forall2 (fun no t => exists arg,
               arg_lookup (args_after sample_call_result) no.1 = Some arg
               /\ gradient_tree gradients no.2 arg t)
      (zip (argnums sample_wrapper) (counts c)) trees /\
    length named
    = length (selected_keyword {["k"%string]}
                (kwargs_after sample_call_result)) /\
    Forall2 (fun ko nt => nt.1 = ko.1.1
                          /\ gradient_tree gradients ko.2 ko.1.2 nt.2)
      (zip (selected_keyword {["k"%string]} (kwargs_after sample_call_result))
         (drop (length [1; 0]) (counts c))) named /\
    (({["k"%string]} : gset string) = ∅ ->
     grads sample_call_result = positional_part trees) /\
    (({["k"%string]} : gset string) <> ∅ ->
     grads sample_call_result = TTuple [positional_part trees; TDict named]) /\
    (args_after sample_call_result = sample_args ->
     kwargs_after sample_call_result = sample_kwargs ->
     (forall key, key ∈ named.*1 <-> key ∈ ({["k"%string]} : gset string)) /\
     gradient_trees
       (selected_positional (argnums sample_wrapper) sample_args
        ++ (selected_keyword {["k"%string]} sample_kwargs).*2) gradients
     = Ok (trees ++ named.*2) /\
     list_collect (fun t => tree_flatten t false) (trees ++ named.*2)
     = Ok (take (length (gradient_indices c)) gradients) /\
     exists leaves,
       list_collect (fun t => tree_flatten t true)
         (selected_positional (argnums sample_wrapper) sample_args
          ++ (selected_keyword {["k"%string]} sample_kwargs).*2) = Ok leaves /\
       Forall2 (fun i x => arrays c !! i = Some x) (gradient_indices c)
         leaves).
Proof.
  apply (gradient_packaging sample_tracers sample_gradients first_argument
           [1; 0] {["k"%string]} "[value_and_grad]" false sample_wrapper
           sample_args sample_kwargs sample_call_result).
  - repeat constructor; unfold in_int, int_min, int_max; lia.
  - vm_compute. reflexivity.
  - apply NoDup_singleton.
  - vm_compute. reflexivity.
Defined.

(** C10: when only keyword names are selected (no positional index), the
    gradients of every successful call are the 2-tuple whose first element
    is [None], not an empty sequence, and whose second element is the dict
    of the gradient trees of the selected keyword arguments: each has the
    shape of its argument and holds, in order, the gradients the primitive
    layer returned from the offset [counts] has for it.  When the call
    left its keyword arguments as they were, the keys of the dict are
    exactly the selected names, the trees are the gradients handed out to
    them one after the other, their tensors taken together are the
    gradients in the order the primitive returned them, and the
    differentiated inputs are the tensors of the selected keyword
    arguments in that same order. *)
Theorem keyword_only_gradients mt mg f names tag sfo (w : grad_fun)
    (args : list pyobj) (kwargs : list (string * pyobj)) (r : call_result) :
  names <> ∅ ->
  py_value_and_grad f [] names tag sfo = Ok w ->
  NoDup (kwargs_after r).*1 ->
  call mt mg w args kwargs = Ok r ->
  exists c gradients named,
    primitive_gradients mt mg w args kwargs c gradients /\
    grads r = TTuple [py_none; TDict named] /\
    length named = length (selected_keyword names (kwargs_after r)) /\
    Forall2 (fun ko nt => nt.1 = ko.1.1
                          /\ gradient_tree gradients ko.2 ko.1.2 nt.2)
      (zip (selected_keyword names (kwargs_after r)) (counts c)) named /\
    (kwargs_after r = kwargs ->
     (forall key, key ∈ named.*1 <-> key ∈ names) /\
     gradient_trees (selected_keyword names kwargs).*2 gradients
     = Ok named.*2 /\
     list_collect (fun t => tree_flatten t false) named.*2
     = Ok (take (length (gradient_indices c)) gradients) /\
     exists leaves,
       list_collect (fun t => tree_flatten t true)
         (selected_keyword names kwargs).*2 = Ok leaves /\
       Forall2 (fun i x => arrays c !! i = Some x) (gradient_indices c)
         leaves).
Proof.
  intros Hne Hw Hnd Hcall.
  destruct (wrapper_canonical _ _ _ _ _ _ Hw) as [Hcanon Hnames].
  assert (argnums w = []) as Hnums by (destruct Hcanon as (-> & _); reflexivity).
  destruct (call_gradient_trees mt mg w [] args kwargs r (Forall_nil_2 _)
              Hcanon Hnd Hcall)
    as (c & gradients & trees & named & Hprim & Hlent & _ & Hlenk
        & Hnamed & Hshape & Hsame).
  rewrite Hnames, Hnums in *. simpl in *.
  destruct trees; [|discriminate]. rewrite drop_0 in Hnamed.
  rewrite bool_decide_eq_false_2 in Hshape
    by (intros Hsize; apply Hne, size_zero_iff_empty, Hsize).
  exists c, gradients, named.
  split; [exact Hprim|]. split; [exact Hshape|]. split; [exact Hlenk|].
  split; [exact Hnamed|].
  intros Hkwargs. apply Hsame; [right; reflexivity|exact Hkwargs].
Qed.

(** [grad(f, argnames="k")(a, k=b)]. *)
Lemma keyword_only_gradients_witness :
  exists c gradients named,
    primitive_gradients sample_tracers sample_gradients keyword_wrapper
      [TArr scalar_a] [("k"%string, TArr scalar_b)] c gradients /\
    grads keyword_call_result = TTuple [py_none; TDict named] /\
    length named
    = length (selected_keyword {["k"%string]}
                (kwargs_after keyword_call_result)) /\
    Forall2 (fun ko nt => nt.1 = ko.1.1
                          /\ gradient_tree gradients ko.2 ko.1.2 nt.2)
      (zip (selected_keyword {["k"%string]} (kwargs_after keyword_call_result))
         (counts c)) named /\
    (kwargs_after keyword_call_result = [("k"%string, TArr scalar_b)] ->
     (forall key, key ∈ named.*1 <-> key ∈ ({["k"%string]} : gset string)) /\
     gradient_trees
       (selected_keyword {["k"%string]} [("k"%string, TArr scalar_b)]).*2
       gradients
     = Ok named.*2 /\
     list_collect (fun t => tree_flatten t false) named.*2
     = Ok (take (length (gradient_indices c)) gradients) /\
     exists leaves,
       list_collect (fun t => tree_flatten t true)
         (selected_keyword {["k"%string]} [("k"%string, TArr scalar_b)]).*2
       = Ok leaves /\
       Forall2 (fun i x => arrays c !! i = Some x) (gradient_indices c)
         leaves).
Proof.
  apply (keyword_only_gradients sample_tracers sample_gradients
           first_argument {["k"%string]} "[grad]" true keyword_wrapper
           [TArr scalar_a] [("k"%string, TArr scalar_b)] keyword_call_result).
  - apply non_empty_singleton_L.
  - vm_compute. reflexivity.
  - apply NoDup_singleton.
  - vm_compute. reflexivity.
Defined.

End GradientFacts.

(** ** The axes of a vectorized call *)

Module AxesFacts.
Import Trees Vmap TreesFacts PackagingFacts VmapFacts Samples.

Lemma resolve_axis_in_range (output_axes : bool) (x : array) (axis a : Z) :
  resolve_axis output_axes x axis = Ok a -> in_range output_axes (ndim x) a.
Proof.
  unfold resolve_axis, in_range.
  set (bound := Z.of_nat (ndim x) + (if output_axes then 1 else 0)).
  set (axis' := if axis <? 0 then wrap_int (axis + bound) else axis).
  destruct (Z.ltb_spec axis' 0); simpl; [discriminate|].
  destruct (Z.leb_spec bound axis'); simpl; [discriminate|].
  intros [= <-]. lia.
Qed.

Lemma int_axis_pushed (output_axes : bool) (x : array) (z : Z)
    (st st' : axes_state) (tuple : bool) :
  (axis ← cast_int z; axis ← resolve_axis output_axes x axis;
   Ok (push_axis st axis tuple)) = Ok st' ->
  exists a, st' = push_axis st a tuple /\ in_range output_axes (ndim x) a.
Proof.
  intros H. apply bind_Ok in H as (axis & _ & H).
  apply bind_Ok in H as (a & Ha & [= <-]).
  exists a. split; [reflexivity|]. exact (resolve_axis_in_range _ _ _ _ Ha).
Qed.

(** The four axis forms the visitor takes at a tensor. *)
Lemma axes_visitor_inv (output_axes : bool) (x : array) (ax : pyobj)
    (st st' : axes_state) :
  axes_visitor output_axes [TArr x; ax] st = Ok st' ->
  exists a tuple,
    st' = push_axis st a tuple /\
    (tuple = true <-> exists l, ax = TTuple l) /\
    (a = -1 /\ (ax = py_none \/ ax = TTuple [py_none]) \/
     in_range output_axes (ndim x) a /\
     exists z, ax = TConst (CInt z) \/ ax = TTuple [TConst (CInt z)]).
Proof.
  intros H.
  destruct ax as [y|[z|bits|s|]|l|l|d]; simpl in H; try discriminate.
  - apply int_axis_pushed in H as (a & -> & Ha).
    exists a, false. split; [reflexivity|]. split.
    + split; [discriminate|]. intros [l [=]].
    + right. split; [exact Ha|]. eauto.
  - injection H as <-. exists (-1), false. split; [reflexivity|]. split.
    + split; [discriminate|]. intros [l [=]].
    + left. auto.
  - destruct l as [|[y|[z|bits|s|]|l0|l0|d0] [|? ?]]; try discriminate.
    + apply int_axis_pushed in H as (a & -> & Ha).
      exists a, true. split; [reflexivity|]. split.
      * split; eauto.
      * right. split; [exact Ha|]. eauto.
    + injection H as <-. exists (-1), true. split; [reflexivity|]. split.
      * split; eauto.
      * left. auto.
Qed.

(** X9: whenever the visitor of [axes_to_flat_tree] accepts a tensor and
    its axis, it has pushed exactly one entry.  The entry is the sentinel
    -1 when the axis is [None] or [(None,)], and otherwise, for an [int]
    or a one-element tuple of an [int], an axis within [0, ndim) of the
    tensor ([0, ndim] for output axes); no entry out of range is ever
    pushed.  [encountered_tuple] is set by the tuple forms and never
    cleared. *)
Theorem visitor_pushes_one_valid_axis (output_axes : bool) (x : array)
    (ax : pyobj) (st st' : axes_state) :
  axes_visitor output_axes [TArr x; ax] st = Ok st' ->
  exists a,
    flat_axes st' = flat_axes st ++ [a] /\
    (a = -1 /\ (ax = py_none \/ ax = TTuple [py_none]) \/
     in_range output_axes (ndim x) a /\
     exists z, ax = TConst (CInt z) \/ ax = TTuple [TConst (CInt z)]) /\
    (encountered_tuple st' = true <->
     encountered_tuple st = true \/ exists l, ax = TTuple l).
Proof.
  intros H. apply axes_visitor_inv in H as (a & tuple & -> & Htuple & Ha).
  exists a. split; [reflexivity|]. split; [exact Ha|]. simpl.
  rewrite orb_true_iff, Htuple. reflexivity.
Qed.

(** The axis [(-1,)] at a rank-2 tensor, after one entry was pushed. *)
Lemma visitor_pushes_one_valid_axis_witness :
  exists a,
    flat_axes (mk_axes_state [0; 1] true)
    = flat_axes (mk_axes_state [0] false) ++ [a] /\
    (a = -1 /\ ((TTuple [TConst (CInt (-1))] : pyobj) = py_none
                \/ (TTuple [TConst (CInt (-1))] : pyobj) = TTuple [py_none]) \/
     in_range false (ndim matrix) a /\
     exists z, (TTuple [TConst (CInt (-1))] : pyobj) = TConst (CInt z)
               \/ (TTuple [TConst (CInt (-1))] : pyobj)
                  = TTuple [TConst (CInt z)]) /\
    (encountered_tuple (mk_axes_state [0; 1] true) = true <->
     encountered_tuple (mk_axes_state [0] false) = true
     \/ exists l, (TTuple [TConst (CInt (-1))] : pyobj) = TTuple l).
Proof.
  apply (visitor_pushes_one_valid_axis false matrix
           (TTuple [TConst (CInt (-1))]) (mk_axes_state [0] false)
           (mk_axes_state [0; 1] true)).
  reflexivity.
Defined.

(** X10: the tuple forms of an axis on a bare array.  A one-element tuple
    of an [int] resolves like the [int] itself, with the same result or
    the same exception; [(None,)] gives the sentinel -1; the empty tuple
    and a tuple of two or more are rejected with "axis must be int or
    None". *)
Theorem one_element_tuple_axis (output_axes : bool) (x : array) :
  (forall z,
     axes_to_flat_tree (TArr x) (TTuple [TConst (CInt z)]) output_axes
     = axes_to_flat_tree (TArr x) (TConst (CInt z)) output_axes) /\
  axes_to_flat_tree (TArr x) (TTuple [py_none]) output_axes = Ok [-1] /\
  axes_to_flat_tree (TArr x) (TTuple []) output_axes
  = Raise axis_must_be_int_or_none /\
  (forall a1 a2 l,
     axes_to_flat_tree (TArr x) (TTuple (a1 :: a2 :: l)) output_axes
     = Raise axis_must_be_int_or_none).
Proof.
  split; [|split; [reflexivity|split; [reflexivity|]]].
  - intros z. unfold axes_to_flat_tree. simpl.
    destruct (cast_int z) as [axis|]; [|reflexivity]. simpl.
    destruct (resolve_axis output_axes x axis); reflexivity.
  - intros a1 a2 l. unfold axes_to_flat_tree. simpl.
    destruct a1 as [y|[z|bits|s|]|l0|l0|d0]; reflexivity.
Qed.

(** *** Whole trees *)

Lemma list_leafwise (output_axes : bool) (l1 : list pyobj) :
  Forall (leafwise output_axes) l1 ->
  forall l2 st st',
    list_visit2 (tree_visit (axes_visitor output_axes)) l1 l2 st = Ok st' ->
    exists xs axs,
      list_collect (fun t => tree_flatten t true) l1 = Ok xs /\
      flat_axes st' = flat_axes st ++ axs /\
      Forall2 (valid_axis output_axes) xs axs.
Proof.
  induction 1 as [|t l1 Ht _ IH]; intros l2 st st' H;
    destruct l2 as [|t2 l2]; simpl in H; try discriminate.
  - injection H as <-. exists [], []. rewrite app_nil_r.
    repeat split; constructor.
  - apply bind_Ok in H as (st1 & H1 & H).
    apply Ht in H1 as (xs1 & axs1 & Hx1 & Hf1 & Hv1).
    apply IH in H as (xs & axs & Hx & Hf & Hv).
    exists (xs1 ++ xs), (axs1 ++ axs). simpl. rewrite Hx1. simpl.
    rewrite Hx. simpl. split; [reflexivity|]. split.
    + rewrite Hf, Hf1, (assoc_L (++)). reflexivity.
    + apply Forall2_app; assumption.
Qed.

Lemma dict_leafwise (output_axes : bool) (d1 : list (string * pyobj)) :
  Forall (fun kv => leafwise output_axes kv.2) d1 ->
  forall d2 st st',
    list_visit2
      (fun (kv1 kv2 : string * pyobj) s0 =>
         if decide (kv1.1 = kv2.1 :> string)
         then tree_visit (axes_visitor output_axes) kv1.2 kv2.2 s0
         else Raise tree_structure_mismatch) d1 d2 st = Ok st' ->
    exists xs axs,
      list_collect (fun kv : string * pyobj => tree_flatten kv.2 true) d1
      = Ok xs /\
      flat_axes st' = flat_axes st ++ axs /\
      Forall2 (valid_axis output_axes) xs axs.
Proof.
  induction 1 as [|[k t] d1 Ht _ IH]; intros d2 st st' H;
    destruct d2 as [|[k2 t2] d2]; simpl in H; try discriminate.
  - injection H as <-. exists [], []. rewrite app_nil_r.
    repeat split; constructor.
  - apply bind_Ok in H as (st1 & H1 & H).
    destruct (decide (k = k2)); [|discriminate].
    apply Ht in H1 as (xs1 & axs1 & Hx1 & Hf1 & Hv1).
    apply IH in H as (xs & axs & Hx & Hf & Hv).
    exists (xs1 ++ xs), (axs1 ++ axs). simpl in *. rewrite Hx1. simpl.
    rewrite Hx. simpl. split; [reflexivity|]. split.
    + rewrite Hf, Hf1, (assoc_L (++)). reflexivity.
    + apply Forall2_app; assumption.
Qed.

Lemma tree_leafwise (output_axes : bool) (t : pyobj) : leafwise output_axes t.
Proof.
  induction t as [x|c|l IH|l IH|d IH] using tree_ind; intros ax st st' H.
  - simpl in H. apply axes_visitor_inv in H as (a & tuple & -> & _ & Ha).
    exists [x], [a]. split; [reflexivity|]. split; [reflexivity|].
    constructor; [|constructor]. unfold valid_axis.
    destruct Ha as [[-> _]|[Ha _]]; auto.
  - simpl in H. destruct c; discriminate.
  - simpl in H. destruct ax; try discriminate.
    exact (list_leafwise output_axes l IH _ _ _ H).
  - simpl in H. destruct ax; try discriminate.
    exact (list_leafwise output_axes l IH _ _ _ H).
  - simpl in H. destruct ax; try discriminate.
    exact (dict_leafwise output_axes d IH _ _ _ H).
Qed.

(** X11: the flat axes of a tree.  Whenever [axes_to_flat_tree] returns,
    every leaf of the tree is a tensor (a leaf that is not makes the
    visitor throw "The arguments should contain only arrays"), and the
    result has one entry per tensor, in flattening order: the sentinel -1
    or an admissible axis of that tensor. *)
Theorem one_valid_axis_per_tensor (tree axes : pyobj) (output_axes : bool)
    (flat : list Z) :
  axes_to_flat_tree tree axes output_axes = Ok flat ->
  exists xs,
    tree_flatten tree true = Ok xs /\
    Forall2 (valid_axis output_axes) xs flat.
Proof.
  unfold axes_to_flat_tree. intros H.
  apply bind_Ok in H as (st & Hvisit & H).
  destruct (encountered_tuple st && negb (is_array tree)); [discriminate|].
  injection H as <-.
  apply tree_leafwise in Hvisit as (xs & axs & Hxs & Hf & Hv).
  simpl in Hf. subst axs. exists xs. split; [exact Hxs|exact Hv].
Qed.

(** [in_axes=[-1, None]] for a list of a rank-2 and a rank-1 tensor. *)
Lemma one_valid_axis_per_tensor_witness :
  exists xs,
    tree_flatten (TList [TArr matrix; TArr sample_z]) true = Ok xs /\
    Forall2 (valid_axis false) xs [1; -1].
Proof.
  apply (one_valid_axis_per_tensor (TList [TArr matrix; TArr sample_z])
           (TList [TConst (CInt (-1)); py_none]) false [1; -1]).
  reflexivity.
Defined.

(** *** A vectorized call *)

Lemma flat_axes_leafwise (tree axes : pyobj) (output_axes : bool)
    (flat : list Z) :
  axes_to_flat_tree tree axes output_axes = Ok flat ->
  exists xs,
    tree_flatten tree true = Ok xs /\
    Forall2 (valid_axis output_axes) xs flat.
Proof.
  unfold axes_to_flat_tree. intros H.
  apply bind_Ok in H as (st & Hvisit & H).
  destruct (encountered_tuple st && negb (is_array tree)); [discriminate|].
  injection H as <-.
  apply tree_leafwise in Hvisit as (xs & axs & Hxs & Hf & Hv).
  simpl in Hf. subst axs. eauto.
Qed.

Lemma tree_unflatten_tuple (l : list pyobj) (values : list array) (i : nat)
    (t : pyobj) :
  tree_unflatten (TTuple l) values i = Ok t -> exists l', t = TTuple l'.
Proof.
  unfold tree_unflatten, tree_unflatten_from. simpl. intros H.
  apply fmap_Ok in H as ([t' i'] & H & ->).
  apply bind_Ok in H as ([l' s'] & _ & [= <- <-]). simpl. eauto.
Qed.

Lemma flatten_single (arg : pyobj) (strict : bool) (xs : list array) :
  tree_flatten (TTuple [arg]) strict = Ok xs -> tree_flatten arg strict = Ok xs.
Proof.
  simpl. intros H. apply bind_Ok in H as (ys & Hys & H).
  simpl in H. injection H as <-. rewrite app_nil_r. exact Hys.
Qed.

(** X12: what a vectorized call does when it returns.  The positional
    arguments hold tensors only; the input axes are what
    [axes_to_flat_tree] resolves [in_axes] to against the arguments (the
    bare argument when there is one), one valid axis per input; the
    callable was run, without keyword arguments, on the arguments with
    their tensors replaced by the tracers the primitive layer made of the
    inputs and these axes; what it returned holds tensors only; the output
    axes are what [axes_to_flat_tree] resolves [out_axes] to against that
    return value, one valid axis per output; and the result of the call is
    that return value with its tensors replaced by what the primitive
    layer returns for the inputs, tracers, outputs and the two lists of
    axes, so it has the structure of the return value. *)
Theorem vmap_result_has_the_structure_of_the_output
    (vmap_tracers : list array -> list Z -> list array)
    (vmap_replace : list array -> list array -> list array -> list Z ->
                    list Z -> list array)
    (f : callable) (in_axes out_axes : pyobj) (args : list pyobj)
    (out : pyobj) :
  py_vmap vmap_tracers vmap_replace f in_axes out_axes args = Ok out ->
  exists inputs flat_in_axes targs targs' tkwargs' py_outputs outputs
         flat_out_axes,
    tree_flatten (TTuple args) true = Ok inputs /\
    axes_to_flat_tree (match args with [arg0] => arg0 | _ => TTuple args end)
      in_axes false = Ok flat_in_axes /\
    Forall2 (valid_axis false) inputs flat_in_axes /\
    tree_unflatten (TTuple args) (vmap_tracers inputs flat_in_axes) 0
    = Ok (TTuple targs) /\
    f targs [] = Ok (targs', tkwargs', py_outputs) /\
    tree_flatten py_outputs true = Ok outputs /\
    axes_to_flat_tree py_outputs out_axes true = Ok flat_out_axes /\
    Forall2 (valid_axis true) outputs flat_out_axes /\
    tree_unflatten py_outputs
      (vmap_replace inputs (vmap_tracers inputs flat_in_axes) outputs
         flat_in_axes flat_out_axes) 0 = Ok out /\
    shaped_like py_outputs out.
Proof.
  unfold py_vmap. intros H.
  apply bind_Ok in H as (inputs & Hin & H).
  apply bind_Ok in H as (flat_in_axes & Hia & H).
  apply bind_Ok in H as ([py_outputs [tin tout]] & Htrace & H).
  apply bind_Ok in H as (flat_out_axes & Hoa & H).
  unfold vmap_trace in Htrace.
  apply bind_Ok in Htrace as ([po to] & Hfn & [= <- <- <-]).
  apply bind_Ok in Hfn as (t & Hun & Hfn).
  apply bind_Ok in Hfn as ([[targs' tkwargs'] po'] & Hcall & Hfn).
  apply bind_Ok in Hfn as (outs & Hout & [= <- <-]).
  destruct (tree_unflatten_tuple _ _ _ _ Hun) as [targs ->].
  destruct (flat_axes_leafwise _ _ _ _ Hia) as (xs & Hxs & Hvalid).
  destruct (flat_axes_leafwise _ _ _ _ Hoa) as (ys & Hys & Hvalid').
  rewrite Hout in Hys. injection Hys as <-.
  assert (xs = inputs) as ->.
  { destruct args as [|arg0 [|arg1 rest]].
    - rewrite Hin in Hxs. injection Hxs as <-. reflexivity.
    - apply flatten_single in Hin. rewrite Hin in Hxs.
      injection Hxs as <-. reflexivity.
    - rewrite Hin in Hxs. injection Hxs as <-. reflexivity. }
  exists inputs, flat_in_axes, targs, targs', tkwargs', po', outs, flat_out_axes.
  repeat (split; [assumption|]).
  exact (tree_unflatten_shape _ _ _ _ H).
Qed.

(** [vmap(f, in_axes=[-1, None], out_axes=[0, None])([m, v])] for [f]
    returning its argument, a rank-2 tensor [m] and a rank-1 tensor [v]. *)
Lemma vmap_result_has_the_structure_of_the_output_witness :
  exists inputs flat_in_axes targs targs' tkwargs' py_outputs outputs
         flat_out_axes,
    tree_flatten (TTuple [TList [TArr matrix; TArr sample_z]]) true
    = Ok inputs /\
    axes_to_flat_tree (TList [TArr matrix; TArr sample_z])
      (TList [TConst (CInt (-1)); py_none]) false = Ok flat_in_axes /\
    Forall2 (valid_axis false) inputs flat_in_axes /\
    tree_unflatten (TTuple [TList [TArr matrix; TArr sample_z]])
      (sample_vmap_tracers inputs flat_in_axes) 0
    = Ok (TTuple targs) /\
    first_argument targs [] = Ok (targs', tkwargs', py_outputs) /\
    tree_flatten py_outputs true = Ok outputs /\
    axes_to_flat_tree py_outputs (TList [TConst (CInt 0); py_none]) true
    = Ok flat_out_axes /\
    Forall2 (valid_axis true) outputs flat_out_axes /\
    tree_unflatten py_outputs
      (sample_vmap_replace inputs (sample_vmap_tracers inputs flat_in_axes)
         outputs flat_in_axes flat_out_axes) 0
    = Ok (TList [TArr (mk_array 121 [3; 4]); TArr (mk_array 103 [4])]) /\
    shaped_like py_outputs
      (TList [TArr (mk_array 121 [3; 4]); TArr (mk_array 103 [4])]).
Proof.
  apply (vmap_result_has_the_structure_of_the_output sample_vmap_tracers
           sample_vmap_replace first_argument
           (TList [TConst (CInt (-1)); py_none])
           (TList [TConst (CInt 0); py_none])
           [TList [TArr matrix; TArr sample_z]]
           (TList [TArr (mk_array 121 [3; 4]); TArr (mk_array 103 [4])])).
  reflexivity.
Defined.

End AxesFacts.

(** ** The flat inputs of a compiled call *)

Module FlatteningFacts.
Import Trees Compile TreesFacts PackagingFacts Samples CodecFacts.

Section WithHash.
Variable py_hash : string -> Z.

Lemma list_inputs_flattened (l : list pyobj) :
  Forall (inputs_flattened py_hash) l ->
  forall st st', list_fold (recurse py_hash) l st = Ok st' ->
  exists leaves,
    list_collect (fun x => tree_flatten x false) l = Ok leaves
    /\ inputs st' = inputs st ++ leaves.
Proof.
  induction 1 as [|x l Hx _ IH]; intros st st' H; simpl in *.
  - injection H as <-. exists []. rewrite app_nil_r. auto.
  - apply bind_Ok in H as (st1 & H1 & H).
    apply Hx in H1 as (xs & Hxs & Hin1).
    apply IH in H as (rs & Hrs & Hin).
    exists (xs ++ rs). rewrite Hxs. simpl. rewrite Hrs. simpl.
    rewrite Hin, Hin1, (assoc_L (++)). auto.
Qed.

Lemma dict_inputs_flattened (d : list (string * pyobj)) :
  Forall (fun kv => inputs_flattened py_hash kv.2) d ->
  forall st st',
    list_fold
      (fun (item : string * pyobj) s =>
         r ← cast_int64 (py_hash item.1);
         recurse py_hash item.2 (push_constant s (to_uint64 r))) d st = Ok st' ->
  exists leaves,
    list_collect (fun kv : string * pyobj => tree_flatten kv.2 false) d
    = Ok leaves
    /\ inputs st' = inputs st ++ leaves.
Proof.
  induction 1 as [|[k x] d Hx _ IH]; intros st st' H; simpl in *.
  - injection H as <-. exists []. rewrite app_nil_r. auto.
  - apply bind_Ok in H as (st1 & H1 & H).
    apply bind_Ok in H1 as (r & _ & H1).
    apply Hx in H1 as (xs & Hxs & Hin1).
    apply IH in H as (rs & Hrs & Hin).
    exists (xs ++ rs). rewrite Hxs. simpl. rewrite Hrs. simpl.
    rewrite Hin, Hin1, (assoc_L (++)). auto.
Qed.

Lemma recurse_inputs_flattened (obj : pyobj) : inputs_flattened py_hash obj.
Proof.
  induction obj as [a|c|l IH|l IH|d IH] using tree_ind; intros st st' H;
    simpl in H.
  - injection H as <-. exists [a]. auto.
  - exists []. rewrite app_nil_r. split; [reflexivity|].
    destruct c as [z|bits|s|]; try discriminate.
    + apply bind_Ok in H as (r & _ & [= <-]). reflexivity.
    + injection H as <-. reflexivity.
    + apply bind_Ok in H as (r & _ & [= <-]). reflexivity.
  - exact (list_inputs_flattened l IH _ _ H).
  - exact (list_inputs_flattened l IH _ _ H).
  - exact (dict_inputs_flattened d IH _ _ H).
Qed.

Lemma flatten_call_inputs (args : list pyobj) (kwargs : list (string * pyobj))
    (st : flat_call) (num_args : nat) :
  flatten_call py_hash args kwargs = Ok (st, num_args) ->
  exists la lk,
    tree_flatten (TTuple args) false = Ok la /\
    tree_flatten (TDict kwargs) false = Ok lk /\
    inputs st = la ++ lk /\ num_args = length la.
Proof.
  unfold flatten_call. intros H.
  apply bind_Ok in H as (st0 & H0 & H).
  apply bind_Ok in H as (st1 & H1 & [= <- <-]).
  apply recurse_inputs_flattened in H0 as (la & Hla & Hin0).
  apply recurse_inputs_flattened in H1 as (lk & Hlk & Hin1).
  simpl in Hin0. exists la, lk. rewrite Hin1, Hin0. auto.
Qed.

End WithHash.

(** X13: the flat inputs [recurse] collects agree with the tree helpers
    that read them back.  They are the tensors of the call, positional
    arguments first, and [num_args] is the number of positional ones.  So
    for any list [a] of at least as many tensors, which is how the
    callback [compile_fun] receives its tracers, [tree_unflatten(args, a)]
    and [tree_unflatten(kwargs, a, num_args)] succeed and give the
    arguments with their tensors replaced, in order, by the first tensors
    of [a]; and when those are the inputs themselves, the arguments come
    back unchanged. *)
Theorem call_arguments_read_back (py_hash : string -> Z)
    (args : list pyobj) (kwargs : list (string * pyobj))
    (st : flat_call) (num_args : nat) :
  flatten_call py_hash args kwargs = Ok (st, num_args) ->
  tree_flatten (TTuple [TTuple args; TDict kwargs]) false = Ok (inputs st) /\
  num_args = num_arrays (TTuple args) /\
  forall a : list array,
    (length (inputs st) <= length a)%nat ->
    exists targs tkwargs,
      tree_unflatten (TTuple args) a 0 = Ok (TTuple targs) /\
      tree_unflatten (TDict kwargs) a num_args = Ok (TDict tkwargs) /\
      shaped_like (TTuple args) (TTuple targs) /\
      shaped_like (TDict kwargs) (TDict tkwargs) /\
      tree_flatten (TTuple [TTuple targs; TDict tkwargs]) false
      = Ok (take (length (inputs st)) a) /\
      (take (length (inputs st)) a = inputs st ->
       targs = args /\ tkwargs = kwargs).
Proof.
  intros H.
  apply flatten_call_inputs in H as (la & lk & Hla & Hlk & Hin & ->).
  pose proof (tree_flatten_length _ _ _ Hla) as Hna.
  pose proof (tree_flatten_length _ _ _ Hlk) as Hnk.
  split.
  { change (tree_flatten (TTuple [TTuple args; TDict kwargs]) false)
      with (xs ← tree_flatten (TTuple args) false;
            rs ← (ys ← tree_flatten (TDict kwargs) false; Ok (ys ++ []));
            Ok (xs ++ rs)).
    rewrite Hla, Hlk. simpl. rewrite app_nil_r, Hin. reflexivity. }
  split; [exact Hna|].
  intros a Hlen. rewrite Hin, length_app in Hlen.
  destruct (tree_fills (TTuple args) a 0%nat) as (ta & Hfa & Hflata); [lia|].
  destruct (tree_fills (TDict kwargs) a (length la))
    as (tk & Hfk & Hflatk); [lia|].
  pose proof (tree_unflatten_from_structure_eq _ _ _ _ _ Hfa) as Hsa.
  pose proof (tree_unflatten_from_structure_eq _ _ _ _ _ Hfk) as Hsk.
  destruct ta as [| | |targs|]; try discriminate.
  destruct tk as [| | | |tkwargs]; try discriminate.
  exists targs, tkwargs.
  unfold tree_unflatten. rewrite Hfa, Hfk.
  split; [reflexivity|]. split; [reflexivity|].
  split; [exact Hsa|]. split; [exact Hsk|].
  rewrite drop_0, <- Hna in Hflata. rewrite <- Hnk in Hflatk.
  assert (tree_flatten (TTuple [TTuple targs; TDict tkwargs]) false
          = Ok (take (length (inputs st)) a)) as Hall.
  { change (tree_flatten (TTuple [TTuple targs; TDict tkwargs]) false)
      with (xs ← tree_flatten (TTuple targs) false;
            rs ← (ys ← tree_flatten (TDict tkwargs) false; Ok (ys ++ []));
            Ok (xs ++ rs)).
    rewrite Hflata, Hflatk. simpl. rewrite app_nil_r, Hin, length_app.
    rewrite take_take_drop. reflexivity. }
  split; [exact Hall|].
  intros Hsame. rewrite Hin, length_app, <- take_take_drop in Hsame.
  apply app_inj_1 in Hsame as [Ha Hk].
  2:{ rewrite length_take. lia. }
  rewrite Ha in Hflata. rewrite Hk in Hflatk.
  pose proof (same_structure_same_leaves _ _ _ Hsa Hla Hflata) as [= ->].
  pose proof (same_structure_same_leaves _ _ _ Hsk Hlk Hflatk) as [= ->].
  auto.
Qed.

(** The call [f(x, [y], k=z)]. *)
Lemma call_arguments_read_back_witness :
  tree_flatten
    (TTuple [TTuple [TArr sample_x; TList [TArr sample_y]];
             TDict [("k"%string, TArr sample_z)]]) false
  = Ok (inputs sample_flat_call) /\
  2%nat = num_arrays (TTuple [TArr sample_x; TList [TArr sample_y]]) /\
  forall a : list array,
    (length (inputs sample_flat_call) <= length a)%nat ->
    exists targs tkwargs,
      tree_unflatten (TTuple [TArr sample_x; TList [TArr sample_y]]) a 0
      = Ok (TTuple targs) /\
      tree_unflatten (TDict [("k"%string, TArr sample_z)]) a 2
      = Ok (TDict tkwargs) /\
      shaped_like (TTuple [TArr sample_x; TList [TArr sample_y]])
        (TTuple targs) /\
      shaped_like (TDict [("k"%string, TArr sample_z)]) (TDict tkwargs) /\
      tree_flatten (TTuple [TTuple targs; TDict tkwargs]) false
      = Ok (take (length (inputs sample_flat_call)) a) /\
      (take (length (inputs sample_flat_call)) a = inputs sample_flat_call ->
       targs = [TArr sample_x; TList [TArr sample_y]]
       /\ tkwargs = [("k"%string, TArr sample_z)]).
Proof.
  apply (call_arguments_read_back sample_hash
           [TArr sample_x; TList [TArr sample_y]]
           [("k"%string, TArr sample_z)] sample_flat_call 2).
  vm_compute. reflexivity.
Defined.

End FlatteningFacts.

(** ** What a compiled function takes as arguments *)

Module SupportFacts.
Import Trees Compile TreesFacts PackagingFacts Samples CodecFacts.

Section WithHash.
Variable py_hash : string -> Z.
Hypothesis hash_fits : forall s, - 2 ^ 63 <= py_hash s < 2 ^ 63.

Lemma cast_hash (s : string) : cast_int64 (py_hash s) = Ok (py_hash s).
Proof.
  unfold cast_int64. rewrite bool_decide_eq_true_2 by apply hash_fits.
  reflexivity.
Qed.

Lemma fold_accepts {X} (g : X -> flat_call -> result flat_call)
    (leaves : X -> list pyobj) (l : list X) :
  Forall (fun x => accepts g (leaves x) x) l ->
  accepts (list_fold g) (concat (map leaves l)) l.
Proof.
  induction 1 as [|x l Hx _ IH]; intros st; simpl.
  - split; [split; [constructor|reflexivity]|discriminate].
  - destruct (Hx st) as [Hok Hraise].
    destruct (g x st) as [st1|e1] eqn:Hg; simpl.
    + destruct (IH st1) as [Hoks Hraises]. split.
      * rewrite Forall_app, Hoks, <- Hok. simpl. tauto.
      * intros e He. destruct (Hraises e He) as [->|[-> (z & Hz & Hbig)]];
          [auto|].
        right. split; [reflexivity|]. exists z. split; [|exact Hbig].
        apply elem_of_app. auto.
    + split.
      * rewrite Forall_app, <- Hok. simpl. split; [discriminate|].
        intros [[=] _].
      * intros e [= <-].
        destruct (Hraise e1 eq_refl) as [->|[-> (z & Hz & Hbig)]]; [auto|].
        right. split; [reflexivity|]. exists z. split; [|exact Hbig].
        apply elem_of_app. auto.
Qed.

Lemma recurse_accepts (obj : pyobj) :
  accepts (recurse py_hash) (tree_leaves obj) obj.
Proof.
  induction obj as [a|c|l IH|l IH|d IH] using tree_ind; intros st.
  - simpl. split; [|discriminate]. split; [|reflexivity].
    intros _. constructor; [exact I|constructor].
  - destruct c as [z|bits|s|]; simpl.
    + unfold cast_int64.
      destruct (bool_decide_reflect (- 2 ^ 63 <= z < 2 ^ 63)) as [Hz|Hz];
        simpl.
      * split; [|discriminate]. split; [|reflexivity].
        intros _. constructor; [exact Hz|constructor].
      * split.
        -- split; [discriminate|]. intros H. apply Forall_inv in H.
           contradiction.
        -- intros e [= <-]. right. split; [reflexivity|].
           exists z. split; [apply elem_of_cons; left; reflexivity|exact Hz].
    + split; [|discriminate]. split; [|reflexivity].
      intros _. constructor; [exact I|constructor].
    + rewrite cast_hash. simpl. split; [|discriminate].
      split; [|reflexivity]. intros _. constructor; [exact I|constructor].
    + split.
      * split; [discriminate|]. intros H. apply Forall_inv in H. contradiction.
      * intros e [= <-]. auto.
  - simpl. apply (fold_accepts (recurse py_hash) tree_leaves l IH).
  - simpl. apply (fold_accepts (recurse py_hash) tree_leaves l IH).
  - simpl.
    apply (fold_accepts _ (fun kv : string * pyobj => tree_leaves kv.2) d).
    eapply Forall_impl; [exact IH|]. intros [k v] Hv s. simpl.
    rewrite cast_hash. simpl. apply Hv.
Qed.

End WithHash.

(** X14: which arguments a compiled function takes.  With the hashes of
    strings fitting [int64_t], as [__hash__] has them, flattening the call
    succeeds exactly when every leaf of the positional and keyword
    arguments is an array, a float, a string, or an int that fits
    [int64_t].  It fails either with "Function arguments must be trees of
    arrays or constants", or with the cast error of an int that does not
    fit; a [None] anywhere in the arguments makes it fail. *)
Theorem compile_takes_arrays_numbers_and_strings
    (py_hash : string -> Z) (args : list pyobj)
    (kwargs : list (string * pyobj)) :
  (forall s, - 2 ^ 63 <= py_hash s < 2 ^ 63) ->
  (is_ok (signature py_hash args kwargs) = true <->
   Forall supported_leaf (tree_leaves (TTuple [TTuple args; TDict kwargs]))) /\
  (forall e, signature py_hash args kwargs = Raise e ->
     e = compile_unsupported_argument \/
     e = cast_error /\
     exists z, TConst (CInt z) ∈ tree_leaves (TTuple [TTuple args; TDict kwargs])
               /\ ~ - 2 ^ 63 <= z < 2 ^ 63) /\
  (py_none ∈ tree_leaves (TTuple [TTuple args; TDict kwargs]) ->
   is_ok (signature py_hash args kwargs) = false).
Proof.
  intros Hhash.
  assert (tree_leaves (TTuple [TTuple args; TDict kwargs])
          = tree_leaves (TTuple args) ++ tree_leaves (TDict kwargs)) as Hleaves.
  { simpl. rewrite app_nil_r. reflexivity. }
  rewrite Hleaves. clear Hleaves.
  assert ((is_ok (signature py_hash args kwargs) = true <->
           Forall supported_leaf
             (tree_leaves (TTuple args) ++ tree_leaves (TDict kwargs))) /\
          (forall e, signature py_hash args kwargs = Raise e ->
             e = compile_unsupported_argument \/
             e = cast_error /\
             exists z, TConst (CInt z)
                         ∈ tree_leaves (TTuple args) ++ tree_leaves (TDict kwargs)
                       /\ ~ - 2 ^ 63 <= z < 2 ^ 63)) as [Hiff Hraise].
  { unfold signature, flatten_call.
    destruct (recurse_accepts py_hash Hhash (TTuple args) (mk_flat_call [] []))
      as [Hoka Hraisea].
    destruct (recurse py_hash (TTuple args) (mk_flat_call [] []))
      as [sa|ea] eqn:Ha; cbn -[recurse tree_leaves].
    - destruct (recurse_accepts py_hash Hhash (TDict kwargs) sa)
        as [Hokk Hraisek].
      destruct (recurse py_hash (TDict kwargs) sa) as [sk|ek] eqn:Hk;
        cbn -[recurse tree_leaves].
      + split; [|discriminate]. rewrite Forall_app, <- Hoka, <- Hokk.
        simpl. tauto.
      + split.
        * rewrite Forall_app, <- Hoka, <- Hokk. simpl. split; [discriminate|].
          intros [_ [=]].
        * intros e [= <-].
          destruct (Hraisek ek eq_refl) as [->|[-> (z & Hz & Hbig)]]; [auto|].
          right. split; [reflexivity|]. exists z. split; [|exact Hbig].
          apply elem_of_app. auto.
    - split.
      + rewrite Forall_app, <- Hoka. simpl. split; [discriminate|].
        intros [[=] _].
      + intros e [= <-].
        destruct (Hraisea ea eq_refl) as [->|[-> (z & Hz & Hbig)]]; [auto|].
        right. split; [reflexivity|]. exists z. split; [|exact Hbig].
        apply elem_of_app. auto. }
  split; [exact Hiff|]. split; [exact Hraise|].
  intros Hnone.
  apply not_true_is_false. intros Hok.
  apply Hiff in Hok. rewrite Forall_forall in Hok.
  destruct (Hok _ Hnone).
Qed.

(** The call [f(x, None, k=2.0)]. *)
Lemma compile_takes_arrays_numbers_and_strings_witness :
  (is_ok (signature small_hash [TArr sample_x; py_none]
            [("k"%string, TConst (CFloat 4611686018427387904))]) = true <->
   Forall supported_leaf
     (tree_leaves
        (TTuple [TTuple [TArr sample_x; py_none];
                 TDict [("k"%string, TConst (CFloat 4611686018427387904))]]))) /\
  (forall e,
     signature small_hash [TArr sample_x; py_none]
       [("k"%string, TConst (CFloat 4611686018427387904))] = Raise e ->
     e = compile_unsupported_argument \/
     e = cast_error /\
     exists z,
       TConst (CInt z)
       ∈ tree_leaves
           (TTuple [TTuple [TArr sample_x; py_none];
                    TDict [("k"%string, TConst (CFloat 4611686018427387904))]])
       /\ ~ - 2 ^ 63 <= z < 2 ^ 63) /\
  (py_none
   ∈ tree_leaves
       (TTuple [TTuple [TArr sample_x; py_none];
                TDict [("k"%string, TConst (CFloat 4611686018427387904))]]) ->
   is_ok (signature small_hash [TArr sample_x; py_none]
            [("k"%string, TConst (CFloat 4611686018427387904))]) = false).
Proof.
  apply (compile_takes_arrays_numbers_and_strings small_hash
           [TArr sample_x; py_none]
           [("k"%string, TConst (CFloat 4611686018427387904))]).
  intros s. unfold small_hash. lia.
Defined.

End SupportFacts.

(** ** Constants in the compilation signature *)

Module TokenFacts.
Import Trees Compile TreesFacts PackagingFacts Samples.

Lemma list_fold_app {X S} (g : X -> S -> result S) (l1 l2 : list X) (s : S) :
  list_fold g (l1 ++ l2) s = s1 ← list_fold g l1 s; list_fold g l2 s1.
Proof.
  revert s. induction l1 as [|x l1 IH]; intros s; simpl; [reflexivity|].
  destruct (g x s) as [s1|]; simpl; [apply IH|reflexivity].
Qed.

Lemma fold_appends_intro {X} (g : X -> flat_call -> result flat_call)
    (l : list X) :
  Forall (appends g) l -> fold_appends g l.
Proof.
  induction 1 as [|x l [r1 H1] _ [r2 H2]].
  - exists (Ok []). intros st. simpl. rewrite app_nil_r. reflexivity.
  - exists (t1 ← r1; t2 ← r2; Ok (t1 ++ t2)). intros st. simpl.
    specialize (H1 st).
    destruct (g x st) as [st1|e1]; destruct r1 as [t1|e1']; simpl in *;
      try discriminate.
    + injection H1 as H1. rewrite H2, H1.
      destruct r2 as [t2|e2]; simpl; [|reflexivity].
      rewrite (assoc_L (++)). reflexivity.
    + exact H1.
Qed.

Lemma push_appends (st : flat_call) (c : Z) :
  constants (push_constant st c) = constants st ++ [c].
Proof. reflexivity. Qed.

Lemma appends_after_push {X} (g : X -> flat_call -> result flat_call)
    (l : list X) (c : Z) :
  fold_appends g l ->
  exists r : result (list Z),
  forall st, constants <$> list_fold g l (push_constant st c)
             = (fun toks => constants st ++ toks) <$> r.
Proof.
  intros [r H]. exists ((fun toks => c :: toks) <$> r). intros st.
  rewrite H, push_appends. destruct r as [toks|]; simpl; [|reflexivity].
  rewrite <- (assoc_L (++)). reflexivity.
Qed.

Section WithHash.
Variable py_hash : string -> Z.

Lemma item_appends_of (kv : string * pyobj) :
  appends (recurse py_hash) kv.2 ->
  appends (fun (item : string * pyobj) s =>
             r ← cast_int64 (py_hash item.1);
             recurse py_hash item.2 (push_constant s (to_uint64 r))) kv.
Proof.
  destruct kv as [k v]. intros [r Hr].
  exists (h ← cast_int64 (py_hash k); (fun toks => to_uint64 h :: toks) <$> r).
  intros s. cbn [fst snd] in *.
  destruct (cast_int64 (py_hash k)) as [h|]; cbn -[recurse]; [|reflexivity].
  rewrite Hr, push_appends. destruct r as [toks|]; simpl; [|reflexivity].
  rewrite <- (assoc_L (++)). reflexivity.
Qed.

(** What [recurse] appends to [constants] depends on the tree alone. *)
Lemma recurse_appends (obj : pyobj) : appends (recurse py_hash) obj.
Proof.
  induction obj as [a|c|l IH|l IH|d IH] using tree_ind.
  - exists (Ok [array_identifier]). intros st. reflexivity.
  - destruct c as [z|bits|s|].
    + exists ((fun r => [to_uint64 r]) <$> cast_int64 z). intros st. simpl.
      destruct (cast_int64 z); reflexivity.
    + exists (Ok [to_uint64 bits]). intros st. reflexivity.
    + exists ((fun r => [to_uint64 r]) <$> cast_int64 (py_hash s)).
      intros st. simpl. destruct (cast_int64 (py_hash s)); reflexivity.
    + exists (Raise compile_unsupported_argument). intros st. reflexivity.
  - apply (appends_after_push _ l list_identifier).
    apply fold_appends_intro. exact IH.
  - apply (appends_after_push _ l list_identifier).
    apply fold_appends_intro. exact IH.
  - apply (appends_after_push _ d dict_identifier).
    apply fold_appends_intro.
    eapply Forall_impl; [exact IH|]. intros kv Hkv.
    exact (item_appends_of kv Hkv).
Qed.

Lemma item_appends (kv : string * pyobj) :
  appends (fun (item : string * pyobj) s =>
             r ← cast_int64 (py_hash item.1);
             recurse py_hash item.2 (push_constant s (to_uint64 r))) kv.
Proof. apply item_appends_of, recurse_appends. Qed.

(** The tokens of a tree that [recurse] accepts. *)
Lemma recurse_tokens (obj : pyobj) (st st' : flat_call) :
  recurse py_hash obj st = Ok st' ->
  exists toks,
    constants st' = constants st ++ toks /\
    forall st2, constants <$> recurse py_hash obj st2
                = Ok (constants st2 ++ toks).
Proof.
  intros H. destruct (recurse_appends obj) as [r Hr].
  pose proof (Hr st) as Hst. rewrite H in Hst. simpl in Hst.
  destruct r as [toks|]; [|discriminate]. injection Hst as Hst.
  exists toks. split; [exact Hst|]. intros st2. rewrite Hr. reflexivity.
Qed.

Lemma to_uint64_inj (z1 z2 : Z) :
  - 2 ^ 63 <= z1 < 2 ^ 63 -> - 2 ^ 63 <= z2 < 2 ^ 63 ->
  to_uint64 z1 = to_uint64 z2 -> z1 = z2.
Proof.
  unfold to_uint64. intros H1 H2 H.
  assert ((z1 - z2) mod 2 ^ 64 = 0) as Hmod.
  { rewrite Zminus_mod, H, Z.sub_diag. reflexivity. }
  apply Z.mod_divide in Hmod; [|lia]. destruct Hmod as [k Hk]. lia.
Qed.

Lemma cast_int64_Ok (z r : Z) :
  cast_int64 z = Ok r -> r = z /\ - 2 ^ 63 <= z < 2 ^ 63.
Proof.
  unfold cast_int64. destruct (bool_decide_reflect (- 2 ^ 63 <= z < 2 ^ 63));
    [|discriminate]. intros [= <-]. auto.
Qed.

(** Two runs of a fold that differ in one element: they agree before it,
    and what follows it appends the same tokens to both. *)
Lemma fold_differs {X} (g : X -> flat_call -> result flat_call)
    (pre post : list X) (x1 x2 : X) (st st1 st2 : flat_call) :
  fold_appends g post ->
  (forall s s1 s2, g x1 s = Ok s1 -> g x2 s = Ok s2 ->
                   constants s1 <> constants s2) ->
  list_fold g (pre ++ x1 :: post) st = Ok st1 ->
  list_fold g (pre ++ x2 :: post) st = Ok st2 ->
  constants st1 <> constants st2.
Proof.
  intros [rq Hq] Hx H1 H2.
  rewrite list_fold_app in H1, H2.
  apply bind_Ok in H1 as (sp & Hpre & H1).
  apply bind_Ok in H2 as (sp' & Hpre' & H2).
  rewrite Hpre in Hpre'. injection Hpre' as <-.
  simpl in H1, H2.
  apply bind_Ok in H1 as (s1 & Hg1 & H1).
  apply bind_Ok in H2 as (s2 & Hg2 & H2).
  pose proof (Hx _ _ _ Hg1 Hg2) as Hne.
  pose proof (Hq s1) as Hq1. rewrite H1 in Hq1.
  pose proof (Hq s2) as Hq2. rewrite H2 in Hq2.
  destruct rq as [tq|]; [|discriminate]. simpl in Hq1, Hq2.
  injection Hq1 as Hq1. injection Hq2 as Hq2.
  rewrite Hq1, Hq2. intros Heq. apply Hne.
  exact (app_inv_tail _ _ _ Heq).
Qed.

Lemma recurse_differs (t1 t2 : pyobj) :
  constant_changed t1 t2 ->
  forall st st1 st2,
    recurse py_hash t1 st = Ok st1 -> recurse py_hash t2 st = Ok st2 ->
    constants st1 <> constants st2.
Proof.
  induction 1 as [z1 z2 Hz|b1 b2 Hb1 Hb2 Hb|pre post t1 t2 _ IH
                 |pre post t1 t2 _ IH|pre post key t1 t2 _ IH];
    intros st st1 st2 H1 H2.
  - simpl in H1, H2.
    apply bind_Ok in H1 as (r1 & Hr1 & [= <-]).
    apply bind_Ok in H2 as (r2 & Hr2 & [= <-]).
    apply cast_int64_Ok in Hr1 as [-> Hr1].
    apply cast_int64_Ok in Hr2 as [-> Hr2].
    simpl. intros Heq. apply app_inv_head in Heq. injection Heq as Heq.
    apply Hz. exact (to_uint64_inj _ _ Hr1 Hr2 Heq).
  - simpl in H1, H2. injection H1 as <-. injection H2 as <-. simpl.
    intros Heq. apply app_inv_head in Heq. injection Heq as Heq.
    unfold to_uint64 in Heq. rewrite !Z.mod_small in Heq by lia.
    contradiction.
  - simpl in H1, H2.
    eapply (fold_differs (recurse py_hash) pre post t1 t2);
      [|exact IH|exact H1|exact H2].
    apply fold_appends_intro, Forall_forall. intros x _.
    apply recurse_appends.
  - simpl in H1, H2.
    eapply (fold_differs (recurse py_hash) pre post t1 t2);
      [|exact IH|exact H1|exact H2].
    apply fold_appends_intro, Forall_forall. intros x _.
    apply recurse_appends.
  - simpl in H1, H2.
    eapply (fold_differs _ pre post (key, t1) (key, t2));
      [| |exact H1|exact H2].
    + apply fold_appends_intro, Forall_forall. intros x _. apply item_appends.
    + simpl. intros s s1 s2 Hs1 Hs2.
      apply bind_Ok in Hs1 as (r1 & Hr1 & Hs1).
      apply bind_Ok in Hs2 as (r2 & Hr2 & Hs2).
      rewrite Hr1 in Hr2. injection Hr2 as <-.
      exact (IH _ _ _ Hs1 Hs2).
Qed.

End WithHash.

(** X15: a changed number changes the signature.  When two calls that both
    flatten differ in exactly one constant, an [int] with another value or
    a [float] with another bit pattern, at the same place of the
    positional or of the keyword arguments and at any depth, their
    compilation signatures differ. *)
Theorem changed_number_changes_signature (py_hash : string -> Z)
    (args1 args2 : list pyobj) (kwargs1 kwargs2 : list (string * pyobj))
    (sig1 sig2 : list Z) :
  constant_changed (TTuple args1) (TTuple args2) /\ kwargs1 = kwargs2 \/
  args1 = args2 /\ constant_changed (TDict kwargs1) (TDict kwargs2) ->
  signature py_hash args1 kwargs1 = Ok sig1 ->
  signature py_hash args2 kwargs2 = Ok sig2 ->
  sig1 <> sig2.
Proof.
  unfold signature, flatten_call. intros Hchanged H1 H2.
  apply fmap_Ok in H1 as ([st1 n1] & H1 & ->).
  apply fmap_Ok in H2 as ([st2 n2] & H2 & ->).
  apply bind_Ok in H1 as (sa1 & Ha1 & H1).
  apply bind_Ok in H1 as (sk1 & Hk1 & [= <- <-]).
  apply bind_Ok in H2 as (sa2 & Ha2 & H2).
  apply bind_Ok in H2 as (sk2 & Hk2 & [= <- <-]).
  simpl. destruct Hchanged as [[Hc <-] | [<- Hc]].
  - pose proof (recurse_differs py_hash _ _ Hc _ _ _ Ha1 Ha2) as Hne.
    destruct (recurse_tokens py_hash _ _ _ Hk1) as (toks & Ht1 & Hall).
    specialize (Hall sa2). rewrite Hk2 in Hall. injection Hall as Ht2.
    rewrite Ht1, Ht2. intros Heq. apply Hne. exact (app_inv_tail _ _ _ Heq).
  - rewrite Ha1 in Ha2. injection Ha2 as <-.
    exact (recurse_differs py_hash _ _ Hc _ _ _ Hk1 Hk2).
Qed.

(** [f(x, [1])] and [f(x, [2])]. *)
Lemma changed_number_changes_signature_witness :
  [list_identifier; array_identifier; list_identifier; 1; dict_identifier]
  <> [list_identifier; array_identifier; list_identifier; 2; dict_identifier].
Proof.
  apply (changed_number_changes_signature sample_hash
           [TArr sample_x; TList [TConst (CInt 1)]]
           [TArr sample_x; TList [TConst (CInt 2)]] [] []).
  - left. split; [|reflexivity].
    apply (changed_in_tuple [TArr sample_x] []).
    apply (changed_in_list [] []).
    apply int_changed. lia.
  - reflexivity.
  - reflexivity.
Defined.

End TokenFacts.

(** ** The registries of compiled functions *)

Module RegistryFacts.
Import Trees Compile TreesFacts PackagingFacts CompileFacts Samples CodecFacts.

Lemma cache_insert_keeps (k k' : Z) (v : structure) (m : gmap Z structure) :
  is_Some (m !! k') -> is_Some (cache_insert k v m !! k').
Proof.
  unfold cache_insert. destruct (m !! k) eqn:Hk; [auto|].
  intros Hk'. destruct (decide (k = k')) as [->|Hne].
  - rewrite Hk in Hk'. destruct Hk' as [? [=]].
  - rewrite lookup_insert_ne by exact Hne. exact Hk'.
Qed.

Lemma cache_insert_has (k : Z) (v : structure) (m : gmap Z structure) :
  is_Some (cache_insert k v m !! k).
Proof.
  unfold cache_insert. destruct (m !! k) eqn:Hk.
  - rewrite Hk. eauto.
  - rewrite lookup_insert_eq. eauto.
Qed.

Lemma cache_insert_fresh (k : Z) (v : structure) (m : gmap Z structure) :
  m !! k = None -> cache_insert k v m !! k = Some v.
Proof.
  unfold cache_insert. intros ->. apply lookup_insert_eq.
Qed.

(** What a run of the callback leaves behind. *)
Lemma compile_fun_inv (w : PyCompiledFun) (args : list pyobj)
    (kwargs : list (string * pyobj)) (num_args : nat)
    (a outs : list array) (s s' : world) :
  compile_fun w args kwargs num_args a s = Ok (outs, s') ->
  exists caps targs tkwargs caps' v,
    fun_ w caps targs tkwargs = Ok (caps', v) /\
    regs s'
    = mk_registries
        (cache_insert (fun_id w) (tree_structure v) (tree_cache (regs s)))
        (compile_cache (regs s)) /\
    n_outputs s' = num_arrays v.
Proof.
  intros H. unfold compile_fun in H.
  apply bind_Ok in H as ([[fic tc] cin] & _ & H).
  apply bind_Ok in H as (targs & _ & H).
  apply bind_Ok in H as (tkwargs & _ & H).
  apply bind_Ok in H as ([[cin' cout] tree_outputs] & Hcall & H).
  apply bind_Ok in H as ([outputs py_outputs] & Hflat & H).
  apply bind_Ok in H as (outputs' & _ & H).
  apply bind_Ok in H as (cin'' & _ & H).
  injection H as _ <-. simpl.
  unfold tree_flatten_with_structure in Hflat.
  apply bind_Ok in Hflat as (vals & Hvals & [= <- <-]).
  eexists _, _, _, _, tree_outputs. split; [exact Hcall|].
  split; [reflexivity|]. exact (tree_flatten_length _ _ _ Hvals).
Qed.

Section WithPrimitives.
Variable py_hash : string -> Z.
Variable placeholders : list array -> list array.
Variable run_trace : trace -> list array -> list array.

Lemma mx_compile_consistent (w : PyCompiledFun) (args : list pyobj)
    (kwargs : list (string * pyobj)) (num_args : nat) (sig : list Z)
    (ins outs : list array) (r : registries) (s : world) :
  registries_consistent r ->
  mx_compile placeholders run_trace (compile_fun w args kwargs num_args)
    (fun_id w) (shapeless w) sig ins (world_of w r) = Ok (outs, s) ->
  registries_consistent (regs s) /\ is_Some (tree_cache (regs s) !! fun_id w).
Proof.
  intros Hr H. unfold mx_compile in H. simpl in H.
  destruct (compile_cache r !! _) as [tr|] eqn:Hhit.
  - injection H as _ <-. simpl. split; [exact Hr|].
    exact (Hr _ _ Hhit).
  - apply bind_Ok in H as ([outs0 s0] & Hrun & [= _ <-]). simpl.
    apply compile_fun_inv in Hrun
      as (caps & targs & tkwargs & caps' & v & _ & Hregs & _).
    rewrite Hregs. simpl. split; [|apply cache_insert_has].
    intros key tr Hkey. unfold registries_consistent in Hr.
    cbn [compile_cache tree_cache regs world_of] in Hkey |- *.
    destruct (decide (key = (fun_id w, shapeless w, sig,
                             map (input_key (shapeless w)) ins)))
      as [->|Hne].
    + simpl. apply cache_insert_has.
    + rewrite lookup_insert_ne in Hkey by (intros Heq; apply Hne; auto).
      apply cache_insert_keeps. exact (Hr _ _ Hkey).
Qed.

Lemma call_impl_regs (w : PyCompiledFun) (args : list pyobj)
    (kwargs : list (string * pyobj)) (r : registries) (out : pyobj)
    (w' : PyCompiledFun) (r' : registries) :
  call_impl py_hash placeholders run_trace w args kwargs r = Ok (out, w', r') ->
  exists st num_args ins outs s py_outputs,
    mx_compile placeholders run_trace (compile_fun w args kwargs num_args)
      (fun_id w) (shapeless w) (constants st) ins (world_of w r)
    = Ok (outs, s) /\
    r' = regs s /\ num_outputs w' = n_outputs s /\
    tree_cache (regs s) !! fun_id w = Some py_outputs /\
    tree_unflatten_from_structure py_outputs outs 0 = Ok out.
Proof.
  intros H. unfold call_impl in H.
  apply bind_Ok in H as ([st num_args] & _ & H).
  apply bind_Ok in H as (ins & _ & H).
  apply bind_Ok in H as ([outs s] & Hcompile & H).
  apply bind_Ok in H as (cout & _ & H).
  apply bind_Ok in H as (py_outputs & Hat & H).
  apply bind_Ok in H as (out0 & Hout & [= <- <- <-]).
  exists st, num_args, ins, outs, s, py_outputs.
  split; [exact Hcompile|]. split; [reflexivity|]. split; [reflexivity|].
  split; [|exact Hout].
  unfold cache_at in Hat. destruct (tree_cache (regs s) !! fun_id w);
    [injection Hat as ->; reflexivity|discriminate].
Qed.

End WithPrimitives.

Lemma destroy_consistent (w : PyCompiledFun) (r : registries) :
  registries_consistent r -> registries_consistent (destroy w r).
Proof.
  intros Hr key tr Hkey. unfold destroy in *. simpl in *.
  apply map_lookup_filter_Some in Hkey as [Hkey Hid]. simpl in Hid.
  rewrite lookup_delete_ne by (intros Heq; apply Hid; auto).
  exact (Hr _ _ Hkey).
Qed.

(** X16: every cached trace has an output structure on record.  The two
    registries start out with this property, a call of a compiled wrapper
    that returns keeps it and leaves a structure recorded for the wrapper,
    and so does destroying a wrapper.  Hence the lookup
    [tree_cache().at(fun_id)] that follows a successful [mx::compile] in
    [call_impl] finds its entry, also when the trace was a cache hit and
    the callback did not run. *)
Theorem cached_traces_keep_their_structure (py_hash : string -> Z)
    (placeholders : list array -> list array)
    (run_trace : trace -> list array -> list array) :
  registries_consistent (mk_registries ∅ ∅) /\
  (forall w args kwargs r out w' r',
     registries_consistent r ->
     call_impl py_hash placeholders run_trace w args kwargs r
     = Ok (out, w', r') ->
     registries_consistent r' /\ is_Some (tree_cache r' !! fun_id w)) /\
  (forall w args kwargs num_args sig ins r outs s,
     registries_consistent r ->
     mx_compile placeholders run_trace (compile_fun w args kwargs num_args)
       (fun_id w) (shapeless w) sig ins (world_of w r) = Ok (outs, s) ->
     is_ok (cache_at (fun_id w) (tree_cache (regs s))) = true) /\
  (forall w r, registries_consistent r -> registries_consistent (destroy w r)).
Proof.
  split; [|split; [|split]].
  - intros key tr Hkey. simpl in Hkey. rewrite lookup_empty in Hkey.
    discriminate.
  - intros w args kwargs r out w' r' Hr H.
    apply call_impl_regs in H
      as (st & n & ins & outs & s & po & Hcompile & -> & _).
    exact (mx_compile_consistent _ _ _ _ _ _ _ _ _ _ _ Hr Hcompile).
  - intros w args kwargs n sig ins r outs s Hr Hcompile.
    destruct (mx_compile_consistent _ _ _ _ _ _ _ _ _ _ _ Hr Hcompile)
      as [_ [v Hv]].
    unfold cache_at. rewrite Hv. reflexivity.
  - exact destroy_consistent.
Qed.

(** X18: once the entries of an identity are gone, as after the wrapper
    that owned it was destroyed, a call of a wrapper with that identity
    that returns has run its callable: the structure recorded for the
    identity afterwards is the structure of what that run returned, the
    result of the call has that structure, and [num_outputs] is the number
    of tensors that run returned. *)
Theorem evicted_callable_is_traced_afresh (py_hash : string -> Z)
    (placeholders : list array -> list array)
    (run_trace : trace -> list array -> list array)
    (w : PyCompiledFun) (args : list pyobj) (kwargs : list (string * pyobj))
    (r : registries) (out : pyobj) (w' : PyCompiledFun) (r' : registries) :
  evicted (fun_id w) r ->
  call_impl py_hash placeholders run_trace w args kwargs r = Ok (out, w', r') ->
  exists caps targs tkwargs caps' v,
    fun_ w caps targs tkwargs = Ok (caps', v) /\
    tree_cache r' !! fun_id w = Some (tree_structure v) /\
    shaped_like v out /\
    num_outputs w' = num_arrays v.
Proof.
  intros [Htree Htraces] H.
  apply call_impl_regs in H
    as (st & n & ins & outs & s & po & Hcompile & -> & Hn & Hpo & Hout).
  unfold mx_compile in Hcompile. simpl in Hcompile.
  rewrite Htraces in Hcompile by reflexivity.
  apply bind_Ok in Hcompile as ([outs0 s0] & Hrun & [= <- <-]).
  simpl in *.
  apply compile_fun_inv in Hrun
    as (caps & targs & tkwargs & caps' & v & Hcall & Hregs & Hnum).
  rewrite Hregs in Hpo. simpl in Hpo.
  rewrite (cache_insert_fresh _ _ _ Htree) in Hpo. injection Hpo as <-.
  exists caps, targs, tkwargs, caps', v.
  split; [exact Hcall|]. split.
  - rewrite Hregs. simpl. apply cache_insert_fresh. exact Htree.
  - split; [|congruence].
    exact (unflatten_from_structure_shape _ _ _ _ Hout).
Qed.

(** The first call [f(x, 0)] of a fresh wrapper, on empty registries. *)
Lemma evicted_callable_is_traced_afresh_witness :
  exists caps targs tkwargs caps' v,
    fun_ sample_compiled caps targs tkwargs = Ok (caps', v) /\
    tree_cache first_call_result.2 !! fun_id sample_compiled
    = Some (tree_structure v) /\
    shaped_like v first_call_result.1.1 /\
    num_outputs first_call_result.1.2 = num_arrays v.
Proof.
  apply (evicted_callable_is_traced_afresh sample_hash sample_placeholders
           sample_run_trace sample_compiled
           [TArr sample_x; TConst (CInt 0)] [] (mk_registries ∅ ∅)).
  - split; [apply lookup_empty|]. intros key _. apply lookup_empty.
  - vm_compute. reflexivity.
Defined.

End RegistryFacts.

(** ** The overrides of a custom function *)

Module OverrideFacts.
Import Trees Custom TreesFacts PackagingFacts Samples CodecFacts.

(** *** The arguments an override is called with *)

Lemma unpack_inputs_roundtrip (args : list pyobj)
    (kwargs : list (string * pyobj)) (inputs : list array) (s : structure) :
  tree_flatten_with_structure (TTuple [TTuple args; TDict kwargs]) false
  = Ok (inputs, s) ->
  unpack_inputs s inputs = Ok (args, kwargs).
Proof.
  intros H. unfold unpack_inputs.
  rewrite (unflatten_flatten_with_structure _ _ _ _ H). reflexivity.
Qed.

(** X19: the jvp and the vmap override take positional arguments only.
    When the wrapper was called with at least one keyword argument, the
    callables handed to the primitive layer for the jvp and for the vmap
    fail with "Function should only accept positional arguments"
    whatever tangents, argnums or axes they are given, before the override
    is called. *)
Theorem jvp_and_vmap_overrides_take_no_keywords (f : callable)
    (args : list pyobj) (kwargs : list (string * pyobj))
    (inputs : list array) (s : structure) :
  tree_flatten_with_structure (TTuple [TTuple args; TDict kwargs]) false
  = Ok (inputs, s) ->
  kwargs <> [] ->
  (forall tangents argnums,
     InnerJVPFunction f s inputs tangents argnums
     = Raise custom_only_positional) /\
  (forall axes,
     InnerVmapFunction f s inputs axes = Raise custom_only_positional).
Proof.
  intros H Hkw. apply unpack_inputs_roundtrip in H.
  assert (bool_decide (0 < length kwargs)%nat = true) as Hlen.
  { apply bool_decide_eq_true. destruct kwargs; [contradiction|simpl; lia]. }
  split; intros; unfold InnerJVPFunction, InnerVmapFunction;
    rewrite H; simpl; rewrite Hlen; reflexivity.
Qed.

(** The call [f(x, k=y)]. *)
Lemma jvp_and_vmap_overrides_take_no_keywords_witness :
  (forall tangents argnums,
     InnerJVPFunction first_argument
       (TTuple [TTuple [TArr tt]; TDict [("k"%string, TArr tt)]])
       [sample_x; sample_y] tangents argnums
     = Raise custom_only_positional) /\
  (forall axes,
     InnerVmapFunction first_argument
       (TTuple [TTuple [TArr tt]; TDict [("k"%string, TArr tt)]])
       [sample_x; sample_y] axes
     = Raise custom_only_positional).
Proof.
  apply (jvp_and_vmap_overrides_take_no_keywords first_argument
           [TArr sample_x] [("k"%string, TArr sample_y)]).
  - reflexivity.
  - discriminate.
Defined.

(** X20: the vjp override is called on the original call.  For the inputs
    and the structure that [call_impl] flattened the call into, the vjp
    callable handed to the primitive layer calls the override with the
    positional arguments as they were passed (bare when there is one, as
    a tuple otherwise), the cotangents and the outputs rebuilt with the
    recorded output structure, and the keyword arguments as they were
    passed; it returns the tensors of what the override returns, and
    skips what is not a tensor. *)
Theorem vjp_override_sees_the_original_call (vjp_fun : callable)
    (args : list pyobj) (kwargs : list (string * pyobj))
    (primals : list array) (input_structure output_structure : structure)
    (cotangents outputs : list array) :
  tree_flatten_with_structure (TTuple [TTuple args; TDict kwargs]) false
  = Ok (primals, input_structure) ->
  InnerVJPFunction vjp_fun input_structure output_structure primals
    cotangents outputs
  = (new_cotangents ←
       tree_unflatten_from_structure output_structure cotangents 0;
     new_outputs ← tree_unflatten_from_structure output_structure outputs 0;
     '(_, _, out) ←
       vjp_fun [match args with [arg] => arg | _ => TTuple args end;
                new_cotangents; new_outputs] kwargs;
     tree_flatten out false).
Proof.
  intros H. apply unpack_inputs_roundtrip in H.
  unfold InnerVJPFunction. rewrite H. reflexivity.
Qed.

(** The call [f(x, k=y)] with one output. *)
Lemma vjp_override_sees_the_original_call_witness :
  InnerVJPFunction first_argument
    (TTuple [TTuple [TArr tt]; TDict [("k"%string, TArr tt)]]) (TArr tt)
    [sample_x; sample_y] [sample_z] [sample_z]
  = (new_cotangents ← tree_unflatten_from_structure (TArr tt) [sample_z] 0;
     new_outputs ← tree_unflatten_from_structure (TArr tt) [sample_z] 0;
     '(_, _, out) ←
       first_argument [TArr sample_x; new_cotangents; new_outputs]
         [("k"%string, TArr sample_y)];
     tree_flatten out false).
Proof.
  apply (vjp_override_sees_the_original_call first_argument
           [TArr sample_x] [("k"%string, TArr sample_y)]
           [sample_x; sample_y]
           (TTuple [TTuple [TArr tt]; TDict [("k"%string, TArr tt)]])
           (TArr tt) [sample_z] [sample_z]).
  reflexivity.
Defined.

(** *** The axes handed to the vmap override *)








End OverrideFacts.

Module VmapOverrideFacts.
Import Trees Custom TreesFacts PackagingFacts Samples OverrideFacts.

(** *** The outputs of the vmap override *)







End VmapOverrideFacts.

Module JvpOverrideFacts.
Import Trees Custom TreesFacts PackagingFacts Samples CodecFacts OverrideFacts.

(** *** Which tensors have a tangent *)

Lemma marked_app (l1 l2 : list bool) :
  marked (l1 ++ l2) = (marked l1 + marked l2)%nat.
Proof. unfold marked. rewrite filter_app, length_app. reflexivity. Qed.

Lemma marked_insert (have : list bool) (i : nat) :
  have !! i = Some false -> marked (<[i := true]> have) = S (marked have).
Proof.
  revert i. induction have as [|b have IH]; intros i Hi; [discriminate|].
  destruct i as [|i]; simpl in *.
  - injection Hi as ->. unfold marked. rewrite filter_cons_True by reflexivity.
    rewrite filter_cons_False by discriminate. reflexivity.
  - unfold marked in *. destruct b.
    + rewrite !filter_cons_True by reflexivity. simpl. rewrite IH; auto.
    + rewrite !filter_cons_False by discriminate. apply IH. exact Hi.
Qed.

Lemma have_tangents_from (argnums : list Z) :
  forall have : list bool,
  NoDup argnums ->
  Forall (fun arg => 0 <= arg /\ have !! Z.to_nat arg = Some false) argnums ->
  exists have',
    foldl (fun acc arg =>
             have ← acc;
             if bool_decide (0 <= arg < Z.of_nat (length have))
             then Ok (<[Z.to_nat arg := true]> have)
             else Raise undefined_behaviour) (Ok have) argnums = Ok have' /\
    length have' = length have /\
    marked have' = (marked have + length argnums)%nat.
Proof.
  induction argnums as [|arg rest IH]; intros have Hnd Hfree; simpl.
  - exists have. rewrite Nat.add_0_r. auto.
  - apply NoDup_cons in Hnd as [Hnotin Hnd].
    apply Forall_cons in Hfree as [[Hpos Harg] Hfree].
    assert (Z.to_nat arg < length have)%nat as Hlt
      by (apply lookup_lt_is_Some; eauto).
    rewrite bool_decide_eq_true_2 by lia.
    destruct (IH (<[Z.to_nat arg := true]> have) Hnd)
      as (have' & Hfold & Hlen & Hmarked).
    + rewrite Forall_forall in Hfree |- *. intros a Ha.
      destruct (Hfree a Ha) as [Hapos Hafree]. split; [exact Hapos|].
      rewrite list_lookup_insert_ne; [exact Hafree|].
      intros Heq. apply Hnotin.
      assert (arg = a) as -> by lia. exact Ha.
    + exists have'. split; [exact Hfold|].
      rewrite Hlen, length_insert, Hmarked, (marked_insert _ _ Harg).
      split; [reflexivity|lia].
Qed.

Lemma marked_replicate (n : nat) : marked (replicate n false) = 0%nat.
Proof.
  unfold marked. induction n as [|n IH]; simpl; [reflexivity|].
  rewrite filter_cons_False by discriminate. exact IH.
Qed.

Lemma have_tangents_marked (size : nat) (argnums : list Z) :
  NoDup argnums ->
  Forall (fun arg => 0 <= arg < Z.of_nat size) argnums ->
  exists have,
    have_tangents size argnums = Ok have /\
    length have = size /\ marked have = length argnums.
Proof.
  intros Hnd Hrange. unfold have_tangents.
  destruct (have_tangents_from argnums (replicate size false) Hnd)
    as (have & Hfold & Hlen & Hmarked).
  - eapply Forall_impl; [exact Hrange|]. simpl. intros a Ha.
    split; [lia|]. apply lookup_replicate_2. lia.
  - exists have. rewrite Hlen, length_replicate, Hmarked, marked_replicate.
    auto.
Qed.

(** *** Handing out the tangents *)

Lemma marked_next (have : list bool) (i n m : nat) :
  (marked (take n (drop i have)) + marked (take m (drop (i + n) have)))%nat
  = marked (take (n + m) (drop i have)).
Proof. rewrite <- marked_app, take_drop_next. reflexivity. Qed.

Lemma list_tangents_mapped (have : list bool) (tangents : list array)
    (l : list pyobj) :
  Forall (tangents_mapped have tangents) l ->
  forall ai ti : nat,
  let n := sum_list (map num_arrays l) in
  (ai + n <= length have)%nat ->
  (ti + marked (take n (drop ai have)) <= length tangents)%nat ->
  exists l',
    list_traverse (tree_map_leaves (tangent_or_none have tangents)) l (ai, ti)
    = Ok (l', ((ai + n)%nat, (ti + marked (take n (drop ai have)))%nat)) /\
    length l' = length l /\
    list_collect (fun x => tree_flatten x false) l'
    = Ok (take (marked (take n (drop ai have))) (drop ti tangents)).
Proof.
  induction 1 as [|x l Hx _ IH]; intros ai ti n Hlen Htan; subst n;
    simpl in *.
  - exists []. simpl. rewrite !Nat.add_0_r. auto.
  - rewrite <- marked_next in Htan.
    destruct (Hx ai ti) as (x' & Hmap & Hflat); [lia|lia|].
    destruct (IH (ai + num_arrays x)%nat
                 (ti + marked (take (num_arrays x) (drop ai have)))%nat)
      as (l' & Hmaps & Hlen' & Hflats); [lia|lia|].
    exists (x' :: l'). rewrite Hmap. simpl. rewrite Hmaps. simpl.
    rewrite Hflat. simpl. rewrite Hflats. simpl.
    rewrite <- marked_next, take_drop_next, !Nat.add_assoc, Hlen'.
    auto.
Qed.

Lemma dict_tangents_mapped (have : list bool) (tangents : list array)
    (d : list (string * pyobj)) :
  Forall (fun kv => tangents_mapped have tangents kv.2) d ->
  forall ai ti : nat,
  let n := sum_list (map (fun kv => num_arrays kv.2) d) in
  (ai + n <= length have)%nat ->
  (ti + marked (take n (drop ai have)) <= length tangents)%nat ->
  exists d',
    list_traverse
      (fun (kv : string * pyobj) s0 =>
         '(v, s1) ← tree_map_leaves (tangent_or_none have tangents) kv.2 s0;
         Ok ((kv.1, v), s1)) d (ai, ti)
    = Ok (d', ((ai + n)%nat, (ti + marked (take n (drop ai have)))%nat)) /\
    list_collect (fun kv : string * pyobj => tree_flatten kv.2 false) d'
    = Ok (take (marked (take n (drop ai have))) (drop ti tangents)).
Proof.
  induction 1 as [|[k x] d Hx _ IH]; intros ai ti n Hlen Htan; subst n;
    simpl in *.
  - exists []. simpl. rewrite !Nat.add_0_r. auto.
  - rewrite <- marked_next in Htan.
    destruct (Hx ai ti) as (x' & Hmap & Hflat); [lia|lia|].
    destruct (IH (ai + num_arrays x)%nat
                 (ti + marked (take (num_arrays x) (drop ai have)))%nat)
      as (d' & Hmaps & Hflats); [lia|lia|].
    exists ((k, x') :: d'). rewrite Hmap. simpl. rewrite Hmaps. simpl.
    rewrite Hflat. simpl. rewrite Hflats. simpl.
    rewrite <- marked_next, take_drop_next, !Nat.add_assoc.
    auto.
Qed.

Lemma tree_tangents_mapped (have : list bool) (tangents : list array)
    (t : pyobj) : tangents_mapped have tangents t.
Proof.
  induction t as [a|c|l IH|l IH|d IH] using tree_ind; intros ai ti Hlen Htan.
  - simpl in *.
    destruct (lookup_lt_is_Some_2 have ai ltac:(lia)) as [b Hb].
    rewrite (drop_S _ _ _ Hb) in *. simpl in *. rewrite take_0 in *.
    rewrite Hb. destruct b.
    + unfold marked in *. rewrite filter_cons_True in * by reflexivity.
      simpl in *.
      destruct (lookup_lt_is_Some_2 tangents ti ltac:(lia)) as [v Hv].
      rewrite Hv. exists (TArr v). simpl.
      rewrite (drop_S _ _ _ Hv). simpl. rewrite take_0.
      replace (ai + 1)%nat with (S ai) by lia.
      replace (ti + 1)%nat with (S ti) by lia. auto.
    + unfold marked in *. rewrite filter_cons_False in * by discriminate.
      simpl in *. exists py_none. simpl.
      replace (ai + 1)%nat with (S ai) by lia. rewrite Nat.add_0_r. auto.
  - simpl in *. exists py_none. simpl. rewrite !Nat.add_0_r. auto.
  - simpl in *.
    destruct (list_tangents_mapped have tangents l IH ai ti Hlen Htan)
      as (l' & -> & _ & Hflat).
    exists (TList l'). auto.
  - simpl in *.
    destruct (list_tangents_mapped have tangents l IH ai ti Hlen Htan)
      as (l' & -> & _ & Hflat).
    exists (TTuple l'). auto.
  - simpl in *.
    destruct (dict_tangents_mapped have tangents d IH ai ti Hlen Htan)
      as (d' & -> & Hflat).
    exists (TDict d'). auto.
Qed.

(** X23: the tangents the jvp override is handed.  For a call without
    keyword arguments, distinct [argnums] that index the flat inputs and
    one tangent for each, the tree of tangents is built, it has one item
    for each positional argument, and its tensors are exactly the tangents
    in their order; the jvp callable handed to the primitive layer calls
    the override with the positional arguments and that tree, and returns
    the tensors of what the override returns. *)
Theorem jvp_override_receives_every_tangent (jvp_fun : callable)
    (args : list pyobj) (primals : list array) (s : structure)
    (tangents : list array) (argnums : list Z) :
  tree_flatten_with_structure (TTuple [TTuple args; TDict []]) false
  = Ok (primals, s) ->
  NoDup argnums ->
  Forall (fun arg => 0 <= arg < Z.of_nat (length primals)) argnums ->
  length tangents = length argnums ->
  exists have tangent_trees,
    have_tangents (length primals) argnums = Ok have /\
    new_tangents args have tangents = Ok tangent_trees /\
    length tangent_trees = length args /\
    tree_flatten (TTuple tangent_trees) false = Ok tangents /\
    InnerJVPFunction jvp_fun s primals tangents argnums
    = ('(_, _, out) ←
         jvp_fun [bare_or_tuple args; bare_or_tuple tangent_trees] [];
       tree_flatten out false).
Proof.
  intros Hs Hnd Hrange Htan.
  pose proof (unpack_inputs_roundtrip _ _ _ _ Hs) as Hunpack.
  unfold tree_flatten_with_structure in Hs.
  apply bind_Ok in Hs as (vals & Hvals & [= <- <-]).
  apply tree_flatten_length in Hvals. simpl in Hvals.
  rewrite !Nat.add_0_r in Hvals.
  destruct (have_tangents_marked (length vals) argnums Hnd Hrange)
    as (have & Hhave & Hlen & Hmarked).
  assert (Forall (tangents_mapped have tangents) args) as Hall.
  { apply Forall_forall. intros t _. apply tree_tangents_mapped. }
  assert (take (sum_list (map num_arrays args)) (drop 0 have) = have) as Htake.
  { rewrite drop_0. apply take_ge. lia. }
  destruct (list_tangents_mapped have tangents args Hall 0%nat 0%nat)
    as (l' & Hmap & Hlen' & Hflat).
  { simpl. lia. }
  { simpl. rewrite Htake. lia. }
  simpl in Hmap, Hflat. rewrite Htake, Hmarked, drop_0 in Hflat.
  rewrite <- Htan, firstn_all in Hflat.
  exists have, l'. split; [exact Hhave|].
  assert (new_tangents args have tangents = Ok l') as Hnew.
  { unfold new_tangents. simpl. rewrite Hmap. reflexivity. }
  split; [exact Hnew|]. split; [exact Hlen'|]. split; [exact Hflat|].
  unfold InnerJVPFunction. rewrite Hunpack. simpl. rewrite Hhave. simpl.
  rewrite Hnew. reflexivity.
Qed.

(** The call [f(a, b)] with a tangent for [b] only. *)
Lemma jvp_override_receives_every_tangent_witness :
  exists have tangent_trees,
    have_tangents (length [scalar_a; scalar_b]) [1] = Ok have /\
    new_tangents [TArr scalar_a; TArr scalar_b] have [sample_x]
    = Ok tangent_trees /\
    length tangent_trees = length [TArr scalar_a; TArr scalar_b] /\
    tree_flatten (TTuple tangent_trees) false = Ok [sample_x] /\
    InnerJVPFunction first_argument
      (TTuple [TTuple [TArr tt; TArr tt]; TDict []])
      [scalar_a; scalar_b] [sample_x] [1]
    = ('(_, _, out) ←
         first_argument [bare_or_tuple [TArr scalar_a; TArr scalar_b];
                         bare_or_tuple tangent_trees] [];
       tree_flatten out false).
Proof.
  apply (jvp_override_receives_every_tangent first_argument
           [TArr scalar_a; TArr scalar_b] [scalar_a; scalar_b]
           (TTuple [TTuple [TArr tt; TArr tt]; TDict []]) [sample_x] [1]).
  - reflexivity.
  - apply NoDup_singleton.
  - repeat constructor; simpl; lia.
  - reflexivity.
Defined.

End JvpOverrideFacts.

(** ** Checkpointed and overridden calls *)

Module CheckpointFacts.
Import Trees Checkpoint TreesFacts PackagingFacts Samples CodecFacts.

(** X24: a checkpointed call runs the callable once on the arguments it
    was called with.  The call is the callable applied to the positional
    and keyword arguments as passed, after the round trip through the flat
    inputs and their structure; its failure is the failure of the call,
    and its return value, the tensors in it replaced by what the
    primitive returns for them, is the result.  So the result has the
    structure of the return value, constants included, and it is the
    return value when the primitive passes the outputs through. *)
Theorem checkpoint_calls_the_function_on_its_arguments
    (checkpoint_outputs : list array -> list array -> list array)
    (f : callable) (args : list pyobj) (kwargs : list (string * pyobj)) :
  exists inputs,
    tree_flatten (TTuple [TTuple args; TDict kwargs]) false = Ok inputs /\
    call_impl checkpoint_outputs f args kwargs
    = ('(_, _, out) ← f args kwargs;
       outputs ← tree_flatten out false;
       tree_unflatten_from_structure (tree_structure out)
         (checkpoint_outputs inputs outputs) 0) /\
    (forall args' kwargs' out,
       f args kwargs = Ok (args', kwargs', out) ->
       (forall result,
          call_impl checkpoint_outputs f args kwargs = Ok result ->
          shaped_like out result) /\
       (forall outputs,
          tree_flatten out false = Ok outputs ->
          checkpoint_outputs inputs outputs = outputs ->
          call_impl checkpoint_outputs f args kwargs = Ok out)).
Proof.
  destruct (tree_flatten_total (TTuple [TTuple args; TDict kwargs]))
    as [inputs Hin].
  exists inputs. split; [exact Hin|].
  assert (tree_flatten_with_structure (TTuple [TTuple args; TDict kwargs]) false
          = Ok (inputs, tree_structure (TTuple [TTuple args; TDict kwargs])))
    as Hfs by (unfold tree_flatten_with_structure; rewrite Hin; reflexivity).
  assert (call_impl checkpoint_outputs f args kwargs
          = ('(_, _, out) ← f args kwargs;
             outputs ← tree_flatten out false;
             tree_unflatten_from_structure (tree_structure out)
               (checkpoint_outputs inputs outputs) 0)) as Heq.
  { unfold call_impl. rewrite Hfs. cbn [mbind result_bind].
    unfold mx_checkpoint, InnerFunction.
    rewrite (unflatten_flatten_with_structure _ _ _ _ Hfs).
    cbn [mbind result_bind].
    destruct (f args kwargs) as [[[args' kwargs'] out]|e]; [|reflexivity].
    cbn [mbind result_bind]. unfold tree_flatten_with_structure.
    destruct (tree_flatten out false) as [outputs|e]; reflexivity. }
  split; [exact Heq|].
  intros args' kwargs' out Hcall. rewrite Heq, Hcall. cbn [mbind result_bind].
  split.
  - intros result H. apply bind_Ok in H as (outputs & _ & H).
    exact (unflatten_from_structure_shape _ _ _ _ H).
  - intros outputs Hout Hpass. rewrite Hout. cbn [mbind result_bind].
    rewrite Hpass. apply (unflatten_flatten_with_structure out false).
    unfold tree_flatten_with_structure. rewrite Hout. reflexivity.
Qed.

End CheckpointFacts.

Module CustomCallFacts.
Import Trees Custom TreesFacts PackagingFacts Samples CodecFacts.

(** X25: with an override registered, a call that returns has run the
    wrapped callable on the positional and keyword arguments as passed.
    The result has the structure of what the callable returned, and the
    structure recorded for the overrides is that structure. *)
Theorem overridden_function_runs_on_its_arguments
    (custom_outputs : list array -> list array -> list array)
    (w : PyCustomFunction) (args : list pyobj)
    (kwargs : list (string * pyobj)) (r : outcome) :
  has_value (vjp_fun_ w) || has_value (jvp_fun_ w) || has_value (vmap_fun_ w)
  = true ->
  call_impl custom_outputs w args kwargs = Ok r ->
  exists args' kwargs' out,
    fun_ w args kwargs = Ok (args', kwargs', out) /\
    returned r = (args, kwargs, r.(returned).2) /\
    shaped_like out r.(returned).2 /\
    events r = [flattened_inputs; traced_custom_function;
                recorded_output_structure (tree_structure out)].
Proof.
  intros Hset H. unfold call_impl in H.
  assert (negb (has_value (vjp_fun_ w)) && negb (has_value (jvp_fun_ w))
          && negb (has_value (vmap_fun_ w)) = false) as Hnot.
  { destruct (has_value (vjp_fun_ w)), (has_value (jvp_fun_ w)),
      (has_value (vmap_fun_ w)); try reflexivity; discriminate. }
  rewrite Hnot in H.
  apply bind_Ok in H as ([input_arrays input_structure] & Hfs & H).
  apply bind_Ok in H as ([outputs output_structure] & Hcustom & H).
  apply bind_Ok in H as (out' & Hout & [= <-]). simpl.
  unfold mx_custom_function in Hcustom.
  apply bind_Ok in Hcustom as ([outs s] & Hfwd & [= <- <-]).
  unfold InnerFunction in Hfwd.
  rewrite (unflatten_flatten_with_structure _ _ _ _ Hfs) in Hfwd.
  simpl in Hfwd.
  apply bind_Ok in Hfwd as ([[args' kwargs'] out] & Hcall & Hflat).
  unfold tree_flatten_with_structure in Hflat.
  apply bind_Ok in Hflat as (vals & _ & [= <- <-]).
  exists args', kwargs', out. split; [exact Hcall|].
  split; [reflexivity|]. split; [|reflexivity].
  exact (unflatten_from_structure_shape _ _ _ _ Hout).
Qed.

(** The call [f(x)] of a wrapper with a vjp override. *)
Lemma overridden_function_runs_on_its_arguments_witness :
  exists args' kwargs' out,
    fun_ overridden [TArr (mk_array 31 [2])] [] = Ok (args', kwargs', out) /\
    returned overridden_outcome
    = ([TArr (mk_array 31 [2])], [], (returned overridden_outcome).2) /\
    shaped_like out (returned overridden_outcome).2 /\
    events overridden_outcome
    = [flattened_inputs; traced_custom_function;
       recorded_output_structure (tree_structure out)].
Proof.
  apply (overridden_function_runs_on_its_arguments (fun _ outs => outs)
           overridden [TArr (mk_array 31 [2])] [] overridden_outcome).
  - reflexivity.
  - reflexivity.
Defined.

End CustomCallFacts.
